(** * Verification of the family-tree core: colour assignment, family
    detection and the layout relaxation contract.

  The development follows the TypeScript sources:
  - [src/utils/colorGenerator.ts]   (module [ColorGenerator]),
  - [src/utils/familyDetection.ts]  (modules [Graph], [FamilyDetection]
    and [Patrilineal], one per revision of the detector),
  - the relaxation engine exercised by [tests/dagRelaxation.test.ts]
    (module [DagRelaxation] in exact arithmetic, module
    [DagRelaxation64] on the numbers of the program). *)

From Stdlib Require Import List String Ascii Bool Arith ZArith Lia.
From Stdlib Require Import QArith Qabs Qminmax Lqa.
From Stdlib Require Import Permutation.
From Stdlib Require Import Floats.PrimFloat Floats.SpecFloat Floats.FloatOps.
From Stdlib Require Import Floats.FloatAxioms.
Import ListNotations.

Local Open Scope string_scope.
Local Open Scope list_scope.

(* ------------------------------------------------------------------ *)
(** * JavaScript numbers

  A JS number is an IEEE-754 binary64 value; the arithmetic operators
  are the primitive ones.  The remainder operator and [Math.round] are
  exact operations on the value of their argument, so they go through
  the mantissa/exponent view of the number. *)

Module JsNumber.

Definition number := float.

(** The exact value of a finite number as [m * 2^e]. *)
Definition to_dyadic (v : number) : option (Z * Z) :=
  match Prim2SF v with
  | S754_zero _ => Some (0, 0)%Z
  | S754_finite s m e => Some (if s then Z.neg m else Z.pos m, e)
  | S754_infinity _ => None
  | S754_nan => None
  end.

(** The number nearest to [m * 2^e] (exact when representable). *)
Definition of_dyadic (m e : Z) : number :=
  SF2Prim (binary_normalize prec emax m e false).

Definition of_Z (z : Z) : number := of_dyadic z 0.

Definition of_nat (n : nat) : number := of_Z (Z.of_nat n).

(** [m * 2^e] brought to the exponent [e'] (with [e' <= e]). *)
Definition align (m e e' : Z) : Z := (m * 2 ^ (e - e'))%Z.

(** [a % b]: the remainder has the sign of the dividend and is exact. *)
Definition rem (a b : number) : number :=
  match to_dyadic a, to_dyadic b with
  | Some (ma, ea), Some (mb, eb) =>
      if (mb =? 0)%Z then nan
      else
        let e := Z.min ea eb in
        let r := Z.rem (align ma ea e) (align mb eb e) in
        if (r =? 0)%Z then (if get_sign a then neg_zero else zero)
        else of_dyadic r e
  | Some _, None => if is_nan b then nan else a
  | None, _ => nan
  end.

(** The result of [Math.round]. *)
Inductive rounded : Type :=
| Integer (z : Z)
| Infinite (negative : bool)
| NotANumber.

(** [Math.round]: the integer nearest to the value, ties towards plus
    infinity. *)
Definition round (v : number) : rounded :=
  match to_dyadic v with
  | Some (m, e) =>
      if (0 <=? e)%Z then Integer (m * 2 ^ e)%Z
      else Integer (Z.div (2 * m + 2 ^ (- e)) (2 ^ (- e + 1)))%Z
  | None => if is_nan v then NotANumber else Infinite (get_sign v)
  end.

End JsNumber.

(* ------------------------------------------------------------------ *)
(** * Strings of the JS runtime used by the sources *)

Module JsString.

Definition hex_digit (d : Z) : ascii :=
  match d with
  | 0 => "0" | 1 => "1" | 2 => "2" | 3 => "3" | 4 => "4"
  | 5 => "5" | 6 => "6" | 7 => "7" | 8 => "8" | 9 => "9"
  | 10 => "a" | 11 => "b" | 12 => "c" | 13 => "d" | 14 => "e"
  | _ => "f"
  end%Z%char.

Fixpoint hex_of_pos (fuel : nat) (p : Z) (acc : string) : string :=
  match fuel with
  | O => acc
  | S f =>
      let acc' := String (hex_digit (p mod 16)) acc in
      if (p / 16 =? 0)%Z then acc' else hex_of_pos f (p / 16) acc'
  end.

(** [n.toString(16)] for an integral number. *)
Definition toString16 (z : Z) : string :=
  if (z <? 0)%Z
  then String "-" (hex_of_pos (Z.to_nat (Z.log2 (- z)) + 1) (- z) "")
  else hex_of_pos (Z.to_nat (Z.log2 z) + 1) z "".

Fixpoint repeat_char (c : ascii) (n : nat) : string :=
  match n with O => "" | S k => String c (repeat_char c k) end.

(** [s.padStart(n, c)] with a one-character filler. *)
Definition padStart (n : nat) (c : ascii) (s : string) : string :=
  repeat_char c (n - String.length s) ++ s.

Definition upper_char (c : ascii) : ascii :=
  let n := nat_of_ascii c in
  if (97 <=? n)%nat && (n <=? 122)%nat then ascii_of_nat (n - 32) else c.

Fixpoint toUpperCase (s : string) : string :=
  match s with
  | EmptyString => EmptyString
  | String c r => String (upper_char c) (toUpperCase r)
  end.

(** [s.startsWith(p)] *)
Definition startsWith (p s : string) : bool := String.prefix p s.

End JsString.

(* ------------------------------------------------------------------ *)
(** * src/utils/colorGenerator.ts *)

Module ColorGenerator.
Import JsNumber JsString.
Local Open Scope float_scope.

Definition FAMILY_COLOR_PALETTE : list string :=
  [ "#8B5CF6"; "#10B981"; "#3B82F6"; "#F59E0B"; "#EF4444";
    "#14B8A6"; "#F97316"; "#EC4899"; "#6366F1"; "#84CC16" ]%string.

(** One colour channel: [Math.round(v * 255).toString(16).padStart(2, '0')]. *)
Definition channelHex (v : number) : string :=
  match round (v * 255) with
  | Integer z => padStart 2 "0" (toString16 z)
  | Infinite false => "Infinity"%string
  | Infinite true => "-Infinity"%string
  | NotANumber => "NaN"%string
  end.

Definition hslToHex (h s l : number) : string :=
  let sNorm := s / 100 in
  let lNorm := l / 100 in
  let c := (1 - abs (2 * lNorm - 1)) * sNorm in
  let x := c * (1 - abs (rem (h / 60) 2 - 1)) in
  let m := lNorm - c / 2 in
  let '(r, g, b) :=
    if (0 <=? h) && (h <? 60) then (c, x, 0)
    else if (60 <=? h) && (h <? 120) then (x, c, 0)
    else if (120 <=? h) && (h <? 180) then (0, c, x)
    else if (180 <=? h) && (h <? 240) then (0, x, c)
    else if (240 <=? h) && (h <? 300) then (x, 0, c)
    else if (300 <=? h) && (h <? 360) then (c, 0, x)
    else (0, 0, 0) in
  let rHex := channelHex (r + m) in
  let gHex := channelHex (g + m) in
  let bHex := channelHex (b + m) in
  toUpperCase ("#" ++ rHex ++ gHex ++ bHex)%string.

(** The hue of a generated colour: [(index * 137.5) % 360]. *)
Definition hue (index : nat) : number := rem (of_nat index * 137.5) 360.

Definition generateFamilyColor (index : nat) : string :=
  if (index <? List.length FAMILY_COLOR_PALETTE)%nat
  then nth index FAMILY_COLOR_PALETTE ""%string
  else hslToHex (hue index) 70 55.

Definition generateFamilyColors (count : nat) : list string :=
  map generateFamilyColor (seq 0 count).

(** Get all available family colors *)
Definition getAllFamilyColors : list string := FAMILY_COLOR_PALETTE.

End ColorGenerator.

(* ------------------------------------------------------------------ *)
(** * Collections of the JS runtime

    A [Set<string>] is the list of its elements in insertion order, a
    [Map<string, V>] the list of its entries in insertion order. *)

Module JsSet.

Definition t := list string.

Definition has (x : string) (s : t) : bool := existsb (String.eqb x) s.

Definition add (x : string) (s : t) : t := if has x s then s else s ++ [x].

Definition size (s : t) : nat := List.length s.

(** [new Set(iterable)] *)
Definition of_list (l : list string) : t := fold_left (fun s x => add x s) l [].

(** [s.delete(x)] *)
Definition delete (x : string) (s : t) : t :=
  filter (fun z => negb (String.eqb z x)) s.

End JsSet.

Module JsMap.

Definition t (V : Type) := list (string * V).

Fixpoint get {V} (k : string) (m : t V) : option V :=
  match m with
  | [] => None
  | (k', v) :: r => if String.eqb k k' then Some v else get k r
  end.

Definition has {V} (k : string) (m : t V) : bool :=
  match get k m with Some _ => true | None => false end.

(** [m.set(k, v)]: an existing key keeps its place. *)
Fixpoint set {V} (k : string) (v : V) (m : t V) : t V :=
  match m with
  | [] => [(k, v)]
  | (k', v') :: r =>
      if String.eqb k k' then (k, v) :: r else (k', v') :: set k v r
  end.

End JsMap.

(* ------------------------------------------------------------------ *)
(** * What a call does: it returns, throws, or is still running when the
      iteration budget of the model is used up *)

Inductive outcome (A : Type) : Type :=
| Returned (a : A)
| Threw
| OutOfFuel.

Arguments Returned {A} a.
Arguments Threw {A}.
Arguments OutOfFuel {A}.

Definition bind {A B} (m : outcome A) (k : A -> outcome B) : outcome B :=
  match m with
  | Returned a => k a
  | Threw => Threw
  | OutOfFuel => OutOfFuel
  end.

Notation "x <- m ;; k" := (bind m (fun x => k))
  (at level 61, m at next level, right associativity).

(** [xs.forEach(body)] threading the state the body mutates. *)
Fixpoint forEachM {A S} (body : A -> S -> outcome S) (xs : list A) (s : S)
  : outcome S :=
  match xs with
  | [] => Returned s
  | a :: r => s' <- body a s ;; forEachM body r s'
  end.

(* ------------------------------------------------------------------ *)
(** * Plain objects used as tables

    [obj[key]] on an object literal first looks for a property of the
    object itself and then along the prototype chain, so for the names
    below it answers also when the table has no such entry. *)

Module JsObject.

(** The property names of [Object.prototype]. *)
Definition inherited_keys : list string :=
  [ "constructor"; "hasOwnProperty"; "isPrototypeOf"; "propertyIsEnumerable";
    "toLocaleString"; "toString"; "valueOf";
    "__defineGetter__"; "__defineSetter__"; "__lookupGetter__";
    "__lookupSetter__"; "__proto__" ]%string.

Definition inherits (key : string) : bool :=
  existsb (String.eqb key) inherited_keys.

End JsObject.

(* ------------------------------------------------------------------ *)
(** * The input of the detector *)

Module Graph.
Import JsString.

(** Modelled from the spec: the declarations of [Member] and [FamilyData]
    ([src/types/types.ts]) are not part of the sources at hand.  A member
    carries the attributes the detector reads (an absent optional string
    is [None]); the member table lists its entries in the order
    [Object.keys] enumerates them, with distinct keys. *)
Record Member := {
  name : option string;
  first_name : option string;
  last_name : option string;
  is_spouse : bool;
  gender : option string
}.

Record FamilyData := {
  start : string;
  members : list (string * Member);
  links : list (string * string)
}.

(** What [data.members[id]] is for an inherited name that the table has
    no entry for: a method of [Object.prototype] (under [constructor]
    the function [Object], under [__proto__] the prototype itself).  The
    value is truthy; of the attributes the detector reads it has [name]
    only, the name of the function. *)
Definition inherited (id : string) : option Member :=
  if JsObject.inherits id then
    Some {| name :=
              if String.eqb id "constructor" then Some "Object"%string
              else if String.eqb id "__proto__" then None
              else Some id;
            first_name := None;
            last_name := None;
            is_spouse := false;
            gender := None |}
  else None.

(** [data.members[id]] *)
Definition member (data : FamilyData) (id : string) : option Member :=
  match JsMap.get id (members data) with
  | Some m => Some m
  | None => inherited id
  end.

(** [data.members[id]] is truthy. *)
Definition has_member (data : FamilyData) (id : string) : bool :=
  match member data id with
  | Some _ => true
  | None => false
  end.

(** Truthiness of a string: the empty string is falsy. *)
Definition truthy (s : string) : bool := negb (String.eqb s "").

(** Get all union nodes that a member is part of *)
Definition getUnionsForMember (data : FamilyData) (memberId : string)
  : list string :=
  fold_left
    (fun unions '(from, to) =>
       if String.eqb from memberId && startsWith "u_" to
       then unions ++ [to] else unions)
    (links data) [].

(** Get all children of a union node *)
Definition getChildrenOfUnion (data : FamilyData) (unionId : string)
  : list string :=
  fold_left
    (fun children '(from, to) =>
       if String.eqb from unionId && negb (startsWith "u_" to)
       then children ++ [to] else children)
    (links data) [].

(** ** [unionId.match(/u_(.+)_(.+)/)]

    A string is the sequence of the bytes of its UTF-8 form.  [.] is any
    character but a line terminator, so the three parts after
    [u_] lie on one line; the first group is greedy, so it ends at the
    last underscore that still leaves a character for the second group,
    which then runs to the end of the line.  The search takes the
    leftmost position where the pattern matches. *)

(** [s] starts with a line terminator: line feed, carriage return, or
    one of U+2028 and U+2029, which a string holds as the three bytes
    226 128 168 and 226 128 169. *)
Definition line_terminator_at (s : string) : bool :=
  match s with
  | EmptyString => false
  | String c r =>
      Ascii.eqb c "010"%char || Ascii.eqb c "013"%char ||
      (Ascii.eqb c "226"%char &&
       match r with
       | String d (String e _) =>
           Ascii.eqb d "128"%char &&
           (Ascii.eqb e "168"%char || Ascii.eqb e "169"%char)
       | _ => false
       end)
  end.

(** What of [s] comes before its first line terminator. *)
Fixpoint line_prefix (s : string) : string :=
  match s with
  | EmptyString => EmptyString
  | String c r =>
      if line_terminator_at s then EmptyString else String c (line_prefix r)
  end.

(** Split at the last underscore that has a character after it. *)
Fixpoint split_last_underscore (s : string) : option (string * string) :=
  match s with
  | EmptyString => None
  | String c r =>
      match split_last_underscore r with
      | Some (a, b) => Some (String c a, b)
      | None =>
          if Ascii.eqb c "_"%char && negb (String.eqb r "")
          then Some (EmptyString, r) else None
      end
  end.

(** [(.+)_(.+)] anchored at the start of [s]. *)
Definition match_groups (s : string) : option (string * string) :=
  match line_prefix s with
  | EmptyString => None
  | String c r =>
      match split_last_underscore r with
      | Some (a, b) => Some (String c a, b)
      | None => None
      end
  end.

Definition match_here (s : string) : option (string * string) :=
  match s with
  | String "u" (String "_" r) => match_groups r
  | _ => None
  end.

Fixpoint match_union (s : string) : option (string * string) :=
  match match_here s with
  | Some g => Some g
  | None =>
      match s with
      | EmptyString => None
      | String _ r => match_union r
      end
  end.

(** Parse union ID to get partner member IDs *)
Definition parseUnionId (unionId : string) : list string :=
  match match_union unionId with
  | None => []
  | Some (id1, id2) =>
      let partnerId1 := if startsWith "mem_" id1 then id1 else ("mem_" ++ id1)%string in
      let partnerId2 := if startsWith "mem_" id2 then id2 else ("mem_" ++ id2)%string in
      [partnerId1; partnerId2]
  end.

(** ** Find all root nodes (members with no parents) *)

Definition childrenSet (data : FamilyData) : JsSet.t :=
  fold_left
    (fun set '(from, to) =>
       if startsWith "u_" from && negb (startsWith "u_" to)
       then JsSet.add to set else set)
    (links data) [].

Definition naturalRoots (data : FamilyData) : list string :=
  fold_left
    (fun roots '(memberId, member) =>
       if negb (JsSet.has memberId (childrenSet data)) && negb (is_spouse member)
       then roots ++ [memberId] else roots)
    (members data) [].

Definition findRootNodes (data : FamilyData) : list string :=
  let roots := naturalRoots data in
  if (List.length roots =? 0)%nat && (0 <? List.length (members data))%nat
  then
    if truthy (start data) && has_member data (start data)
    then roots ++ [start data] else roots
  else roots.

(** ** Generate a family name from the root member *)

(** What [trim] removes: white space and line terminators.  Those of
    one byte are tab, line feed, vertical tab, form feed, carriage return
    and space. *)
Definition is_space (c : ascii) : bool :=
  let n := nat_of_ascii c in
  ((9 <=? n) && (n <=? 13) || (n =? 32))%nat.

(** U+00A0, in two bytes. *)
Definition is_space2 (c d : ascii) : bool :=
  ((nat_of_ascii c =? 194) && (nat_of_ascii d =? 160))%nat.

(** In three bytes: U+1680, U+2000 to U+200A, U+2028, U+2029, U+202F,
    U+205F, U+3000 and U+FEFF. *)
Definition is_space3 (c d e : ascii) : bool :=
  let '(c, d, e) := (nat_of_ascii c, nat_of_ascii d, nat_of_ascii e) in
  ((c =? 225) && (d =? 154) && (e =? 128)
   || (c =? 226) && (d =? 128)
      && ((128 <=? e) && (e <=? 138) || (e =? 168) || (e =? 169) || (e =? 175))
   || (c =? 226) && (d =? 129) && (e =? 159)
   || (c =? 227) && (d =? 128) && (e =? 128)
   || (c =? 239) && (d =? 187) && (e =? 191))%nat.

(** [s.trim() === ''] *)
Fixpoint blank (s : string) : bool :=
  match s with
  | EmptyString => true
  | String c r =>
      if is_space c then blank r
      else
        match r with
        | EmptyString => false
        | String d r2 =>
            if is_space2 c d then blank r2
            else
              match r2 with
              | EmptyString => false
              | String e r3 => is_space3 c d e && blank r3
              end
        end
  end.

Definition getFamilyName (m : Member) : string :=
  let fallback :=
    match name m with
    | Some n => if truthy n then n else
        match first_name m with
        | Some f => if truthy f then f else "Unknown"
        | None => "Unknown"
        end
    | None =>
        match first_name m with
        | Some f => if truthy f then f else "Unknown"
        | None => "Unknown"
        end
    end in
  match last_name m with
  | Some ln =>
      if truthy ln && negb (blank ln) then ("Family of " ++ ln)%string
      else ("Family of " ++ fallback)%string
  | None => ("Family of " ++ fallback)%string
  end.

(** ** The breadth-first loop of [assignDescendants] and
       [assignDescendantsPatrilineal]

    The two functions run the same [while (queue.length > 0)] loop; they
    differ in what visiting a member records ([visit], on the sets and
    maps [St] the function was handed) and in which unions of the member
    they descend through ([follows]).  [processed] is the history of the
    ids that got past the visited-check, in order. *)

Section Traversal.

Variable data : FamilyData.
Variable St : Type.
Variable visit : string -> St -> St.
Variable follows : string -> string -> bool.

Record loop_state := {
  queue : list string;
  visited : JsSet.t;
  processed : list string;
  store : St
}.

(** The children pushed for one member: for each followed union, each
    child not yet visited. *)
Definition enqueueChildren (memberId : string) (visited : JsSet.t)
  (queue : list string) : list string :=
  fold_left
    (fun q unionId =>
       if follows memberId unionId
       then
         fold_left
           (fun q childId =>
              if negb (JsSet.has childId visited) then q ++ [childId] else q)
           (getChildrenOfUnion data unionId) q
       else q)
    (getUnionsForMember data memberId) queue.

(** One turn of the loop body, after [queue.shift()]. *)
Definition loop_body (memberId : string) (rest : list string)
  (st : loop_state) : loop_state :=
  if JsSet.has memberId (visited st)
  then {| queue := rest; visited := visited st;
          processed := processed st; store := store st |}
  else
    let visited' := JsSet.add memberId (visited st) in
    {| queue := enqueueChildren memberId visited' rest;
       visited := visited';
       processed := processed st ++ [memberId];
       store := visit memberId (store st) |}.

Fixpoint while_queue (fuel : nat) (st : loop_state) : outcome loop_state :=
  match queue st with
  | [] => Returned st
  | memberId :: rest =>
      match fuel with
      | O => OutOfFuel
      | S fuel' => while_queue fuel' (loop_body memberId rest st)
      end
  end.

(** Iterations granted to one traversal. *)
Definition budget : nat :=
  S (List.length (links data) * List.length (links data)).

Definition traverse (rootMemberId : string) (s : St) : outcome loop_state :=
  while_queue budget
    {| queue := [rootMemberId]; visited := []; processed := []; store := s |}.

End Traversal.

Arguments queue {St} _.
Arguments visited {St} _.
Arguments processed {St} _.
Arguments store {St} _.

End Graph.

(* ------------------------------------------------------------------ *)
(** * src/utils/familyDetection.ts: what both revisions share *)

Module Families.
Import Graph.

(** Represents a family tree branch *)
Record Family := {
  id : string;
  name : string;
  color : string;
  rootMemberId : string;
  memberCount : nat
}.

Definition with_memberCount (f : Family) (n : nat) : Family :=
  {| id := id f; name := name f; color := color f;
     rootMemberId := rootMemberId f; memberCount := n |}.

(** Step 2: Create families from roots.  [forEach] hands the body the
    position of the root, also when an earlier root was skipped. *)
Definition createFamilies (data : FamilyData) (rootMemberIds : list string)
  : list Family * JsMap.t JsSet.t :=
  fold_left
    (fun '(families, familyMemberSets) '(index, rootId) =>
       match member data rootId with
       | None => (families, familyMemberSets)
       | Some rootMember =>
           let familyId := ("family_" ++ rootId)%string in
           (families ++
              [{| id := familyId;
                  name := getFamilyName rootMember;
                  color := ColorGenerator.generateFamilyColor index;
                  rootMemberId := rootId;
                  memberCount := 0 |}],
            JsMap.set familyId ([] : JsSet.t) familyMemberSets)
       end)
    (combine (seq 0 (List.length rootMemberIds)) rootMemberIds)
    ([], []).

(** [familyMemberSets.get(family.id)!]: using the result when the key is
    missing throws. *)
Definition getSet (familyMemberSets : JsMap.t JsSet.t) (familyId : string)
  : outcome JsSet.t :=
  match JsMap.get familyId familyMemberSets with
  | Some members => Returned members
  | None => Threw
  end.

(** Step 6: Create family colors map *)
Definition colorsOf (families : list Family) : JsMap.t string :=
  fold_left (fun m f => JsMap.set (id f) (color f) m) families [].

End Families.

(* ------------------------------------------------------------------ *)
(** * src/utils/familyDetection.ts, first revision (lines 1-286) *)

Module FamilyDetection.
Import Graph Families.

Record FamilyDetectionResult := {
  families : list Family;
  memberToFamilies : JsMap.t (list string);
  familyColors : JsMap.t string
}.

(** Assign all descendants of a root to a family *)
Definition assignDescendants (data : FamilyData) (rootMemberId : string)
  (familyMembers : JsSet.t) : outcome JsSet.t :=
  st <- traverse data JsSet.t
          (fun memberId members => JsSet.add memberId members)
          (fun _ _ => true)
          rootMemberId familyMembers ;;
  Returned (store st).

(** Assign spouses to their partner's families *)
Definition assignSpouses (data : FamilyData) (familyMembers : JsSet.t)
  : JsSet.t :=
  let originalMembers := familyMembers in
  fold_left
    (fun members memberId =>
       fold_left
         (fun members unionId =>
            fold_left
              (fun members partnerId =>
                 if String.eqb partnerId memberId || String.eqb partnerId "0"
                 then members
                 else if negb (Graph.has_member data partnerId)
                 then members
                 else JsSet.add partnerId members)
              (parseUnionId unionId) members)
         (getUnionsForMember data memberId) members)
    originalMembers familyMembers.

(** Step 5, for one family: the member count and the entries of
    [memberToFamilies]. *)
Definition indexFamily (family : Family) (members : JsSet.t)
  (memberToFamilies : JsMap.t (list string)) : JsMap.t (list string) :=
  fold_left
    (fun m memberId =>
       let m := if JsMap.has memberId m then m else JsMap.set memberId [] m in
       match JsMap.get memberId m with
       | Some l => JsMap.set memberId (l ++ [id family]) m
       | None => m
       end)
    members memberToFamilies.

Definition detectFamilies (data : FamilyData) : outcome FamilyDetectionResult :=
  let rootMemberIds := findRootNodes data in
  if (List.length rootMemberIds =? 0)%nat
  then Returned {| families := []; memberToFamilies := []; familyColors := [] |}
  else
    let '(families0, sets0) := createFamilies data rootMemberIds in
    sets1 <- forEachM
               (fun family sets =>
                  members <- getSet sets (id family) ;;
                  members' <- assignDescendants data (rootMemberId family) members ;;
                  Returned (JsMap.set (id family) members' sets))
               families0 sets0 ;;
    sets2 <- forEachM
               (fun family sets =>
                  members <- getSet sets (id family) ;;
                  Returned (JsMap.set (id family) (assignSpouses data members) sets))
               families0 sets1 ;;
    r <- forEachM
           (fun family '(done, memberToFamilies) =>
              members <- getSet sets2 (id family) ;;
              Returned (done ++ [with_memberCount family (JsSet.size members)],
                        indexFamily family members memberToFamilies))
           families0 ([], []) ;;
    let '(families1, memberToFamilies) := r in
    Returned {| families := families1;
                memberToFamilies := memberToFamilies;
                familyColors := colorsOf families1 |}.

(** Get the default active families based on current node *)
Definition getDefaultActiveFamilies (families : list Family)
  (memberToFamilies : JsMap.t (list string)) (currentNodeId : option string)
  : JsSet.t :=
  let all := JsSet.of_list (map id families) in
  match currentNodeId with
  | Some nodeId =>
      if truthy nodeId then
        match JsMap.get nodeId memberToFamilies with
        | Some nodeFamilies =>
            if (0 <? List.length nodeFamilies)%nat
            then JsSet.of_list nodeFamilies else all
        | None => all
        end
      else all
  | None => all
  end.

End FamilyDetection.

(* ------------------------------------------------------------------ *)
(** * src/utils/familyDetection.ts, patrilineal revision (lines 287-659) *)

Module Patrilineal.
Import Graph Families.

Record FamilyDetectionResult := {
  families : list Family;
  memberToFamilies : JsMap.t (list string);
  familyColors : JsMap.t string;
  memberBirthFamily : JsMap.t string
}.

Definition gender_is (m : Member) (g : string) : bool :=
  match gender m with Some v => String.eqb v g | None => false end.

(** Check if a person is the father in a union *)
Definition isPersonFatherInUnion (data : FamilyData) (personId : string)
  (partners : list string) : bool :=
  match member data personId with
  | None => false
  | Some person =>
      if gender_is person "E" then true
      else if gender_is person "K" then false
      else
        match find (fun p => negb (String.eqb p personId)) partners with
        | Some partnerId =>
            if truthy partnerId then
              match member data partnerId with
              | Some partner => if gender_is partner "K" then true else true
              | None => true
              end
            else true
        | None => true
        end
  end.

(** Assign all patrilineal descendants of a root to a family *)
Definition assignDescendantsPatrilineal (data : FamilyData)
  (rootMemberId familyId : string) (familyMembers : JsSet.t)
  (memberBirthFamily : JsMap.t string) : outcome (JsSet.t * JsMap.t string) :=
  st <- traverse data (JsSet.t * JsMap.t string)%type
          (fun memberId '(members, birth) =>
             (JsSet.add memberId members,
              if JsMap.has memberId birth then birth
              else JsMap.set memberId familyId birth))
          (fun memberId unionId =>
             isPersonFatherInUnion data memberId (parseUnionId unionId))
          rootMemberId (familyMembers, memberBirthFamily) ;;
  Returned (store st).

(** [Array.prototype.includes] on strings *)
Definition includes (x : string) (l : list string) : bool :=
  existsb (String.eqb x) l.

(** The body of [partners.forEach] in [assignSpousesToFamilies]. *)
Definition addSpouse (data : FamilyData) (familyId memberId partnerId : string)
  (st : JsSet.t * JsMap.t string * JsMap.t (list string))
  : JsSet.t * JsMap.t string * JsMap.t (list string) :=
  let '(members, birth, memberToFamilies) := st in
  if String.eqb partnerId memberId || String.eqb partnerId "0" then st
  else if negb (Graph.has_member data partnerId) then st
  else
    let members := JsSet.add partnerId members in
    let birth :=
      if JsMap.has partnerId birth then birth
      else JsMap.set partnerId familyId birth in
    let memberToFamilies :=
      if JsMap.has partnerId memberToFamilies then memberToFamilies
      else JsMap.set partnerId [] memberToFamilies in
    let spouseFamilies :=
      match JsMap.get partnerId memberToFamilies with
      | Some l => l
      | None => []
      end in
    let spouseFamilies :=
      match JsMap.get partnerId birth with
      | Some birthFamilyId =>
          if truthy birthFamilyId && negb (includes birthFamilyId spouseFamilies)
          then spouseFamilies ++ [birthFamilyId] else spouseFamilies
      | None => spouseFamilies
      end in
    let spouseFamilies :=
      if negb (includes familyId spouseFamilies)
      then spouseFamilies ++ [familyId] else spouseFamilies in
    (members, birth, JsMap.set partnerId spouseFamilies memberToFamilies).

(** Assign spouses to their partner's families *)
Definition assignSpousesToFamilies (data : FamilyData) (familyId : string)
  (familyMembers : JsSet.t) (memberBirthFamily : JsMap.t string)
  (memberToFamilies : JsMap.t (list string))
  : JsSet.t * JsMap.t string * JsMap.t (list string) :=
  let originalMembers := familyMembers in
  fold_left
    (fun st memberId =>
       fold_left
         (fun st unionId =>
            fold_left
              (fun st partnerId => addSpouse data familyId memberId partnerId st)
              (parseUnionId unionId) st)
         (getUnionsForMember data memberId) st)
    originalMembers (familyMembers, memberBirthFamily, memberToFamilies).

(** Step 5, for one family: members without an entry get their birth
    family. *)
Definition completeFamily (members : JsSet.t) (memberBirthFamily : JsMap.t string)
  (memberToFamilies : JsMap.t (list string)) : JsMap.t (list string) :=
  fold_left
    (fun m memberId =>
       if JsMap.has memberId m then m
       else
         match JsMap.get memberId memberBirthFamily with
         | Some birthFamilyId =>
             JsMap.set memberId
               (if truthy birthFamilyId then [birthFamilyId] else []) m
         | None => JsMap.set memberId [] m
         end)
    members memberToFamilies.

Definition detectFamilies (data : FamilyData) : outcome FamilyDetectionResult :=
  let rootMemberIds := findRootNodes data in
  if (List.length rootMemberIds =? 0)%nat
  then Returned {| families := []; memberToFamilies := [];
                   familyColors := []; memberBirthFamily := [] |}
  else
    let '(families0, sets0) := createFamilies data rootMemberIds in
    s1 <- forEachM
            (fun family '(sets, birth) =>
               members <- getSet sets (id family) ;;
               r <- assignDescendantsPatrilineal data (rootMemberId family)
                      (id family) members birth ;;
               let '(members', birth') := r in
               Returned (JsMap.set (id family) members' sets, birth'))
            families0 (sets0, []) ;;
    let '(sets1, birth1) := s1 in
    s2 <- forEachM
            (fun family '(sets, birth, memberToFamilies) =>
               members <- getSet sets (id family) ;;
               let '(members', birth', memberToFamilies') :=
                 assignSpousesToFamilies data (id family) members birth
                   memberToFamilies in
               Returned (JsMap.set (id family) members' sets, birth',
                         memberToFamilies'))
            families0 (sets1, birth1, []) ;;
    let '(sets2, birth2, memberToFamilies2) := s2 in
    r <- forEachM
           (fun family '(done, memberToFamilies) =>
              members <- getSet sets2 (id family) ;;
              Returned (done ++ [with_memberCount family (JsSet.size members)],
                        completeFamily members birth2 memberToFamilies))
           families0 ([], memberToFamilies2) ;;
    let '(families1, memberToFamilies) := r in
    Returned {| families := families1;
                memberToFamilies := memberToFamilies;
                familyColors := colorsOf families1;
                memberBirthFamily := birth2 |}.

(** Get the default active families based on current node *)
Definition getDefaultActiveFamilies (families : list Family)
  (memberBirthFamily : JsMap.t string) (currentNodeId : option string)
  : JsSet.t :=
  let fallback :=
    match families with
    | first :: _ => JsSet.of_list [id first]
    | [] => []
    end in
  match currentNodeId with
  | Some nodeId =>
      if truthy nodeId then
        match JsMap.get nodeId memberBirthFamily with
        | Some birthFamilyId =>
            if truthy birthFamilyId then JsSet.of_list [birthFamilyId]
            else fallback
        | None => fallback
        end
      else fallback
  | None => fallback
  end.

End Patrilineal.

(* ------------------------------------------------------------------ *)
(** * Inputs taken from tests/familyDetection.test.ts *)

Module Scenarios.
Import Graph.

Definition person (nm fn ln : string) (spouse : bool) (g : string) : Member :=
  {| name := Some nm; first_name := Some fn; last_name := Some ln;
     is_spouse := spouse; gender := Some g |}.

(** 'should handle families connected by marriage': root Y (mem_1) with
    child B (mem_2), root A (mem_3) with child C (mem_4), the union of B
    and C with child D (mem_5). *)
Definition intermarriage : FamilyData :=
  {| start := "mem_1";
     members :=
       [ ("mem_1", person "Family Y Root" "Yilmaz" "Y" false "E");
         ("mem_2", person "B" "B" "Y" false "E");
         ("mem_3", person "Family A Root" "Ahmet" "A" false "E");
         ("mem_4", person "C" "C" "A" false "K");
         ("mem_5", person "D" "D" "BC" false "E") ];
     links :=
       [ ("mem_1", "u_1_0"); ("u_1_0", "mem_2");
         ("mem_3", "u_3_0"); ("u_3_0", "mem_4");
         ("mem_2", "u_2_4"); ("mem_4", "u_2_4"); ("u_2_4", "mem_5") ] |}.

(** 'should handle circular prevention (visited set)': the union of A
    produces B and the union of B produces A. *)
Definition cycle : FamilyData :=
  {| start := "mem_1";
     members :=
       [ ("mem_1", person "Person A" "A" "Test" false "E");
         ("mem_2", person "Person B" "B" "Test" false "E") ];
     links :=
       [ ("mem_1", "u_1_0"); ("u_1_0", "mem_2");
         ("mem_2", "u_2_0"); ("u_2_0", "mem_1") ] |}.

(** The cycle graph with a start id that names nobody in the table (a
    stale entry point): every member is somebody's child. *)
Definition staleStart : FamilyData :=
  {| start := "mem_3"; members := members cycle; links := links cycle |}.

(** The cycle graph with a start id that the table has no entry for but
    every object inherits a property under. *)
Definition inheritedStart : FamilyData :=
  {| start := "toString"; members := members cycle; links := links cycle |}.

(** Two partners linked to a union whose id does not follow the
    [u_<a>_<b>] pattern. *)
Definition unnamedUnion : FamilyData :=
  {| start := "mem_1";
     members :=
       [ ("mem_1", person "Root" "Root" "Person" false "E");
         ("mem_2", person "Spouse" "Spouse" "Other" true "K") ];
     links := [ ("mem_1", "u_x"); ("mem_2", "u_x") ] |}.

(** The family list of the tests of [getDefaultActiveFamilies]. *)
Definition twoFamilies : list Families.Family :=
  [ {| Families.id := "family_mem_1"; Families.name := "Family A";
       Families.color := "#8B5CF6"; Families.rootMemberId := "mem_1";
       Families.memberCount := 5 |};
    {| Families.id := "family_mem_3"; Families.name := "Family B";
       Families.color := "#10B981"; Families.rootMemberId := "mem_3";
       Families.memberCount := 8 |} ].

Definition testMemberToFamilies : JsMap.t (list string) :=
  [ ("mem_1", ["family_mem_1"]);
    ("mem_2", ["family_mem_1"; "family_mem_3"]);
    ("mem_3", ["family_mem_3"]) ].

End Scenarios.

(* ------------------------------------------------------------------ *)
(** * The relaxation engine (class DagRelaxation)

    Coordinates are exact rationals: the engine as it computes when no
    operation rounds.  The engine on the numbers of the program follows
    in the next module. *)

Module DagRelaxation.
Local Open Scope Q_scope.

(** Modelled from the spec: the declaration of [D3Node]
    ([src/types/types.ts]) is not at hand.  The part of a node the engine
    touches, as [createMockNode(id, x, y)] of the test file builds it. *)
Record D3Node := {
  data : string;
  x : Q;
  y : Q
}.

Definition with_x (n : D3Node) (p : Q) : D3Node :=
  {| data := data n; x := p; y := y n |}.

(** The calls recorded in [describe('get_pressure')] of
    tests/dagRelaxation.test.ts: x of the first argument, x of the second
    argument, the distance, and the value the test expects. *)
Definition get_pressure_expectations : list (Q * Q * Q * Q) :=
  [ (200, 0, 100, 0);
    (50, 0, 100, -(50));
    (0, 50, 100, 50);
    (100, 0, 100, 0) ].

(** The calls recorded in [describe('get_gravity')]. *)
Definition get_gravity_expectations : list (Q * Q * Q) :=
  [ (100, 0, 100); (0, 100, -(100)); (50, 50, 0) ].

(** Modelled from the spec: the source of [DagRelaxation]
    (src/components/Tree/dagRelaxation.ts) is not at hand, only its test
    file is.  The magnitude is the one the spec gives, the overlap
    [minSpacing - gap] when the gap is smaller than [minSpacing] and 0
    otherwise; the orientation is the one the recorded calls show: the
    value has the sign of [neighbor.x - node.x]. *)
Definition get_pressure (node neighbor : D3Node) (min_distance : Q) : Q :=
  let difference := x neighbor - x node in
  let overlap := min_distance - Qabs difference in
  if Qle_bool overlap 0 then 0
  else
    match difference ?= 0 with
    | Gt => overlap
    | Lt => - overlap
    | Eq => 0
    end.

(** The pressure function as section 4.1 of the spec words it: negative
    when the neighbor is on the right and too close, positive when it is
    on the left and too close, 0 otherwise. *)
Definition pressure_as_specified (node neighbor : D3Node) (minSpacing : Q) : Q :=
  let gap := Qabs (x neighbor - x node) in
  if Qle_bool minSpacing gap then 0
  else
    match x neighbor ?= x node with
    | Gt => - (minSpacing - gap)
    | Lt => minSpacing - gap
    | Eq => 0
    end.

(** Modelled from the spec: the directional pull between two nodes, the
    difference of their coordinates, with the orientation of the recorded
    calls ([get_gravity(a, b)] is [a.x - b.x]). *)
Definition get_gravity (node neighbor : D3Node) : Q := x node - x neighbor.

(** ** Levels and the order within a level *)

(** Modelled from the spec: the ascending current-x order within a
    level, by stable insertion. *)
Fixpoint insert_by_x (n : D3Node) (l : list D3Node) : list D3Node :=
  match l with
  | [] => [n]
  | m :: r =>
      if Qle_bool (x n) (x m) then n :: m :: r else m :: insert_by_x n r
  end.

Fixpoint sort_by_x (l : list D3Node) : list D3Node :=
  match l with
  | [] => []
  | n :: r => insert_by_x n (sort_by_x r)
  end.

Definition same_level (a b : D3Node) : bool := Qeq_bool (y a) (y b).

(** Modelled from the spec: the nodes grouped by vertical coordinate,
    levels in the order of their first node, the nodes of a level in the
    order given. *)
Fixpoint add_to_level (n : D3Node) (levels : list (list D3Node))
  : list (list D3Node) :=
  match levels with
  | [] => [[n]]
  | l :: rest =>
      match l with
      | m :: _ =>
          if same_level m n then (l ++ [n]) :: rest
          else l :: add_to_level n rest
      | [] => l :: add_to_level n rest
      end
  end.

Definition group_levels (nodes : list D3Node) : list (list D3Node) :=
  fold_left (fun ls n => add_to_level n ls) nodes [].

Section Engine.

(** The horizontal extent of the node footprint. *)
Variable nodeSize : Q.

(** Modelled from the spec: the closing sweep over one level, in
    ascending x order; the first node stays, every later node is moved
    right to [previous.x + nodeSize] when it is closer than that. *)
Fixpoint sweep (position_x : Q) (l : list D3Node) : list D3Node :=
  match l with
  | [] => []
  | n :: r =>
      let p := Qmax (x n) (position_x + nodeSize) in
      with_x n p :: sweep p r
  end.

(** Modelled from the spec: the sweep applied to one level put in
    ascending x order. *)
Definition enforce_level (level : list D3Node) : list D3Node :=
  match sort_by_x level with
  | [] => []
  | first :: rest => first :: sweep (x first) rest
  end.

(** Modelled from the spec: [enforcePlacement] over the full node set,
    level by level.  The result lists the nodes by level and, within a
    level, from left to right. *)
Definition enforce_placement (nodes : list D3Node) : list D3Node :=
  List.concat (map enforce_level (group_levels nodes)).

(** ** The iterative phase *)

(** Number of passes per level and the damping applied to the combined
    force; the ids a node is structurally connected to, as the graph
    reports them. *)
Variable passes : nat.
Variable damping : Q.
Variable connected : string -> list string.

Definition find_node (all : list D3Node) (id : string) : option D3Node :=
  find (fun n => String.eqb (data n) id) all.

Definition Qsum (l : list Q) : Q := fold_right Qplus 0 l.

(** Modelled from the spec: the pull towards the average position of
    the connected nodes; an id naming no node contributes nothing. *)
Definition gravity_on (all : list D3Node) (n : D3Node) : Q :=
  let pulls :=
    flat_map
      (fun id =>
         match find_node all id with
         | Some c => [get_gravity c n]
         | None => []
         end)
      (connected (data n)) in
  match pulls with
  | [] => 0
  | _ => Qsum pulls / inject_Z (Z.of_nat (List.length pulls))
  end.

(** Modelled from the spec: one pass over a level in sorted order.  The
    first node of the level is its anchor and keeps its place (the
    end-to-end scenario of the spec: three nodes at 0, 10 and 20, and
    after [run] node 0 remains at x = 0).  Each other node is pushed by
    its left and right neighbour and pulled by its connections, all read
    at the start of the pass, and moves by the damped sum.  The new
    coordinate is kept in lowest terms. *)
Fixpoint relax_sorted (all : list D3Node) (left : option D3Node)
  (l : list D3Node) : list D3Node :=
  match l with
  | [] => []
  | n :: r =>
      let from_right :=
        match r with m :: _ => get_pressure m n nodeSize | [] => 0 end in
      match left with
      | None => n
      | Some m =>
          with_x n
            (Qred (x n + damping * (get_pressure m n nodeSize + from_right
                                    + gravity_on all n)))
      end
        :: relax_sorted all (Some n) r
  end.

(** Modelled from the spec: a pass on one level, the other levels as
    they currently are. *)
Definition relax_pass (before after : list (list D3Node))
  (level : list D3Node) : list D3Node :=
  relax_sorted (List.concat (before ++ level :: after)) None (sort_by_x level).

Fixpoint iterate {A} (n : nat) (f : A -> A) (a : A) : A :=
  match n with
  | O => a
  | S k => iterate k f (f a)
  end.

(** Modelled from the spec: level after level, [passes] passes each. *)
Fixpoint relax_levels (before todo : list (list D3Node))
  : list (list D3Node) :=
  match todo with
  | [] => before
  | level :: after =>
      relax_levels
        (before ++ [iterate passes (relax_pass before after) level]) after
  end.

(** Modelled from the spec: [run]: per level the fixed number of passes,
    then [enforcePlacement] once over the full node set. *)
Definition run (nodes : list D3Node) : list D3Node :=
  enforce_placement (List.concat (relax_levels [] (group_levels nodes))).

End Engine.

(** Adjacent nodes of a level listed left to right are at least
    [nodeSize] apart. *)
Fixpoint spaced_from (nodeSize prev : Q) (l : list D3Node) : Prop :=
  match l with
  | [] => True
  | n :: r => prev + nodeSize <= x n /\ spaced_from nodeSize (x n) r
  end.

Definition spaced (nodeSize : Q) (l : list D3Node) : Prop :=
  match l with
  | [] => True
  | n :: r => spaced_from nodeSize (x n) r
  end.

(** A list of levels: none empty, one vertical coordinate per level,
    different coordinates in different levels. *)
Fixpoint well_grouped (levels : list (list D3Node)) : Prop :=
  match levels with
  | [] => True
  | l :: rest =>
      l <> [] /\
      (forall a b, In a l -> In b l -> y a == y b) /\
      (forall a b, In a l -> In b (List.concat rest) -> ~ y a == y b) /\
      well_grouped rest
  end.

(** [n'] is [n] moved by [c]. *)
Definition shifted (c : Q) (n n' : D3Node) : Prop :=
  data n' = data n /\ y n' = y n /\ x n' == x n + c.

Definition translate (c : Q) (n : D3Node) : D3Node := with_x n (x n + c).

(** [n'] is [n], possibly moved to the right. *)
Definition moved_right (n n' : D3Node) : Prop :=
  data n' = data n /\ y n' = y n /\ x n <= x n'.

(** What the engine never changes of a node. *)
Definition node_key (n : D3Node) : string * Q := (data n, y n).

(** The nodes of the tests of [enforce_placement] and [run]. *)
Definition wellSpacedNodes : list D3Node :=
  [ {| data := "mem_0"; x := 0; y := 0 |};
    {| data := "mem_1"; x := 150; y := 0 |};
    {| data := "mem_2"; x := 300; y := 0 |} ].

Definition crowdedNodes : list D3Node :=
  [ {| data := "mem_0"; x := 0; y := 0 |};
    {| data := "mem_1"; x := 10; y := 0 |};
    {| data := "mem_2"; x := 20; y := 0 |} ].

Definition createMockNode (id : string) (px py : Q) : D3Node :=
  {| data := id; x := px; y := py |}.

End DagRelaxation.

(* ------------------------------------------------------------------ *)
(** * The relaxation engine on JavaScript numbers

    The engine of the module above with every coordinate a binary64
    number and every operation the rounded one, as the program runs it.
    The module above is what these computations amount to when no
    operation rounds. *)

Module DagRelaxation64.
Import JsNumber.
Local Open Scope float_scope.

(** Modelled from the spec: a node as [createMockNode(id, x, y)] of the
    test file builds it, the coordinates being numbers. *)
Record D3Node := {
  data : string;
  x : number;
  y : number
}.

Definition with_x (n : D3Node) (p : number) : D3Node :=
  {| data := data n; x := p; y := y n |}.

(** Modelled from the spec: the overlap [minSpacing - gap] when the gap
    is smaller than [minSpacing] and 0 otherwise, with the sign of
    [neighbor.x - node.x] as the recorded calls show it. *)
Definition get_pressure (node neighbor : D3Node) (min_distance : number)
  : number :=
  let difference := x neighbor - x node in
  let overlap := min_distance - abs difference in
  if overlap <=? 0 then 0
  else
    match difference ?= 0 with
    | FGt => overlap
    | FLt => - overlap
    | _ => 0
    end.

(** Modelled from the spec: [get_gravity(a, b)] is [a.x - b.x]. *)
Definition get_gravity (node neighbor : D3Node) : number :=
  x node - x neighbor.

(** Modelled from the spec: the ascending current-x order within a
    level, by stable insertion. *)
Fixpoint insert_by_x (n : D3Node) (l : list D3Node) : list D3Node :=
  match l with
  | [] => [n]
  | m :: r => if x n <=? x m then n :: m :: r else m :: insert_by_x n r
  end.

Fixpoint sort_by_x (l : list D3Node) : list D3Node :=
  match l with
  | [] => []
  | n :: r => insert_by_x n (sort_by_x r)
  end.

(** Modelled from the spec: two nodes are of one level when their
    vertical coordinates are equal numbers. *)
Definition same_level (a b : D3Node) : bool := y a =? y b.

(** Modelled from the spec: the nodes grouped by vertical coordinate,
    levels in the order of their first node, the nodes of a level in the
    order given. *)
Fixpoint add_to_level (n : D3Node) (levels : list (list D3Node))
  : list (list D3Node) :=
  match levels with
  | [] => [[n]]
  | l :: rest =>
      match l with
      | m :: _ =>
          if same_level m n then (l ++ [n]) :: rest
          else l :: add_to_level n rest
      | [] => l :: add_to_level n rest
      end
  end.

Definition group_levels (nodes : list D3Node) : list (list D3Node) :=
  fold_left (fun ls n => add_to_level n ls) nodes [].

Section Engine.

Variable nodeSize : number.

(** Modelled from the spec: the closing sweep over one level, in
    ascending x order; a node closer to its predecessor than [nodeSize]
    is moved right to [previous.x + nodeSize]. *)
Fixpoint sweep (position_x : number) (l : list D3Node) : list D3Node :=
  match l with
  | [] => []
  | n :: r =>
      let least := position_x + nodeSize in
      let p := if x n <? least then least else x n in
      with_x n p :: sweep p r
  end.

(** Modelled from the spec: the sweep applied to one level put in
    ascending x order; the first node stays. *)
Definition enforce_level (level : list D3Node) : list D3Node :=
  match sort_by_x level with
  | [] => []
  | first :: rest => first :: sweep (x first) rest
  end.

(** Modelled from the spec: [enforcePlacement] over the full node set,
    level by level.  The result lists the nodes by level and, within a
    level, from left to right. *)
Definition enforce_placement (nodes : list D3Node) : list D3Node :=
  List.concat (map enforce_level (group_levels nodes)).

Variable passes : nat.
Variable damping : number.
Variable connected : string -> list string.

Definition find_node (all : list D3Node) (id : string) : option D3Node :=
  find (fun n => String.eqb (data n) id) all.

Definition sum (l : list number) : number := fold_left add l 0.

(** Modelled from the spec: the pull towards the average position of
    the connected nodes; an id naming no node contributes nothing. *)
Definition gravity_on (all : list D3Node) (n : D3Node) : number :=
  let pulls :=
    flat_map
      (fun id =>
         match find_node all id with
         | Some c => [get_gravity c n]
         | None => []
         end)
      (connected (data n)) in
  match pulls with
  | [] => 0
  | _ => sum pulls / of_nat (List.length pulls)
  end.

(** Modelled from the spec: one pass over a level in sorted order; the
    first node is the anchor and keeps its place, each other node moves
    by the damped sum of the pressure of its two neighbours and the pull
    of its connections, all read at the start of the pass. *)
Fixpoint relax_sorted (all : list D3Node) (left : option D3Node)
  (l : list D3Node) : list D3Node :=
  match l with
  | [] => []
  | n :: r =>
      let from_right :=
        match r with m :: _ => get_pressure m n nodeSize | [] => 0 end in
      match left with
      | None => n
      | Some m =>
          with_x n
            (x n + damping * (get_pressure m n nodeSize + from_right
                              + gravity_on all n))
      end
        :: relax_sorted all (Some n) r
  end.

(** Modelled from the spec: a pass on one level, the other levels as
    they currently are. *)
Definition relax_pass (before after : list (list D3Node))
  (level : list D3Node) : list D3Node :=
  relax_sorted (List.concat (before ++ level :: after)) None (sort_by_x level).

(** Modelled from the spec: level after level, [passes] passes each. *)
Fixpoint relax_levels (before todo : list (list D3Node))
  : list (list D3Node) :=
  match todo with
  | [] => before
  | level :: after =>
      relax_levels
        (before
         ++ [DagRelaxation.iterate passes (relax_pass before after) level])
        after
  end.

(** Modelled from the spec: [run]: per level the fixed number of passes,
    then [enforcePlacement] once over the full node set. *)
Definition run (nodes : list D3Node) : list D3Node :=
  enforce_placement (List.concat (relax_levels [] (group_levels nodes))).

End Engine.

(** From one node of a level listed left to right to the next, the
    rounded sum [x + nodeSize] is at most the x of the next. *)
Fixpoint spaced_from (nodeSize prev : number) (l : list D3Node) : Prop :=
  match l with
  | [] => True
  | n :: r =>
      (prev + nodeSize <=? x n) = true /\ spaced_from nodeSize (x n) r
  end.

Definition spaced (nodeSize : number) (l : list D3Node) : Prop :=
  match l with
  | [] => True
  | n :: r => spaced_from nodeSize (x n) r
  end.

(** What the engine never changes of a node. *)
Definition node_key (n : D3Node) : string * number := (data n, y n).

(** Adding [nodeSize] to the x of the node gives a number that is not
    smaller.  The test fails when the x or [nodeSize] is a NaN. *)
Definition steady (nodeSize : number) (n : D3Node) : bool :=
  x n <=? x n + nodeSize.

(** The levels of a node set: none empty; a level of two or more nodes
    has one vertical coordinate; nodes of different levels have
    different ones. *)
Fixpoint well_grouped (levels : list (list D3Node)) : Prop :=
  match levels with
  | [] => True
  | l :: rest =>
      l <> [] /\
      ((exists n, l = [n]) \/
       (forall a b, In a l -> In b l -> same_level a b = true)) /\
      (forall a b, In a l -> In b (List.concat rest) ->
         same_level a b = false) /\
      well_grouped rest
  end.

Definition translate (c : number) (n : D3Node) : D3Node :=
  with_x n (x n + c).

(** ** The exact value of the numbers of a run *)


(** The value of a finite number; 0 for the others. *)
Definition value (v : number) : Q :=
  match to_dyadic v with
  | Some (m, e) => Qred (inject_Z m * Qpower 2 e)
  | None => 0%Q
  end.

(** The node with the values of its coordinates. *)
Definition exact (n : D3Node) : DagRelaxation.D3Node :=
  {| DagRelaxation.data := data n;
     DagRelaxation.x := value (x n);
     DagRelaxation.y := value (y n) |}.





(** [n'] has the id and the level of [n] and its x moved by [c]. *)
Definition shifted (c : number) (n n' : D3Node) : Prop :=
  data n' = data n /\ (value (y n') == value (y n))%Q /\
  (value (x n') == value (x n) + value c)%Q.

(** The three crowded nodes of the tests of [run]. *)
Definition crowdedNodes : list D3Node :=
  [ {| data := "mem_0"; x := 0; y := 0 |};
    {| data := "mem_1"; x := 10; y := 0 |};
    {| data := "mem_2"; x := 20; y := 0 |} ].

(** Two nodes of one level, 400 apart, the second connected to the
    first. *)
Definition pulledNodes : list D3Node :=
  [ {| data := "mem_0"; x := 0; y := 0 |};
    {| data := "mem_1"; x := 400; y := 0 |} ].

Definition pulledLinks (id : string) : list string :=
  if String.eqb id "mem_1" then ["mem_0"] else [].

(** Two nodes of one level at 2^60, where the numbers are 256 apart. *)
Definition farNodes : list D3Node :=
  [ {| data := "mem_0"; x := 0x1p60; y := 0 |};
    {| data := "mem_1"; x := 0x1p60; y := 0 |} ].


End DagRelaxation64.

(* ------------------------------------------------------------------ *)
(** * src/services/state/store.ts: the family filtering actions

    The actions below read and write the four family fields of the
    application state; the other fields are not touched by them.  Every
    action ends with [notify()], which calls the listeners and schedules
    the write to localStorage; neither changes the state. *)

Module Store.
Import Families.

Record AppState := {
  families : list Family;
  memberToFamilies : JsMap.t (list string);
  familyColors : JsMap.t string;
  activeFamilyIds : JsSet.t
}.

Definition setFamilies (st : AppState) (families : list Family)
  (memberToFamilies : JsMap.t (list string)) (familyColors : JsMap.t string)
  : AppState :=
  let active :=
    if (0 <? JsSet.size (activeFamilyIds st))%nat then
      let validFamilyIds := JsSet.of_list (map id families) in
      let filteredActive :=
        JsSet.of_list
          (filter (fun i => JsSet.has i validFamilyIds) (activeFamilyIds st)) in
      if (JsSet.size filteredActive =? 0)%nat then validFamilyIds
      else filteredActive
    else JsSet.of_list (map id families) in
  {| families := families;
     memberToFamilies := memberToFamilies;
     familyColors := familyColors;
     activeFamilyIds := active |}.

Definition setActiveFamilies (st : AppState) (familyIds : JsSet.t) : AppState :=
  {| families := families st;
     memberToFamilies := memberToFamilies st;
     familyColors := familyColors st;
     activeFamilyIds := familyIds |}.

Definition toggleFamily (st : AppState) (familyId : string) : AppState :=
  let newActive := JsSet.of_list (activeFamilyIds st) in
  let newActive :=
    if JsSet.has familyId newActive then JsSet.delete familyId newActive
    else JsSet.add familyId newActive in
  setActiveFamilies st newActive.

Definition activateAllFamilies (st : AppState) : AppState :=
  let allFamilyIds := JsSet.of_list (map id (families st)) in
  setActiveFamilies st allFamilyIds.

Definition deactivateAllFamilies (st : AppState) : AppState :=
  setActiveFamilies st [].

Definition isFamilyActive (st : AppState) (familyId : string) : bool :=
  JsSet.has familyId (activeFamilyIds st).

Definition isNodeInActiveFamily (st : AppState) (nodeId : string) : bool :=
  match JsMap.get nodeId (memberToFamilies st) with
  | None => true
  | Some nodeFamilies =>
      if (List.length nodeFamilies =? 0)%nat then true
      else existsb (fun familyId => JsSet.has familyId (activeFamilyIds st))
             nodeFamilies
  end.

End Store.

(* ------------------------------------------------------------------ *)
(** * src/components/Tree/NodeHelpers.ts: the family filtering functions *)

Module NodeHelpers.
Import JsNumber.

(** The part of a node these functions read: its id. *)
Definition node_id (n : DagRelaxation.D3Node) : string := DagRelaxation.data n.

Definition DEFAULT_NODE_COLOR : string := "#9CA3AF".

(** One gradient stop: the offset in percent and the stop colour. *)
Definition stop := (number * string)%type.

(** The gradients under the [defs] element, by id, in document order. *)
Definition defs := list (string * list stop).

Definition is_alnum (c : ascii) : bool :=
  let n := nat_of_ascii c in
  ((48 <=? n) && (n <=? 57) || (65 <=? n) && (n <=? 90)
   || (97 <=? n) && (n <=? 122))%nat.

(** The UTF-16 code units that start at a byte of the UTF-8 form of a
    string: a byte below 128 is a code unit of its own; a sequence of
    two or three bytes (first byte 192 to 239) is one code unit and a
    sequence of four bytes (first byte from 240) is two, a surrogate
    pair; the further bytes of a sequence (128 to 191) start none. *)
Definition units_at (c : ascii) : nat :=
  let n := nat_of_ascii c in
  if (n <? 128)%nat then 1%nat
  else if (n <? 192)%nat then 0%nat
  else if (n <? 240)%nat then 1%nat
  else 2%nat.

(** [s.length] *)
Fixpoint code_units (s : string) : nat :=
  match s with
  | EmptyString => 0%nat
  | String c r => (units_at c + code_units r)%nat
  end.

Fixpoint underscores (n : nat) : string :=
  match n with
  | O => EmptyString
  | S k => String "_"%char (underscores k)
  end.

(** [s.replace(/[^a-zA-Z0-9]/g, '_')]: every code unit that is no letter
    and no digit becomes an underscore. *)
Fixpoint sanitize (s : string) : string :=
  match s with
  | EmptyString => EmptyString
  | String c r =>
      if is_alnum c then String c (sanitize r)
      else (underscores (units_at c) ++ sanitize r)%string
  end.

(** [defs.select('#id').remove()]: the first element with that id goes. *)
Fixpoint remove_gradient (id : string) (d : defs) : defs :=
  match d with
  | [] => []
  | (k, g) :: r => if String.eqb k id then r else (k, g) :: remove_gradient id r
  end.

(** Create or update a linear gradient in SVG defs *)
Definition createLinearGradient (d : defs) (id : string) (colors : list string)
  : defs :=
  let d := remove_gradient id d in
  let stops :=
    map
      (fun '(i, color) =>
         (PrimFloat.mul
            (PrimFloat.div (of_nat i)
               (of_nat (Nat.max 1 (List.length colors - 1))))
            100%float,
          color))
      (combine (seq 0 (List.length colors)) colors) in
  d ++ [(id, stops)].

Section WithGraph.

(** [is_member] belongs to dagWithFamilyData.ts, which is not among the
    sources at hand. *)
Variable is_member : DagRelaxation.D3Node -> bool.

(** Get fill color/gradient for a node based on family membership: the
    fill and the [defs] as the call leaves them. *)
Definition getNodeFill (node : DagRelaxation.D3Node)
  (memberToFamilies : JsMap.t (list string)) (familyColors : JsMap.t string)
  (svgDefs : defs) : string * defs :=
  if negb (is_member node) then (DEFAULT_NODE_COLOR, svgDefs)
  else
    let nodeFamilies :=
      match JsMap.get (node_id node) memberToFamilies with
      | Some l => l
      | None => []
      end in
    match nodeFamilies with
    | [] => (DEFAULT_NODE_COLOR, svgDefs)
    | [f] =>
        (match JsMap.get f familyColors with
         | Some c => if Graph.truthy c then c else DEFAULT_NODE_COLOR
         | None => DEFAULT_NODE_COLOR
         end, svgDefs)
    | _ =>
        let gradientId := ("gradient-" ++ sanitize (node_id node))%string in
        let colors :=
          flat_map
            (fun f =>
               match JsMap.get f familyColors with
               | Some c => [c]
               | None => []
               end)
            nodeFamilies in
        if (List.length colors =? 0)%nat then (DEFAULT_NODE_COLOR, svgDefs)
        else
          (("url(#" ++ gradientId ++ ")")%string,
           createLinearGradient svgDefs gradientId colors)
    end.

(** Get opacity for a node based on family filtering *)
Definition getNodeOpacity (node : DagRelaxation.D3Node)
  (memberToFamilies : JsMap.t (list string)) (activeFamilyIds : JsSet.t)
  : number :=
  if negb (is_member node) then 1%float
  else
    let nodeFamilies :=
      match JsMap.get (node_id node) memberToFamilies with
      | Some l => l
      | None => []
      end in
    if (List.length nodeFamilies =? 0)%nat then 1%float
    else
      let hasActiveFamily :=
        existsb (fun f => JsSet.has f activeFamilyIds) nodeFamilies in
      if hasActiveFamily then 1%float else 0.25%float.

End WithGraph.

End NodeHelpers.

(* ------------------------------------------------------------------ *)
(** * js/sheet_loader.js: the ids of the unions

    [processSheetData] makes one union per pair of parent ids; the helper
    [getUnionId] names it.  Of the helper this is what it returns, that
    is what [unions[key]] holds at the end: the id ["u_" + key], which
    the helper stores the first time the key comes up, unless the key is
    a property name that the object [unions] inherits, for which
    [unions[key]] is never false and holds a function or the prototype.
    The links the helper pushes are not part of it.  A parent id is a
    non-empty string or [null]. *)

Module SheetLoader.

(** [x || d] *)
Definition or_else (x : option string) (d : string) : string :=
  match x with
  | Some s => if Graph.truthy s then s else d
  | None => d
  end.

(** What [getUnionId] returns: an id, or what the object inherits under
    the key. *)
Inductive union_ref : Type :=
| UnionId (id : string)
| Inherited (key : string).

Definition getUnionId (fatherId motherId : option string) : union_ref :=
  let f := or_else fatherId "unknown_f" in
  let m := or_else motherId "unknown_m" in
  let key := (f ++ "_" ++ m)%string in
  if JsObject.inherits key then Inherited key
  else UnionId ("u_" ++ key)%string.

End SheetLoader.

(* ------------------------------------------------------------------ *)
(** * scripts/migrate: the partners a union id names

    [extractUnions] and [extractRelationships] read the partners of a
    union off its id with [id.match(/u_(\w+)_(\w+)/)] and put [mem_] in
    front of both groups.  The groups lie in one run of word characters
    after [u_]; the first is greedy, so it ends at the last underscore of
    the run that still leaves a character for the second, which takes the
    rest of the run.  The search takes the leftmost position where the
    pattern matches. *)

Module Migration.
Import Graph.

(** [\w] *)
Definition is_word (c : ascii) : bool :=
  NodeHelpers.is_alnum c || Ascii.eqb c "_"%char.

Fixpoint word_prefix (s : string) : string :=
  match s with
  | EmptyString => EmptyString
  | String c r => if is_word c then String c (word_prefix r) else EmptyString
  end.

(** [(\w+)_(\w+)] anchored at the start of [s]. *)
Definition word_groups (s : string) : option (string * string) :=
  match word_prefix s with
  | EmptyString => None
  | String c r =>
      match split_last_underscore r with
      | Some (a, b) => Some (String c a, b)
      | None => None
      end
  end.

Definition words_here (s : string) : option (string * string) :=
  match s with
  | String "u" (String "_" r) => word_groups r
  | _ => None
  end.

Fixpoint match_words (s : string) : option (string * string) :=
  match words_here s with
  | Some g => Some g
  | None =>
      match s with
      | EmptyString => None
      | String _ r => match_words r
      end
  end.

(** [partner1Id] and [partner2Id], when the id matches. *)
Definition partnerIds (unionId : string) : option (string * string) :=
  match match_words unionId with
  | None => None
  | Some (g1, g2) => Some (("mem_" ++ g1)%string, ("mem_" ++ g2)%string)
  end.

End Migration.

(* ------------------------------------------------------------------ *)
(** * Descent and membership, as relations on the edge list *)

Module Descent.
Import Graph.

(** [x] descends from [root] through unions that [follows] lets pass:
    person -> union -> child, any number of times. *)
Inductive reachable (data : FamilyData) (follows : string -> string -> bool)
  (root : string) : string -> Prop :=
| reach_root : reachable data follows root root
| reach_child (m u c : string) :
    reachable data follows root m ->
    In (m, u) (links data) -> JsString.startsWith "u_" u = true ->
    follows m u = true ->
    In (u, c) (links data) -> JsString.startsWith "u_" c = false ->
    reachable data follows root c.

(** Every union is followed (first revision). *)
Definition any_union (_ _ : string) : bool := true.

(** The unions in which the member counts as the father (patrilineal
    revision). *)
Definition as_father (data : FamilyData) (memberId unionId : string) : bool :=
  Patrilineal.isPersonFatherInUnion data memberId (parseUnionId unionId).

(** [p] is named as a partner by the id of a union of [d]. *)
Definition partner_of (data : FamilyData) (d p : string) : Prop :=
  exists u,
    In (d, u) (links data) /\ JsString.startsWith "u_" u = true /\
    In p (parseUnionId u) /\
    p <> d /\ has_member data p = true.

(** The members of the family of [root] in the first revision: the
    descendants and the partners their unions name. *)
Definition in_family (data : FamilyData) (root x : string) : Prop :=
  reachable data any_union root x \/
  exists d, reachable data any_union root d /\ partner_of data d x.

(** [familyId] is in the list that [memberToFamilies] has for [m]. *)
Definition listed (memberToFamilies : JsMap.t (list string))
  (m familyId : string) : Prop :=
  exists l, JsMap.get m memberToFamilies = Some l /\ In familyId l.

(** What spouse assignment of the patrilineal revision works on: the
    member set of the family, the birth families, the lists. *)
Definition spouse_state : Type :=
  (JsSet.t * JsMap.t string * JsMap.t (list string))%type.

(** From [a] to [b] no birth family changed, every list was at most
    extended at its end, and lists without duplicates stayed so. *)
Definition extends (a b : spouse_state) : Prop :=
  (forall k v, JsMap.get k (snd (fst a)) = Some v ->
     JsMap.get k (snd (fst b)) = Some v) /\
  (forall k l, JsMap.get k (snd a) = Some l ->
     exists e, JsMap.get k (snd b) = Some (l ++ e)) /\
  ((forall k l, JsMap.get k (snd a) = Some l -> NoDup l) ->
   forall k l, JsMap.get k (snd b) = Some l -> NoDup l).

(** [p] has the family in its list, and a birth family that is in its
    list too (when the id is not the empty string). *)
Definition settled (familyId p : string) (st : spouse_state) : Prop :=
  listed (snd st) p familyId /\
  exists b,
    JsMap.get p (snd (fst st)) = Some b /\
    (truthy b = true -> listed (snd st) p b).

(** [x] descends from [root] through fathers. *)
Definition descends (data : FamilyData) (root x : string) : Prop :=
  reachable data (as_father data) root x.

(** [x] is named as a partner by a union of somebody who descends from
    [root] through fathers. *)
Definition married_into (data : FamilyData) (root x : string) : Prop :=
  exists d, descends data root d /\ partner_of data d x.

(** [a] is the first element of [l] with [P]. *)
Definition first_with {A} (P : A -> Prop) (l : list A) (a : A) : Prop :=
  exists l1 l2, l = l1 ++ a :: l2 /\ P a /\ forall g, In g l1 -> ~ P g.

(** The pairs of a member and a partner id that spouse assignment goes
    through, in order. *)
Definition spouse_pairs (data : FamilyData) (fm : JsSet.t)
  : list (string * string) :=
  flat_map
    (fun m =>
       flat_map (fun u => map (pair m) (parseUnionId u))
         (getUnionsForMember data m))
    fm.

(** The pair passes the tests of spouse assignment and names [x]. *)
Definition weds (data : FamilyData) (p : string * string) (x : string)
  : Prop :=
  snd p = x /\ x <> fst p /\ x <> "0"%string /\
  has_member data x = true.

(** Birth families and lists as the patrilineal revision keeps them:
    no birth family is the empty string, every list starts with the
    birth family of its person and has no duplicates. *)
Definition well_kept (b : JsMap.t string) (t : JsMap.t (list string))
  : Prop :=
  (forall x v, JsMap.get x b = Some v -> truthy v = true) /\
  (forall x l, JsMap.get x t = Some l ->
     NoDup l /\ exists v, JsMap.get x b = Some v /\ hd_error l = Some v).

(** The characters that the id of a gradient is made of after
    [gradient-]. *)
Definition id_char (c : ascii) : bool :=
  NodeHelpers.is_alnum c || Ascii.eqb c "_"%char.

(** The last character of [s] is an underscore. *)
Fixpoint ends_with_underscore (s : string) : bool :=
  match s with
  | EmptyString => false
  | String c EmptyString => Ascii.eqb c "_"%char
  | String _ r => ends_with_underscore r
  end.

(** All characters of [s] pass [p]. *)
Fixpoint all_chars (p : ascii -> bool) (s : string) : bool :=
  match s with
  | EmptyString => true
  | String c r => p c && all_chars p r
  end.

Definition not_underscore (c : ascii) : bool := negb (Ascii.eqb c "_"%char).

(** No line terminator starts anywhere in [s]. *)
Fixpoint on_one_line (s : string) : bool :=
  match s with
  | EmptyString => true
  | String _ r => negb (line_terminator_at s) && on_one_line r
  end.

(** [mem_] put in front of an id that lacks it. *)
Definition with_mem (id : string) : string :=
  if JsString.startsWith "mem_" id then id else ("mem_" ++ id)%string.

(** The family record that step 2 makes of a root at a position. *)
Definition seedFamily (data : FamilyData) (index : nat) (rootId : string)
  : Families.Family :=
  {| Families.id := ("family_" ++ rootId)%string;
     Families.name :=
       match member data rootId with
       | Some m => getFamilyName m
       | None => ""%string
       end;
     Families.color := ColorGenerator.generateFamilyColor index;
     Families.rootMemberId := rootId;
     Families.memberCount := 0 |}.

(** Two family records that differ in the member count at most. *)
Definition same_family (f g : Families.Family) : Prop :=
  Families.id f = Families.id g /\ Families.name f = Families.name g /\
  Families.color f = Families.color g /\
  Families.rootMemberId f = Families.rootMemberId g.

(** A colour string of the form [#RRGGBB] in upper-case hex digits. *)
Definition is_hex_digit (c : ascii) : bool :=
  let n := nat_of_ascii c in
  ((48 <=? n) && (n <=? 57) || (65 <=? n) && (n <=? 70))%nat.

Definition is_hex_color (s : string) : bool :=
  match s with
  | String "#" r => (String.length r =? 6)%nat && all_chars is_hex_digit r
  | _ => false
  end.

End Descent.

(* ------------------------------------------------------------------ *)
(** * Notions used to state and prove the properties *)

Module Notions.
Import Graph Families.

(** Boolean duplicate check on lists of strings. *)
Fixpoint distinctb (l : list string) : bool :=
  match l with
  | [] => true
  | a :: r => negb (existsb (String.eqb a) r) && distinctb r
  end.

(** Links whose source has not been visited yet. *)
Definition unvisited_links (data : FamilyData) (v : JsSet.t) : nat :=
  List.length
    (filter (fun l : string * string => negb (JsSet.has (fst l) v)) (links data)).

(** What a traversal still has to do at most: the queued ids, plus, for
    every link out of an unvisited id, the children one union can give. *)
Definition potential (data : FamilyData) {St} (st : loop_state St) : nat :=
  List.length (queue st)
  + List.length (links data) * unvisited_links data (visited st).

(** [id] is the target of a union->person edge. *)
Definition is_child (data : FamilyData) (id : string) : Prop :=
  exists from,
    In (from, id) (links data) /\
    JsString.startsWith "u_" from = true /\
    JsString.startsWith "u_" id = false.

(** [p] is named as a partner by the id of a union that a member of
    [familyMembers] has a person->union edge to. *)
Definition named_partner (data : FamilyData) (familyMembers : JsSet.t)
  (p : string) : Prop :=
  exists m u,
    In m familyMembers /\
    In (m, u) (links data) /\ JsString.startsWith "u_" u = true /\
    In p (parseUnionId u) /\
    p <> m /\ p <> "0" /\ has_member data p = true.

(** Every family has its member set. *)
Definition covers (families : list Family) (sets : JsMap.t JsSet.t) : Prop :=
  forall f, In f families -> JsMap.has (id f) sets = true.

End Notions.

(* ------------------------------------------------------------------ *)
(** * Colour assignment: palette, procedural hues, distinctness *)

Module ColorFacts.
Import JsNumber JsString ColorGenerator Notions.

Lemma distinctb_NoDup (l : list string) : distinctb l = true -> NoDup l.
Proof.
  induction l as [|a r IH]; simpl; intros H.
  - constructor.
  - apply andb_true_iff in H as [Ha Hr].
    constructor; [| now apply IH].
    intros Hin. apply negb_true_iff in Ha.
    assert (existsb (String.eqb a) r = true) as E.
    { apply existsb_exists. exists a. split; [exact Hin | apply String.eqb_refl]. }
    congruence.
Qed.

Lemma generateFamilyColors_nth (n i : nat) :
  (i < n)%nat ->
  nth i (generateFamilyColors n) ""%string = generateFamilyColor i.
Proof.
  intros Hi. unfold generateFamilyColors.
  rewrite (nth_indep _ ""%string (generateFamilyColor 0)).
  - rewrite map_nth, seq_nth by exact Hi. reflexivity.
  - now rewrite length_map, length_seq.
Qed.

Lemma first_hundred_distinct : NoDup (generateFamilyColors 100).
Proof. apply distinctb_NoDup. vm_compute. reflexivity. Qed.

(** C9 - the colour of a family is a function of its index alone:
    indices 0..9 read the ten-entry curated palette by position,
    indices from 10 on convert the hue [(index * 137.5) % 360] at
    saturation 70 and lightness 55 to a hex string, equal indices give
    equal strings, and the colours of any two different indices below
    100 differ. *)
Theorem generateFamilyColor_spec :
  List.length FAMILY_COLOR_PALETTE = 10%nat /\
  (forall i, (i < 10)%nat ->
     generateFamilyColor i = nth i FAMILY_COLOR_PALETTE ""%string) /\
  (forall i, (10 <= i)%nat ->
     generateFamilyColor i =
     hslToHex (rem (PrimFloat.mul (of_nat i) 137.5%float) 360%float)
              70%float 55%float) /\
  (forall i j, i = j -> generateFamilyColor i = generateFamilyColor j) /\
  (forall i j, (i < 100)%nat -> (j < 100)%nat -> i <> j ->
     generateFamilyColor i <> generateFamilyColor j).
Proof.
  split; [reflexivity |].
  split.
  { intros i Hi. unfold generateFamilyColor.
    destruct (Nat.ltb_spec i (List.length FAMILY_COLOR_PALETTE)) as [_|H];
      [reflexivity | simpl in H; lia]. }
  split.
  { intros i Hi. unfold generateFamilyColor, hue.
    destruct (Nat.ltb_spec i (List.length FAMILY_COLOR_PALETTE)) as [H|_];
      [simpl in H; lia | reflexivity]. }
  split.
  { intros i j ->. reflexivity. }
  intros i j Hi Hj Hne Heq.
  apply Hne.
  apply (proj1 (NoDup_nth (generateFamilyColors 100) ""%string)
           first_hundred_distinct i j).
  - unfold generateFamilyColors. now rewrite length_map, length_seq.
  - unfold generateFamilyColors. now rewrite length_map, length_seq.
  - now rewrite !generateFamilyColors_nth.
Qed.

(** The statement at the palette/procedural border: index 9 is the last
    curated colour, index 10 the first generated one. *)
Lemma generateFamilyColor_spec_witness :
  generateFamilyColor 9 = "#84CC16"%string /\
  generateFamilyColor 10 = "#CF3CDD"%string /\
  generateFamilyColor 9 <> generateFamilyColor 10.
Proof.
  destruct generateFamilyColor_spec as (_ & Hpal & Hgen & _ & Hdiff).
  split; [| split].
  - rewrite (Hpal 9%nat); [reflexivity | lia].
  - rewrite (Hgen 10%nat); [vm_compute; reflexivity | lia].
  - apply Hdiff; lia.
Defined.

End ColorFacts.


(* ------------------------------------------------------------------ *)
(** * Facts about sets and maps *)

Module CollectionFacts.

Lemma has_In (x : string) (s : JsSet.t) : JsSet.has x s = true <-> In x s.
Proof.
  unfold JsSet.has. rewrite existsb_exists. split.
  - intros (z & Hin & Heq). apply String.eqb_eq in Heq. now subst.
  - intros Hin. exists x. split; [exact Hin | apply String.eqb_refl].
Qed.

Lemma has_not_In (x : string) (s : JsSet.t) : JsSet.has x s = false <-> ~ In x s.
Proof.
  rewrite <- has_In. destruct (JsSet.has x s); split; congruence.
Qed.

Lemma add_In (x z : string) (s : JsSet.t) :
  In x (JsSet.add z s) <-> In x s \/ x = z.
Proof.
  unfold JsSet.add. destruct (JsSet.has z s) eqn:E.
  - apply has_In in E. split; [tauto | intros [H | ->]; assumption].
  - rewrite in_app_iff. simpl. intuition congruence.
Qed.

Lemma has_snoc (x z : string) (s : JsSet.t) :
  JsSet.has x (s ++ [z]) = JsSet.has x s || String.eqb x z.
Proof.
  unfold JsSet.has. rewrite existsb_app. simpl. now rewrite orb_false_r.
Qed.

Lemma map_has_set_same {V} (k : string) (v : V) (m : JsMap.t V) :
  JsMap.has k (JsMap.set k v m) = true.
Proof.
  unfold JsMap.has. induction m as [|[k' v'] r IH]; simpl.
  - now rewrite String.eqb_refl.
  - destruct (String.eqb k k') eqn:E; simpl.
    + now rewrite String.eqb_refl.
    + rewrite E. exact IH.
Qed.

Lemma map_get_set_other {V} (k k0 : string) (v : V) (m : JsMap.t V) :
  String.eqb k k0 = false -> JsMap.get k (JsMap.set k0 v m) = JsMap.get k m.
Proof.
  intros Hne. induction m as [|[k' v'] r IH]; simpl.
  - now rewrite Hne.
  - destruct (String.eqb k0 k') eqn:E; simpl.
    + apply String.eqb_eq in E. subst k'. now rewrite Hne.
    + destruct (String.eqb k k'); [reflexivity | exact IH].
Qed.

Lemma map_has_set {V} (k k0 : string) (v : V) (m : JsMap.t V) :
  JsMap.has k m = true -> JsMap.has k (JsMap.set k0 v m) = true.
Proof.
  intros H. destruct (String.eqb k k0) eqn:E.
  - apply String.eqb_eq in E. subst. apply map_has_set_same.
  - unfold JsMap.has in *. now rewrite map_get_set_other.
Qed.

(** A loop that pushes [g a] for the elements that pass [p]. *)
Lemma fold_push {A B} (step : list B -> A -> list B) (p : A -> bool)
  (g : A -> B) :
  (forall acc a, step acc a = if p a then acc ++ [g a] else acc) ->
  forall l init, fold_left step l init = init ++ map g (filter p l).
Proof.
  intros Hstep. induction l as [|a r IH]; intros init; simpl.
  - now rewrite app_nil_r.
  - rewrite IH, Hstep. destruct (p a); simpl.
    + now rewrite <- app_assoc.
    + reflexivity.
Qed.

(** A loop whose body only ever adds the elements [P a] allows. *)
Lemma fold_adds {A} (step : JsSet.t -> A -> JsSet.t) (P : A -> string -> Prop) :
  (forall acc a x, In x (step acc a) <-> In x acc \/ P a x) ->
  forall l init x,
    In x (fold_left step l init) <-> In x init \/ exists a, In a l /\ P a x.
Proof.
  intros Hstep. induction l as [|a r IH]; intros init x; simpl.
  - split; [tauto | intros [H | (a & [] & _)]; exact H].
  - rewrite IH, Hstep. split.
    + intros [[H | H] | (b & Hb & Hp)]; eauto 6.
    + intros [H | (b & [<- | Hb] & Hp)]; eauto 6.
Qed.

End CollectionFacts.

(* ------------------------------------------------------------------ *)
(** * The traversal loop ends *)

Module TraversalFacts.
Import Graph Notions CollectionFacts.

Lemma getUnionsForMember_filter (data : FamilyData) (m : string) :
  getUnionsForMember data m =
  map snd
    (filter (fun l : string * string =>
               String.eqb (fst l) m && JsString.startsWith "u_" (snd l))
       (links data)).
Proof.
  unfold getUnionsForMember.
  rewrite (fold_push _
             (fun l : string * string =>
                String.eqb (fst l) m && JsString.startsWith "u_" (snd l)) snd).
  - reflexivity.
  - intros acc [f t]. reflexivity.
Qed.

Lemma getChildrenOfUnion_filter (data : FamilyData) (u : string) :
  getChildrenOfUnion data u =
  map snd
    (filter (fun l : string * string =>
               String.eqb (fst l) u && negb (JsString.startsWith "u_" (snd l)))
       (links data)).
Proof.
  unfold getChildrenOfUnion.
  rewrite (fold_push _
             (fun l : string * string =>
                String.eqb (fst l) u && negb (JsString.startsWith "u_" (snd l)))
             snd).
  - reflexivity.
  - intros acc [f t]. reflexivity.
Qed.

Lemma getUnionsForMember_In (data : FamilyData) (m u : string) :
  In u (getUnionsForMember data m) <->
  In (m, u) (links data) /\ JsString.startsWith "u_" u = true.
Proof.
  rewrite getUnionsForMember_filter, in_map_iff. split.
  - intros ([f t] & <- & Hin). apply filter_In in Hin as [Hin Hc].
    simpl in *. apply andb_true_iff in Hc as [Hf Ht].
    apply String.eqb_eq in Hf. subst. now split.
  - intros [Hin Hu]. exists (m, u). split; [reflexivity |].
    apply filter_In. split; [exact Hin |]. simpl.
    now rewrite String.eqb_refl, Hu.
Qed.

Lemma filter_length_le {A} (p : A -> bool) (l : list A) :
  (List.length (filter p l) <= List.length l)%nat.
Proof.
  induction l as [|a r IH]; simpl; [lia |]. destruct (p a); simpl; lia.
Qed.

Lemma filter_length_mono {A} (p q : A -> bool) (l : list A) :
  (forall a, p a = true -> q a = true) ->
  (List.length (filter p l) <= List.length (filter q l))%nat.
Proof.
  intros H. induction l as [|a r IH]; simpl; [lia |].
  destruct (p a) eqn:Ep.
  - rewrite (H a Ep). simpl. lia.
  - destruct (q a); simpl; lia.
Qed.

Lemma children_le (data : FamilyData) (u : string) :
  (List.length (getChildrenOfUnion data u) <= List.length (links data))%nat.
Proof.
  rewrite getChildrenOfUnion_filter, length_map. apply filter_length_le.
Qed.

Lemma unions_le (data : FamilyData) (m : string) :
  (List.length (getUnionsForMember data m)
   <= List.length (filter (fun l : string * string => String.eqb (fst l) m)
                     (links data)))%nat.
Proof.
  rewrite getUnionsForMember_filter, length_map.
  apply filter_length_mono. intros a H.
  now apply andb_true_iff in H as [H _].
Qed.

Section Loop.

Variable data : FamilyData.
Variable St : Type.
Variable visit : string -> St -> St.
Variable follows : string -> string -> bool.

Lemma enqueue_one_le (v : JsSet.t) (children q : list string) :
  (List.length
     (fold_left
        (fun q childId =>
           if negb (JsSet.has childId v) then q ++ [childId] else q)
        children q)
   <= List.length q + List.length children)%nat.
Proof.
  rewrite (fold_push _ (fun c => negb (JsSet.has c v)) (fun c => c))
    by reflexivity.
  rewrite length_app, length_map.
  pose proof (filter_length_le (fun c => negb (JsSet.has c v)) children). lia.
Qed.

Lemma enqueueChildren_le (m : string) (v : JsSet.t) (q : list string) :
  (List.length (enqueueChildren data follows m v q)
   <= List.length q
      + List.length (getUnionsForMember data m) * List.length (links data))%nat.
Proof.
  unfold enqueueChildren.
  generalize (getUnionsForMember data m) as us. intros us. revert q.
  induction us as [|u r IH]; intros q; simpl; [lia |].
  etransitivity; [apply IH |].
  destruct (follows m u).
  - pose proof (enqueue_one_le v (getChildrenOfUnion data u) q).
    pose proof (children_le data u). lia.
  - lia.
Qed.

Lemma unvisited_after_visit (m : string) (v : JsSet.t) :
  JsSet.has m v = false ->
  (unvisited_links data (v ++ [m])
   + List.length (filter (fun l : string * string => String.eqb (fst l) m)
                    (links data))
   <= unvisited_links data v)%nat.
Proof.
  intros Hm. unfold unvisited_links.
  induction (links data) as [|[f t] r IH]; simpl; [lia |].
  rewrite has_snoc.
  destruct (String.eqb f m) eqn:E.
  - apply String.eqb_eq in E. subst f. rewrite Hm. simpl. lia.
  - rewrite orb_false_r. destruct (JsSet.has f v); simpl; lia.
Qed.

Lemma loop_body_decreases (m : string) (rest : list string)
  (st : loop_state St) :
  queue st = m :: rest ->
  (potential data (loop_body data St visit follows m rest st)
   < potential data st)%nat.
Proof.
  intros Hq. unfold potential, loop_body. rewrite Hq.
  destruct (JsSet.has m (visited st)) eqn:Hv; simpl.
  - lia.
  - unfold JsSet.add. rewrite Hv.
    pose proof (enqueueChildren_le m (visited st ++ [m]) rest) as H1.
    pose proof (unions_le data m) as H2.
    pose proof (unvisited_after_visit m (visited st) Hv) as H3.
    nia.
Qed.

Lemma while_queue_returns (fuel : nat) (st : loop_state St) :
  (potential data st <= fuel)%nat ->
  exists st', while_queue data St visit follows fuel st = Returned st'.
Proof.
  revert st. induction fuel as [|fuel IH]; intros st Hp.
  - destruct (queue st) as [|m rest] eqn:Hq.
    + exists st. simpl. now rewrite Hq.
    + exfalso. unfold potential in Hp. rewrite Hq in Hp. simpl in Hp. lia.
  - simpl. destruct (queue st) as [|m rest] eqn:Hq.
    + now exists st.
    + apply IH. pose proof (loop_body_decreases m rest st Hq). lia.
Qed.

(** What holds before the loop and is kept by every turn holds when the
    loop is left, and the queue is empty then. *)
Lemma while_queue_invariant (I : loop_state St -> Prop) :
  (forall m rest st, queue st = m :: rest -> I st ->
     I (loop_body data St visit follows m rest st)) ->
  forall fuel st st',
    I st -> while_queue data St visit follows fuel st = Returned st' ->
    I st' /\ queue st' = [].
Proof.
  intros Hkeep. induction fuel as [|fuel IH]; intros st st' Hi Hrun; simpl in Hrun.
  - destruct (queue st) eqn:Hq; [| discriminate].
    injection Hrun as <-. now split.
  - destruct (queue st) as [|m rest] eqn:Hq.
    + injection Hrun as <-. now split.
    + eapply IH; [| exact Hrun]. now apply Hkeep.
Qed.

Lemma processed_once_kept (m : string) (rest : list string)
  (st : loop_state St) :
  processed st = visited st /\ NoDup (visited st) ->
  processed (loop_body data St visit follows m rest st)
  = visited (loop_body data St visit follows m rest st)
  /\ NoDup (visited (loop_body data St visit follows m rest st)).
Proof.
  intros [Hpv Hnd]. unfold loop_body.
  destruct (JsSet.has m (visited st)) eqn:Hv; simpl.
  - now split.
  - unfold JsSet.add. rewrite Hv, Hpv. split; [reflexivity |].
    apply has_not_In in Hv.
    apply NoDup_rev in Hnd.
    rewrite <- (rev_involutive (visited st ++ [m])).
    apply NoDup_rev. rewrite rev_app_distr. simpl.
    constructor; [| exact Hnd].
    intros Hin. apply Hv. now apply in_rev.
Qed.

Lemma traverse_returns (root : string) (s : St) :
  exists st,
    traverse data St visit follows root s = Returned st /\
    queue st = [] /\ NoDup (processed st).
Proof.
  unfold traverse.
  set (st0 := {| queue := [root]; visited := []; processed := []; store := s |}).
  destruct (while_queue_returns (budget data) st0) as [st Hst].
  { unfold potential, budget, unvisited_links. simpl.
    pose proof (filter_length_le (fun _ : string * string => true)
                  (links data)).
    nia. }
  exists st. split; [exact Hst |].
  destruct (while_queue_invariant
              (fun st => processed st = visited st /\ NoDup (visited st))
              (fun m rest st _ H => processed_once_kept m rest st H)
              (budget data) st0 st) as [[Hpv Hnd] Hq].
  - simpl. split; [reflexivity | constructor].
  - exact Hst.
  - split; [exact Hq | now rewrite Hpv].
Qed.

End Loop.

End TraversalFacts.

(* ------------------------------------------------------------------ *)
(** * detectFamilies returns *)

Module DetectionFacts.
Import Graph Families Notions CollectionFacts TraversalFacts.

Lemma forEachM_returns {A S} (I : S -> Prop) (body : A -> S -> outcome S)
  (xs : list A) (s : S) :
  I s ->
  (forall a s, In a xs -> I s -> exists s', body a s = Returned s' /\ I s') ->
  exists s', forEachM body xs s = Returned s' /\ I s'.
Proof.
  revert s. induction xs as [|a r IH]; intros s Hs Hbody; simpl.
  - now exists s.
  - destruct (Hbody a s (or_introl eq_refl) Hs) as (s1 & -> & H1). simpl.
    apply IH; [exact H1 |].
    intros b t Hb. apply Hbody. now right.
Qed.

Lemma createFamilies_covers (data : FamilyData) (roots : list string) :
  covers (fst (createFamilies data roots)) (snd (createFamilies data roots)).
Proof.
  unfold createFamilies.
  match goal with
  | |- context [fold_left ?f _ _] => set (step := f)
  end.
  assert (forall l acc, covers (fst acc) (snd acc) ->
            covers (fst (fold_left step l acc)) (snd (fold_left step l acc)))
    as Hfold.
  { induction l as [|[index rootId] r IH]; intros [fams sets] H0; simpl.
    - exact H0.
    - apply IH. destruct (member data rootId) as [rootMember|]; [| exact H0].
      simpl in *. intros f Hf. apply in_app_iff in Hf as [Hf | [<- | []]].
      + apply map_has_set. now apply H0.
      + simpl. apply map_has_set_same. }
  apply Hfold. intros f [].
Qed.

Lemma getSet_covers (fams : list Family) (sets : JsMap.t JsSet.t) (f : Family) :
  covers fams sets -> In f fams ->
  exists members, getSet sets (id f) = Returned members.
Proof.
  intros Hc Hin. specialize (Hc f Hin). unfold JsMap.has in Hc.
  unfold getSet. destruct (JsMap.get (id f) sets) as [m|]; [| discriminate].
  now exists m.
Qed.

Lemma covers_set (fams : list Family) (sets : JsMap.t JsSet.t)
  (k : string) (v : JsSet.t) :
  covers fams sets -> covers fams (JsMap.set k v sets).
Proof. intros Hc f Hf. apply map_has_set. now apply Hc. Qed.

Lemma assignDescendants_returns (data : FamilyData) (root : string)
  (fm : JsSet.t) :
  exists fm', FamilyDetection.assignDescendants data root fm = Returned fm'.
Proof.
  unfold FamilyDetection.assignDescendants.
  destruct (traverse_returns data JsSet.t
              (fun memberId members => JsSet.add memberId members)
              (fun _ _ => true) root fm) as (st & -> & _).
  simpl. now eexists.
Qed.

Lemma assignDescendantsPatrilineal_returns (data : FamilyData)
  (root familyId : string) (fm : JsSet.t) (birth : JsMap.t string) :
  exists r,
    Patrilineal.assignDescendantsPatrilineal data root familyId fm birth
    = Returned r.
Proof.
  unfold Patrilineal.assignDescendantsPatrilineal.
  match goal with
  | |- context [traverse data ?S ?v ?f root ?s] =>
      destruct (traverse_returns data S v f root s) as (st & -> & _)
  end.
  simpl. now eexists.
Qed.

Lemma detectFamilies_returns (data : FamilyData) :
  exists r, FamilyDetection.detectFamilies data = Returned r.
Proof.
  unfold FamilyDetection.detectFamilies.
  destruct (List.length (findRootNodes data) =? 0)%nat; [now eexists |].
  pose proof (createFamilies_covers data (findRootNodes data)) as C0.
  destruct (createFamilies data (findRootNodes data)) as [families0 sets0].
  simpl in C0.
  match goal with
  | |- context [forEachM ?b families0 sets0] =>
      destruct (forEachM_returns (covers families0) b families0 sets0)
        as (sets1 & E1 & C1)
  end.
  { exact C0. }
  { intros f sets Hin Hc.
    destruct (getSet_covers _ _ f Hc Hin) as [members ->]. cbn [bind].
    destruct (assignDescendants_returns data (rootMemberId f) members)
      as [members' ->]. cbn [bind].
    eexists. split; [reflexivity | now apply covers_set]. }
  rewrite E1. cbn [bind].
  match goal with
  | |- context [forEachM ?b families0 sets1] =>
      destruct (forEachM_returns (covers families0) b families0 sets1)
        as (sets2 & E2 & C2)
  end.
  { exact C1. }
  { intros f sets Hin Hc.
    destruct (getSet_covers _ _ f Hc Hin) as [members ->]. cbn [bind].
    eexists. split; [reflexivity | now apply covers_set]. }
  rewrite E2. cbn [bind].
  match goal with
  | |- context [forEachM ?b families0 ?s0] =>
      destruct (forEachM_returns (fun _ => True) b families0 s0)
        as ([fams m2f] & E3 & _)
  end.
  { exact I. }
  { intros f [done m2f] Hin _.
    destruct (getSet_covers _ _ f C2 Hin) as [members ->]. cbn [bind].
    eexists. split; [reflexivity | exact I]. }
  rewrite E3. cbn [bind]. now eexists.
Qed.

Lemma detectFamilies_patrilineal_returns (data : FamilyData) :
  exists r, Patrilineal.detectFamilies data = Returned r.
Proof.
  unfold Patrilineal.detectFamilies.
  destruct (List.length (findRootNodes data) =? 0)%nat; [now eexists |].
  pose proof (createFamilies_covers data (findRootNodes data)) as C0.
  destruct (createFamilies data (findRootNodes data)) as [families0 sets0].
  simpl in C0.
  match goal with
  | |- context [forEachM ?b families0 (sets0, ?b0)] =>
      destruct (forEachM_returns (fun s => covers families0 (fst s)) b
                  families0 (sets0, b0))
        as ([sets1 birth1] & E1 & C1)
  end.
  { exact C0. }
  { intros f [sets birth] Hin Hc. simpl in Hc.
    destruct (getSet_covers _ _ f Hc Hin) as [members ->]. cbn [bind].
    destruct (assignDescendantsPatrilineal_returns data (rootMemberId f)
                (id f) members birth) as [[members' birth'] ->]. cbn [bind].
    eexists. split; [reflexivity | simpl; now apply covers_set]. }
  rewrite E1. cbn [bind]. simpl in C1.
  match goal with
  | |- context [forEachM ?b families0 (sets1, birth1, ?m0)] =>
      destruct (forEachM_returns (fun s => covers families0 (fst (fst s))) b
                  families0 (sets1, birth1, m0))
        as ([[sets2 birth2] m2f2] & E2 & C2)
  end.
  { exact C1. }
  { intros f [[sets birth] m2f] Hin Hc. simpl in Hc.
    destruct (getSet_covers _ _ f Hc Hin) as [members ->]. cbn [bind].
    destruct (Patrilineal.assignSpousesToFamilies data (id f) members birth m2f)
      as [[members' birth'] m2f'].
    eexists. split; [reflexivity | simpl; now apply covers_set]. }
  rewrite E2. cbn [bind]. simpl in C2.
  match goal with
  | |- context [forEachM ?b families0 ?s0] =>
      destruct (forEachM_returns (fun _ => True) b families0 s0)
        as ([fams m2f] & E3 & _)
  end.
  { exact I. }
  { intros f [done m2f] Hin _.
    destruct (getSet_covers _ _ f C2 Hin) as [members ->]. cbn [bind].
    eexists. split; [reflexivity | exact I]. }
  rewrite E3. cbn [bind]. now eexists.
Qed.

(** C3 - [detectFamilies] returns, without throwing, on every member
    table and every edge list, in both revisions of the detector; each
    traversal leaves its loop with the queue empty after having taken
    every person id past the visited-check at most once; on the graph
    in which the union of A produces B and the union of B produces A it
    returns one family holding both. *)
Theorem detectFamilies_terminates :
  (forall data, exists r, FamilyDetection.detectFamilies data = Returned r) /\
  (forall data, exists r, Patrilineal.detectFamilies data = Returned r) /\
  (forall data St visit follows root (s : St),
     exists st,
       traverse data St visit follows root s = Returned st /\
       queue st = [] /\ NoDup (processed st)) /\
  (exists r,
     FamilyDetection.detectFamilies Scenarios.cycle = Returned r /\
     map memberCount (FamilyDetection.families r) = [2%nat]) /\
  (exists r,
     Patrilineal.detectFamilies Scenarios.cycle = Returned r /\
     map memberCount (Patrilineal.families r) = [2%nat]).
Proof.
  split; [exact detectFamilies_returns |].
  split; [exact detectFamilies_patrilineal_returns |].
  split; [exact traverse_returns |].
  split.
  - eexists. split; [vm_compute; reflexivity | reflexivity].
  - eexists. split; [vm_compute; reflexivity | reflexivity].
Qed.

End DetectionFacts.

(* ------------------------------------------------------------------ *)
(** * Root discovery *)

Module RootFacts.
Import Graph Families Notions CollectionFacts TraversalFacts.

Lemma childrenSet_In (data : FamilyData) (x : string) :
  In x (childrenSet data) <-> is_child data x.
Proof.
  unfold childrenSet, is_child.
  rewrite (fold_adds _
             (fun (l : string * string) z =>
                JsString.startsWith "u_" (fst l) = true /\
                JsString.startsWith "u_" (snd l) = false /\ z = snd l)).
  - split.
    + intros [[] | ([f t] & Hin & Hf & Ht & ->)]. simpl in *. now exists f.
    + intros (f & Hin & Hf & Ht). right. exists (f, x). simpl. tauto.
  - intros acc [f t] z. simpl.
    destruct (JsString.startsWith "u_" f); simpl.
    + destruct (JsString.startsWith "u_" t); simpl.
      * intuition discriminate.
      * rewrite add_In. intuition.
    + intuition discriminate.
Qed.

Lemma naturalRoots_filter (data : FamilyData) :
  naturalRoots data =
  map fst
    (filter (fun e : string * Member =>
               negb (JsSet.has (fst e) (childrenSet data))
               && negb (is_spouse (snd e)))
       (members data)).
Proof.
  unfold naturalRoots.
  rewrite (fold_push _
             (fun e : string * Member =>
                negb (JsSet.has (fst e) (childrenSet data))
                && negb (is_spouse (snd e))) fst).
  - reflexivity.
  - intros acc [k m]. reflexivity.
Qed.

Lemma naturalRoots_In (data : FamilyData) (x : string) :
  In x (naturalRoots data) <->
  (exists m, In (x, m) (members data) /\ is_spouse m = false) /\
  ~ is_child data x.
Proof.
  rewrite naturalRoots_filter, in_map_iff. split.
  - intros ([k m] & <- & Hin). apply filter_In in Hin as [Hin Hc]. simpl in *.
    apply andb_true_iff in Hc as [Hc Hs].
    apply negb_true_iff in Hc, Hs. split.
    + now exists m.
    + rewrite <- childrenSet_In. now apply has_not_In.
  - intros [(m & Hin & Hs) Hc]. exists (x, m). split; [reflexivity |].
    apply filter_In. split; [exact Hin |]. simpl.
    rewrite Hs. rewrite <- childrenSet_In in Hc. apply has_not_In in Hc.
    now rewrite Hc.
Qed.

(** The lookup [data.members[id]] is truthy for the entries of the table
    and for the inherited names. *)
Lemma has_member_iff (data : FamilyData) (id : string) :
  has_member data id = true <->
  JsMap.has id (members data) = true \/ JsObject.inherits id = true.
Proof.
  unfold has_member, member, inherited, JsMap.has.
  destruct (JsMap.get id (members data)).
  - split; [now left | reflexivity].
  - destruct (JsObject.inherits id).
    + split; [now right | reflexivity].
    + split; [discriminate | now intros [H | H]].
Qed.

(** C4, as amended - a person is a natural root exactly when the member
    table has it without the is_spouse flag and its id is not the target
    of a union->person edge; natural roots, when there are any, are the
    roots; with none and a non-empty member table the start id is the
    sole root when it is non-empty and [data.members[data.start]] is
    truthy, and the root list is empty otherwise; the lookup is truthy
    for the ids of the entries of the table and for the property names
    that every object inherits, and for no other id; detection returns
    in every case, with no family at all when there is no root. *)
Theorem findRootNodes_spec :
  (forall data x,
     In x (naturalRoots data) <->
     (exists m, In (x, m) (members data) /\ is_spouse m = false) /\
     ~ is_child data x) /\
  (forall data id,
     has_member data id = true <->
     JsMap.has id (members data) = true \/ JsObject.inherits id = true) /\
  (forall data, naturalRoots data <> [] ->
     findRootNodes data = naturalRoots data) /\
  (forall data, naturalRoots data = [] -> members data <> [] ->
     truthy (start data) = true ->
     has_member data (start data) = true ->
     findRootNodes data = [start data]) /\
  (forall data, naturalRoots data = [] ->
     truthy (start data) && has_member data (start data) = false ->
     findRootNodes data = []) /\
  (forall data, exists r, FamilyDetection.detectFamilies data = Returned r) /\
  (forall data, exists r, Patrilineal.detectFamilies data = Returned r) /\
  (forall data, findRootNodes data = [] ->
     FamilyDetection.detectFamilies data
     = Returned {| FamilyDetection.families := [];
                   FamilyDetection.memberToFamilies := [];
                   FamilyDetection.familyColors := [] |} /\
     Patrilineal.detectFamilies data
     = Returned {| Patrilineal.families := [];
                   Patrilineal.memberToFamilies := [];
                   Patrilineal.familyColors := [];
                   Patrilineal.memberBirthFamily := [] |}).
Proof.
  split; [exact naturalRoots_In |].
  split; [exact has_member_iff |].
  split.
  { intros data Hne. unfold findRootNodes.
    destruct (naturalRoots data) as [|a r]; [congruence | reflexivity]. }
  split.
  { intros data Hnil Hm Ht Hh. unfold findRootNodes. rewrite Hnil, Ht, Hh.
    destruct (members data); [congruence | reflexivity]. }
  split.
  { intros data Hnil Hg. unfold findRootNodes. rewrite Hnil, Hg.
    destruct (members data); reflexivity. }
  split; [exact DetectionFacts.detectFamilies_returns |].
  split; [exact DetectionFacts.detectFamilies_patrilineal_returns |].
  intros data Hnone.
  unfold FamilyDetection.detectFamilies, Patrilineal.detectFamilies.
  rewrite Hnone. split; reflexivity.
Qed.

(** The fallback at work on the cycle graph of the tests, with the start
    id of the test and with an inherited name as start id, and a natural
    root on the intermarriage graph. *)
Lemma findRootNodes_spec_witness :
  findRootNodes Scenarios.cycle = ["mem_1"] /\
  findRootNodes Scenarios.inheritedStart = ["toString"] /\
  findRootNodes Scenarios.intermarriage = naturalRoots Scenarios.intermarriage /\
  findRootNodes Scenarios.staleStart = [].
Proof.
  destruct findRootNodes_spec as (_ & _ & Hnat & Hstart & Hnone & _).
  split; [| split; [| split]].
  - apply (Hstart Scenarios.cycle); [reflexivity | discriminate | reflexivity
                                    | reflexivity].
  - apply (Hstart Scenarios.inheritedStart);
      [reflexivity | discriminate | reflexivity | reflexivity].
  - apply (Hnat Scenarios.intermarriage). discriminate.
  - apply (Hnone Scenarios.staleStart); reflexivity.
Defined.

(** With no natural root and a start id that names nobody, the member
    table is non-empty and yet no root comes out. *)
Lemma findRootNodes_stale_start :
  naturalRoots Scenarios.staleStart = [] /\
  members Scenarios.staleStart <> [] /\
  findRootNodes Scenarios.staleStart <> [start Scenarios.staleStart].
Proof.
  split; [reflexivity |]. split; discriminate.
Qed.

End RootFacts.

(* ------------------------------------------------------------------ *)
(** * Union ids *)

Module UnionIdFacts.
Import Graph Descent.

Lemma with_mem_prefixed (id : string) :
  JsString.startsWith "mem_" (with_mem id) = true.
Proof.
  unfold with_mem. destruct (JsString.startsWith "mem_" id) eqn:E; [exact E |].
  unfold JsString.startsWith. simpl. now destruct id.
Qed.

Lemma parseUnionId_with_mem (u : string) :
  parseUnionId u =
  match match_union u with
  | None => []
  | Some (id1, id2) => [with_mem id1; with_mem id2]
  end.
Proof. unfold parseUnionId. now destruct (match_union u) as [[a b]|]. Qed.

Lemma parseUnionId_named (u p : string) :
  In p (parseUnionId u) -> JsString.startsWith "mem_" p = true /\ p <> "0"%string.
Proof.
  rewrite parseUnionId_with_mem.
  destruct (match_union u) as [[id1 id2]|]; [| intros []].
  intros [<- | [<- | []]]; (split; [apply with_mem_prefixed |]);
    intros H; pose proof (with_mem_prefixed id1) as H1;
    pose proof (with_mem_prefixed id2) as H2;
    rewrite H in *; discriminate.
Qed.

(** A parsed union id names nobody or exactly two partners, each id
    starting with [mem_]; so no partner is ever the placeholder ['0'],
    and the test for it in spouse assignment never fires. *)
Theorem parseUnionId_partners (u : string) :
  (parseUnionId u = [] \/
   exists a b, parseUnionId u = [a; b]) /\
  (forall p, In p (parseUnionId u) ->
     JsString.startsWith "mem_" p = true /\ p <> "0").
Proof.
  rewrite parseUnionId_with_mem.
  destruct (match_union u) as [[id1 id2]|].
  - split; [right; now exists (with_mem id1), (with_mem id2) |].
    intros p [<- | [<- | []]]; (split; [apply with_mem_prefixed |]);
      intros H; pose proof (with_mem_prefixed id1) as H1;
      pose proof (with_mem_prefixed id2) as H2;
      rewrite H in *; discriminate.
  - split; [now left | intros p []].
Qed.

Lemma all_chars_app (p : ascii -> bool) (a b : string) :
  all_chars p (a ++ b)%string = all_chars p a && all_chars p b.
Proof.
  induction a as [|c a IH]; simpl; [reflexivity |].
  now rewrite IH, andb_assoc.
Qed.

Lemma line_prefix_whole (s : string) :
  on_one_line s = true -> line_prefix s = s.
Proof.
  induction s as [|c r IH]; [reflexivity |].
  cbn [on_one_line line_prefix]. intros H.
  apply andb_true_iff in H as [Hc Hr].
  apply negb_true_iff in Hc. now rewrite Hc, IH.
Qed.

(** Whether a line terminator starts at a character does not depend on
    what follows an underscore. *)
Lemma line_terminator_at_underscore (c : ascii) (a b : string) :
  line_terminator_at (String c (a ++ String "_" b))
  = line_terminator_at (String c a).
Proof.
  cbn [line_terminator_at]. f_equal. f_equal.
  destruct a as [|d [|e a]]; cbn [append].
  - now destruct b.
  - cbn. now rewrite andb_false_r.
  - reflexivity.
Qed.

Lemma on_one_line_underscore (a b : string) :
  on_one_line a = true -> on_one_line b = true ->
  on_one_line (a ++ String "_" b) = true.
Proof.
  intros Ha Hb. induction a as [|c a IH].
  - cbn [append on_one_line]. now rewrite Hb.
  - cbn [append on_one_line] in *.
    apply andb_true_iff in Ha as [Hc Ha].
    now rewrite line_terminator_at_underscore, Hc, IH.
Qed.

Lemma on_one_line_left (a b : string) :
  on_one_line (a ++ String "_" b) = true -> on_one_line a = true.
Proof.
  induction a as [|c a IH]; [reflexivity |].
  cbn [append on_one_line]. rewrite line_terminator_at_underscore.
  intros H. apply andb_true_iff in H as [Hc Ha]. now rewrite Hc, IH.
Qed.

Lemma on_one_line_right (a b : string) :
  on_one_line (a ++ b) = true -> on_one_line b = true.
Proof.
  induction a as [|c a IH]; [trivial |].
  cbn [append on_one_line]. intros H.
  apply andb_true_iff in H as [_ H]. now apply IH.
Qed.

Lemma split_none (b : string) :
  all_chars not_underscore b = true -> split_last_underscore b = None.
Proof.
  induction b as [|c r IH]; simpl; [reflexivity |].
  intros H. apply andb_true_iff in H as [Hc Hr].
  rewrite (IH Hr). unfold not_underscore in Hc. apply negb_true_iff in Hc.
  now rewrite Hc.
Qed.

Lemma split_at_last (a b : string) :
  b <> ""%string -> all_chars not_underscore b = true ->
  split_last_underscore (a ++ String "_" b)%string = Some (a, b).
Proof.
  intros Hne Hb. induction a as [|c a IH]; simpl.
  - rewrite (split_none b Hb).
    destruct (String.eqb b "") eqn:E; [apply String.eqb_eq in E; congruence |].
    reflexivity.
  - now rewrite IH.
Qed.

Lemma match_union_built (a b : string) :
  a <> ""%string -> b <> ""%string ->
  all_chars not_underscore b = true ->
  on_one_line a = true ->
  on_one_line b = true ->
  match_union ("u_" ++ a ++ "_" ++ b)%string = Some (a, b).
Proof.
  intros Ha Hb Hu Hla Hlb.
  assert (match_here ("u_" ++ a ++ "_" ++ b)%string = Some (a, b)) as Hm.
  { simpl. unfold match_groups.
    rewrite line_prefix_whole.
    - destruct a as [|c a]; [congruence |]. simpl.
      change (a ++ String "_" b)%string with (a ++ String "_" b)%string.
      now rewrite split_at_last.
    - now apply on_one_line_underscore. }
  assert (match_union ("u_" ++ a ++ "_" ++ b)%string = Some (a, b)) as Hu'.
  { change ("u_" ++ a ++ "_" ++ b)%string
      with (String "u" (String "_" (a ++ "_" ++ b)))%string in *.
    cbn [match_union]. now rewrite Hm. }
  exact Hu'.
Qed.

Lemma length_append (a b : string) :
  String.length (a ++ b) = (String.length a + String.length b)%nat.
Proof. induction a as [|c a IH]; simpl; [reflexivity | now rewrite IH]. Qed.

Lemma append_assoc (a b c : string) :
  ((a ++ b) ++ c = a ++ b ++ c)%string.
Proof. induction a as [|x a IH]; simpl; [reflexivity | now rewrite IH]. Qed.

Lemma line_prefix_split (s : string) :
  exists post, s = (line_prefix s ++ post)%string.
Proof.
  induction s as [|c r [post IH]]; [now exists ""%string |].
  cbn [line_prefix]. destruct (line_terminator_at (String c r)).
  - now exists (String c r).
  - exists post. cbn [append]. now rewrite <- IH.
Qed.

Lemma split_last_underscore_sound (r a b : string) :
  split_last_underscore r = Some (a, b) ->
  r = (a ++ String "_" b)%string /\ b <> ""%string.
Proof.
  revert a. induction r as [|c r IH]; intros a; [discriminate |].
  cbn [split_last_underscore].
  destruct (split_last_underscore r) as [[a' b']|].
  - intros H. injection H as <- <-.
    destruct (IH a' eq_refl) as [-> Hb]. now split.
  - destruct (Ascii.eqb c "_") eqn:E; [| discriminate].
    destruct (String.eqb r "") eqn:Er; [discriminate |].
    cbn [andb negb]. intros H. injection H as <- <-.
    apply Ascii.eqb_eq in E. subst c. apply String.eqb_neq in Er. now split.
Qed.

Lemma match_groups_sound (s a b : string) :
  match_groups s = Some (a, b) ->
  exists post,
    s = (a ++ "_" ++ b ++ post)%string /\ a <> ""%string /\ b <> ""%string.
Proof.
  unfold match_groups. destruct (line_prefix_split s) as [post Hs].
  destruct (line_prefix s) as [|c r]; [discriminate |].
  destruct (split_last_underscore r) as [[a' b']|] eqn:E; [| discriminate].
  intros H. injection H as <- <-.
  apply split_last_underscore_sound in E as [-> Hb].
  exists post. split; [| split; [discriminate | exact Hb]].
  rewrite Hs. cbn [append]. f_equal.
  rewrite append_assoc. cbn [append]. reflexivity.
Qed.

(** What [match] finds lies in the id: [u_], the first group, an
    underscore, the second group, neither group empty. *)
Lemma match_union_sound (u a b : string) :
  match_union u = Some (a, b) ->
  exists pre post,
    u = (pre ++ "u_" ++ a ++ "_" ++ b ++ post)%string /\
    a <> ""%string /\ b <> ""%string.
Proof.
  induction u as [|c r IH].
  - discriminate.
  - cbn [match_union].
    destruct (match_here (String c r)) as [g|] eqn:E.
    + intros H. injection H as ->. unfold match_here in E.
      destruct c as [[] [] [] [] [] [] [] []]; try discriminate.
      destruct r as [|d r]; [discriminate |].
      destruct d as [[] [] [] [] [] [] [] []]; try discriminate.
      apply match_groups_sound in E as (post & -> & Ha & Hb).
      exists ""%string, post. now split.
    + intros H. destruct (IH H) as (pre & post & -> & Ha & Hb).
      exists (String c pre), post. now split.
Qed.

(** An id built as [u_<a>_<b>] parses back to the two parts when the
    second part has no underscore: the first part is everything up to
    the last underscore.  So [u_1_2] names mem_1 and mem_2, while
    [u_mem_1_mem_2] names mem_1_mem and mem_2. *)
Theorem parseUnionId_round_trip (a b : string) :
  a <> ""%string -> b <> ""%string ->
  all_chars not_underscore b = true ->
  on_one_line a = true ->
  on_one_line b = true ->
  parseUnionId ("u_" ++ a ++ "_" ++ b)%string = [with_mem a; with_mem b].
Proof.
  intros Ha Hb Hu Hla Hlb.
  now rewrite parseUnionId_with_mem, match_union_built.
Qed.

(** The two ids of the comment above [parseUnionId]. *)
Lemma parseUnionId_round_trip_witness :
  parseUnionId "u_1_2" = ["mem_1"; "mem_2"] /\
  parseUnionId "u_mem_1_mem_2" = ["mem_1_mem"; "mem_2"].
Proof.
  split.
  - apply (parseUnionId_round_trip "1" "2"); try discriminate; reflexivity.
  - apply (parseUnionId_round_trip "mem_1_mem" "2"); try discriminate;
      reflexivity.
Defined.

Lemma with_mem_length (s : string) :
  (String.length s <= String.length (with_mem s))%nat.
Proof.
  unfold with_mem. destruct (JsString.startsWith "mem_" s); simpl; lia.
Qed.

Lemma with_mem_plain (s : string) :
  all_chars not_underscore s = true -> with_mem s = ("mem_" ++ s)%string.
Proof.
  intros H. unfold with_mem.
  destruct (JsString.startsWith "mem_" s) eqn:E; [| reflexivity].
  exfalso. unfold JsString.startsWith in E.
  destruct s as [|c1 s]; cbn [String.prefix] in E; [discriminate |].
  destruct (Ascii.ascii_dec "m" c1) as [<- |]; [| discriminate].
  destruct s as [|c2 s]; cbn [String.prefix] in E; [discriminate |].
  destruct (Ascii.ascii_dec "e" c2) as [<- |]; [| discriminate].
  destruct s as [|c3 s]; cbn [String.prefix] in E; [discriminate |].
  destruct (Ascii.ascii_dec "m" c3) as [<- |]; [| discriminate].
  destruct s as [|c4 s]; cbn [String.prefix] in E; [discriminate |].
  destruct (Ascii.ascii_dec "_" c4) as [<- |]; [| discriminate].
  simpl in H. discriminate.
Qed.

Lemma ends_append (a b : string) :
  b <> ""%string ->
  ends_with_underscore (a ++ b) = ends_with_underscore b.
Proof.
  intros Hb. induction a as [|c a IH]; [reflexivity |].
  cbn [append ends_with_underscore]. rewrite IH.
  destruct (a ++ b)%string eqn:E; [| reflexivity].
  destruct a; [simpl in E; congruence | discriminate].
Qed.

Lemma ends_plain (s : string) :
  all_chars not_underscore s = true -> ends_with_underscore s = false.
Proof.
  induction s as [|c r IH]; [reflexivity |].
  cbn [all_chars ends_with_underscore]. intros H.
  apply andb_true_iff in H as [Hc Hr].
  destruct r; [| now apply IH].
  unfold not_underscore in Hc. now apply negb_true_iff in Hc.
Qed.

(** A key made of a father id, an underscore and a mother id that does
    not end in an underscore is no inherited property name. *)
Lemma key_is_own (f m : string) :
  m <> ""%string -> ends_with_underscore m = false ->
  JsObject.inherits (f ++ "_" ++ m) = false.
Proof.
  intros Hm He.
  destruct (JsObject.inherits (f ++ "_" ++ m))
    eqn:E; [| reflexivity].
  exfalso. apply existsb_exists in E as (k & Hk & Heq).
  apply String.eqb_eq in Heq.
  assert (all_chars not_underscore k = false) as H1.
  { rewrite <- Heq, all_chars_app. cbn [append all_chars].
    unfold not_underscore at 2. simpl. apply andb_false_r. }
  assert (ends_with_underscore k = false) as H2.
  { rewrite <- Heq.
    rewrite ends_append by (intros H; destruct m; [congruence | discriminate]).
    change ("_" ++ m)%string with (String "_" m).
    cbn [ends_with_underscore]. destruct m; [congruence | exact He]. }
  simpl in Hk.
  repeat (destruct Hk as [<- | Hk]; [discriminate |]).
  destruct Hk.
Qed.

(** What the detector reads from the union ids of the sheet loader.
    With a mother id free of underscores the partners are the two parent
    ids with [mem_] put in front; with a mother id [mem_<x>] the mother
    is named, and for the father an id ending in [_mem]; the union of an
    unknown mother names [mem_m].  In neither form of the mother id are
    the partners the two parent ids. *)
Theorem getUnionId_parsed (f m : string) :
  f <> ""%string -> m <> ""%string ->
  on_one_line f = true ->
  on_one_line m = true ->
  (all_chars not_underscore m = true ->
   exists u,
     SheetLoader.getUnionId (Some f) (Some m) = SheetLoader.UnionId u /\
     parseUnionId u = [with_mem f; ("mem_" ++ m)%string]) /\
  (forall x, m = ("mem_" ++ x)%string -> x <> ""%string ->
     all_chars not_underscore x = true ->
     exists u,
       SheetLoader.getUnionId (Some f) (Some m) = SheetLoader.UnionId u /\
       parseUnionId u = [with_mem (f ++ "_mem"); m]) /\
  (exists u,
     SheetLoader.getUnionId (Some f) None = SheetLoader.UnionId u /\
     parseUnionId u = [with_mem (f ++ "_unknown"); "mem_m"%string]) /\
  (all_chars not_underscore m = true \/
   (exists x, m = ("mem_" ++ x)%string /\ x <> ""%string /\
              all_chars not_underscore x = true) ->
   forall u,
     SheetLoader.getUnionId (Some f) (Some m) = SheetLoader.UnionId u ->
     parseUnionId u <> [f; m]).
Proof.
  intros Hf Hm Hlf Hlm.
  assert (forall s, s <> ""%string -> SheetLoader.or_else (Some s) = fun _ => s)
    as Hor.
  { intros s Hs. unfold SheetLoader.or_else, truthy.
    apply String.eqb_neq in Hs. now rewrite Hs. }
  assert (forall a b, a <> ""%string -> (a ++ b)%string <> ""%string) as Hne.
  { intros [|c a] b Ha; [congruence | discriminate]. }
  assert (all_chars not_underscore m = true ->
          exists u,
            SheetLoader.getUnionId (Some f) (Some m) = SheetLoader.UnionId u /\
            parseUnionId u = [with_mem f; ("mem_" ++ m)%string]) as H1.
  { intros Hu. unfold SheetLoader.getUnionId.
    rewrite (Hor f Hf), (Hor m Hm).
    rewrite (key_is_own f m Hm (ends_plain m Hu)).
    eexists. split; [reflexivity |].
    rewrite parseUnionId_with_mem, match_union_built by assumption.
    now rewrite (with_mem_plain m Hu). }
  assert (forall x, m = ("mem_" ++ x)%string -> x <> ""%string ->
            all_chars not_underscore x = true ->
            exists u,
              SheetLoader.getUnionId (Some f) (Some m) = SheetLoader.UnionId u /\
              parseUnionId u = [with_mem (f ++ "_mem"); m]) as H2.
  { intros x -> Hx Hu. unfold SheetLoader.getUnionId.
    rewrite (Hor f Hf), (Hor _ Hm).
    rewrite (key_is_own f ("mem_" ++ x) Hm).
    2:{ change ("mem_" ++ x)%string with ("mem" ++ "_" ++ x)%string.
        rewrite ends_append by discriminate.
        change ("_" ++ x)%string with (String "_" x).
        cbn [ends_with_underscore]. destruct x; [congruence |].
        now apply ends_plain. }
    eexists. split; [reflexivity |].
    change (f ++ "_" ++ "mem_" ++ x)%string
      with (f ++ "_mem" ++ "_" ++ x)%string.
    rewrite <- (append_assoc f "_mem" ("_" ++ x)).
    rewrite parseUnionId_with_mem, match_union_built.
    - now rewrite (with_mem_plain x Hu).
    - now apply Hne.
    - exact Hx.
    - exact Hu.
    - now apply (on_one_line_underscore f "mem").
    - exact (on_one_line_right "mem_" x Hlm). }
  split; [exact H1 | split; [exact H2 | split]].
  - unfold SheetLoader.getUnionId. rewrite (Hor f Hf).
    cbn [SheetLoader.or_else].
    rewrite (key_is_own f "unknown_m") by (discriminate || reflexivity).
    eexists. split; [reflexivity |].
    change (f ++ "_" ++ "unknown_m")%string
      with (f ++ "_unknown" ++ "_" ++ "m")%string.
    rewrite <- (append_assoc f "_unknown" ("_" ++ "m")).
    rewrite parseUnionId_with_mem, match_union_built; try reflexivity.
    + now apply Hne.
    + discriminate.
    + now apply (on_one_line_underscore f "unknown").
  - intros [Hu | (x & Hx & Hxne & Hu)] u Hget.
    + destruct (H1 Hu) as (u' & Hget' & Hp).
      assert (u = u') as -> by congruence.
      rewrite Hp. intros H. injection H as _ H.
      apply (f_equal String.length) in H. simpl in H. lia.
    + destruct (H2 x Hx Hxne Hu) as (u' & Hget' & Hp).
      assert (u = u') as -> by congruence.
      rewrite Hp. intros H. injection H as H.
      pose proof (with_mem_length (f ++ "_mem")) as Hlen.
      rewrite H, length_append in Hlen. simpl in Hlen. lia.
Qed.

(** The parents mem_1 and mem_2. *)
Lemma getUnionId_parsed_witness :
  (exists u,
     SheetLoader.getUnionId (Some "mem_1") (Some "mem_2")
     = SheetLoader.UnionId u /\
     parseUnionId u = ["mem_1_mem"; "mem_2"])%string /\
  (exists u,
     SheetLoader.getUnionId (Some "mem_1") None = SheetLoader.UnionId u /\
     parseUnionId u = ["mem_1_unknown"; "mem_m"])%string /\
  parseUnionId "u_mem_1_mem_2" <> ["mem_1"; "mem_2"]%string.
Proof.
  destruct (getUnionId_parsed "mem_1" "mem_2") as (_ & H2 & H3 & H4);
    try discriminate; try reflexivity.
  split; [| split].
  - apply (H2 "2"%string); try discriminate; reflexivity.
  - exact H3.
  - apply H4; [| reflexivity]. right. exists "2"%string.
    split; [reflexivity | split; [discriminate | reflexivity]].
Defined.

Lemma word_prefix_whole (s : string) :
  all_chars Migration.is_word s = true -> Migration.word_prefix s = s.
Proof.
  induction s as [|c r IH]; simpl; [reflexivity |].
  intros H. apply andb_true_iff in H as [Hc Hr]. now rewrite Hc, IH.
Qed.

Lemma all_chars_impl (p q : ascii -> bool) (s : string) :
  (forall c, p c = true -> q c = true) ->
  all_chars p s = true -> all_chars q s = true.
Proof.
  intros Hpq. induction s as [|c r IH]; simpl; [reflexivity |].
  intros H. apply andb_true_iff in H as [Hc Hr].
  now rewrite (Hpq c Hc), IH.
Qed.

Lemma is_alnum_plain (c : ascii) :
  NodeHelpers.is_alnum c = true -> not_underscore c = true.
Proof.
  intros H. unfold not_underscore.
  destruct (Ascii.eqb c "_") eqn:E1;
    [apply Ascii.eqb_eq in E1; subst; discriminate | reflexivity].
Qed.

Lemma is_word_on_line (c : ascii) (r : string) :
  Migration.is_word c = true -> line_terminator_at (String c r) = false.
Proof.
  intros H. cbn [line_terminator_at].
  destruct (Ascii.eqb c "010") eqn:E2;
    [apply Ascii.eqb_eq in E2; subst; discriminate |].
  destruct (Ascii.eqb c "013") eqn:E3;
    [apply Ascii.eqb_eq in E3; subst; discriminate |].
  destruct (Ascii.eqb c "226") eqn:E4;
    [apply Ascii.eqb_eq in E4; subst; discriminate | reflexivity].
Qed.

Lemma words_on_one_line (s : string) :
  all_chars Migration.is_word s = true -> on_one_line s = true.
Proof.
  induction s as [|c r IH]; [reflexivity |].
  cbn [all_chars on_one_line]. intros H.
  apply andb_true_iff in H as [Hc Hr].
  now rewrite (is_word_on_line c r Hc), IH.
Qed.

(** The migration and the detector read the same groups off an id
    [u_<a>_<b>] whose parts are word characters, [b] without underscore;
    the migration puts [mem_] in front of both, the detector only where
    it is absent.  So they name the same partners exactly when [a] does
    not start with [mem_]: on [u_1_2] both name mem_1 and mem_2, on
    [u_mem_1_mem_2] the migration names mem_mem_1_mem. *)
Theorem partnerIds_parseUnionId (a b : string) :
  a <> ""%string -> b <> ""%string ->
  all_chars Migration.is_word a = true ->
  all_chars NodeHelpers.is_alnum b = true ->
  Migration.partnerIds ("u_" ++ a ++ "_" ++ b)
  = Some (("mem_" ++ a)%string, ("mem_" ++ b)%string) /\
  parseUnionId ("u_" ++ a ++ "_" ++ b)
  = [with_mem a; ("mem_" ++ b)%string] /\
  (parseUnionId ("u_" ++ a ++ "_" ++ b)
   = [("mem_" ++ a)%string; ("mem_" ++ b)%string] <->
   JsString.startsWith "mem_" a = false).
Proof.
  intros Ha Hb Hwa Hab.
  assert (all_chars not_underscore b = true) as Hub
    by (apply (all_chars_impl _ _ b is_alnum_plain Hab)).
  assert (all_chars Migration.is_word b = true) as Hwb.
  { apply (all_chars_impl _ _ b) with (2 := Hab).
    intros c H. unfold Migration.is_word. now rewrite H. }
  assert (on_one_line b = true) as Hlb by (now apply words_on_one_line).
  assert (on_one_line a = true) as Hla by (now apply words_on_one_line).
  assert (parseUnionId ("u_" ++ a ++ "_" ++ b)
          = [with_mem a; ("mem_" ++ b)%string]) as Hparse.
  { rewrite parseUnionId_with_mem, match_union_built by assumption.
    now rewrite (with_mem_plain b Hub). }
  split; [| split; [exact Hparse |]].
  - unfold Migration.partnerIds.
    change ("u_" ++ a ++ "_" ++ b)%string
      with (String "u" (String "_" (a ++ "_" ++ b)))%string.
    cbn [Migration.match_words Migration.words_here].
    unfold Migration.word_groups. rewrite word_prefix_whole.
    + destruct a as [|c a]; [congruence |]. cbn [append].
      change (a ++ String "_" b)%string with (a ++ String "_" b)%string.
      now rewrite split_at_last.
    + rewrite all_chars_app, Hwa. cbn [append all_chars]. now rewrite Hwb.
  - rewrite Hparse. unfold with_mem.
    destruct (JsString.startsWith "mem_" a) eqn:E.
    + split; [| discriminate]. intros H. injection H as H.
      apply (f_equal String.length) in H. simpl in H. lia.
    + split; reflexivity.
Qed.

Lemma partnerIds_parseUnionId_witness :
  (Migration.partnerIds "u_1_2" = Some ("mem_1", "mem_2") /\
   parseUnionId "u_1_2" = ["mem_1"; "mem_2"])%string /\
  (Migration.partnerIds "u_mem_1_mem_2" = Some ("mem_mem_1_mem", "mem_2") /\
   parseUnionId "u_mem_1_mem_2" = ["mem_1_mem"; "mem_2"])%string.
Proof.
  split.
  - destruct (partnerIds_parseUnionId "1" "2") as (H1 & H2 & _);
      try discriminate; try reflexivity.
    now split.
  - destruct (partnerIds_parseUnionId "mem_1_mem" "2") as (H1 & H2 & _);
      try discriminate; try reflexivity.
    now split.
Defined.

End UnionIdFacts.

(* ------------------------------------------------------------------ *)
(** * Spouse assignment *)

Module SpouseFacts.
Import Graph Families Notions Descent CollectionFacts TraversalFacts.

Lemma assignSpouses_In (data : FamilyData) (fm : JsSet.t) (p : string) :
  In p (FamilyDetection.assignSpouses data fm) <->
  In p fm \/ named_partner data fm p.
Proof.
  unfold FamilyDetection.assignSpouses.
  rewrite (fold_adds _
             (fun m x =>
                exists u, In u (getUnionsForMember data m) /\
                  exists q, In q (parseUnionId u) /\
                    (x = q /\ q <> m /\ q <> "0" /\
                     has_member data q = true))).
  - unfold named_partner. split.
    + intros [H | (m & Hm & u & Hu & q & Hq & -> & H1 & H2 & H3)];
        [now left | right].
      apply getUnionsForMember_In in Hu as [Hl Hu].
      exists m, u. tauto.
    + intros [H | (m & u & Hm & Hl & Hu & Hq & H1 & H2 & H3)];
        [now left | right].
      exists m. split; [exact Hm |]. exists u. split.
      * apply getUnionsForMember_In. now split.
      * exists p. tauto.
  - intros acc m x.
    apply (fold_adds _
             (fun u x =>
                exists q, In q (parseUnionId u) /\
                  (x = q /\ q <> m /\ q <> "0" /\
                   has_member data q = true))).
    intros acc1 u x1.
    apply (fold_adds _
             (fun q x =>
                x = q /\ q <> m /\ q <> "0" /\
                has_member data q = true)).
    intros acc2 q x2.
    destruct (String.eqb q m) eqn:E1; simpl.
    { apply String.eqb_eq in E1. intuition congruence. }
    destruct (String.eqb q "0") eqn:E2; simpl.
    { apply String.eqb_eq in E2. intuition congruence. }
    apply String.eqb_neq in E1, E2.
    destruct (has_member data q) eqn:E3; simpl.
    + rewrite add_In. intuition.
    + intuition congruence.
Qed.

Lemma fold_left_proj {A S T} (proj : S -> T) (f : S -> A -> S)
  (g : T -> A -> T) :
  (forall s a, proj (f s a) = g (proj s) a) ->
  forall l s, proj (fold_left f l s) = fold_left g l (proj s).
Proof.
  intros H. induction l as [|a r IH]; intros s; simpl; [reflexivity |].
  now rewrite IH, H.
Qed.

(** The member set that [assignSpousesToFamilies] leaves is the one
    [assignSpouses] computes. *)
Lemma assignSpousesToFamilies_members (data : FamilyData) (familyId : string)
  (fm : JsSet.t) (birth : JsMap.t string) (m2f : JsMap.t (list string)) :
  fst (fst (Patrilineal.assignSpousesToFamilies data familyId fm birth m2f))
  = FamilyDetection.assignSpouses data fm.
Proof.
  unfold Patrilineal.assignSpousesToFamilies, FamilyDetection.assignSpouses.
  rewrite (fold_left_proj (fun s => fst (fst s)) _
             (fun ms memberId =>
                fold_left
                  (fun ms unionId =>
                     fold_left
                       (fun ms partnerId =>
                          if String.eqb partnerId memberId
                             || String.eqb partnerId "0"
                          then ms
                          else if negb (Graph.has_member data partnerId)
                          then ms
                          else JsSet.add partnerId ms)
                       (parseUnionId unionId) ms)
                  (getUnionsForMember data memberId) ms));
    [reflexivity |].
  intros s m.
  apply (fold_left_proj (fun s => fst (fst s))).
  intros s1 u.
  apply (fold_left_proj (fun s => fst (fst s))).
  intros [[ms b] t] q. unfold Patrilineal.addSpouse.
  destruct (String.eqb q m || String.eqb q "0"); [reflexivity |].
  destruct (negb (has_member data q)); reflexivity.
Qed.

(** C10 - spouse assignment reads the co-partners of a union off the
    union's id: a person joins the set exactly when a union that some
    member has an edge to names it (second or third part of
    [u_<a>_<b>], with [mem_] put in front when absent), it is not that
    member, not ['0'], and it is in the member table; an id that does not
    match the pattern names nobody; so a person no such id names is not
    added, whatever edges it has.  The pattern itself: an id [u_<a>_<b>]
    on one line, [b] free of underscores, matches with the groups [a]
    and [b]; and whatever matches lies in the id as [u_], first group,
    underscore, second group, neither group empty. *)
Theorem assignSpouses_by_union_id :
  (forall data fm p,
     In p (FamilyDetection.assignSpouses data fm) <->
     In p fm \/ named_partner data fm p) /\
  (forall data familyId fm birth m2f,
     fst (fst (Patrilineal.assignSpousesToFamilies data familyId fm birth m2f))
     = FamilyDetection.assignSpouses data fm) /\
  (forall u, match_union u = None -> parseUnionId u = []) /\
  (forall u id1 id2, match_union u = Some (id1, id2) ->
     parseUnionId u =
     [ if JsString.startsWith "mem_" id1 then id1 else ("mem_" ++ id1)%string;
       if JsString.startsWith "mem_" id2 then id2 else ("mem_" ++ id2)%string ]) /\
  (forall data fm p,
     ~ In p fm ->
     (forall m u, In m fm -> In (m, u) (links data) ->
        ~ In p (parseUnionId u)) ->
     ~ In p (FamilyDetection.assignSpouses data fm)) /\
  (forall a b,
     a <> ""%string -> b <> ""%string ->
     all_chars not_underscore b = true ->
     on_one_line a = true -> on_one_line b = true ->
     match_union ("u_" ++ a ++ "_" ++ b) = Some (a, b)) /\
  (forall u a b,
     match_union u = Some (a, b) ->
     exists pre post,
       u = (pre ++ "u_" ++ a ++ "_" ++ b ++ post)%string /\
       a <> ""%string /\ b <> ""%string).
Proof.
  split; [exact assignSpouses_In |].
  split; [exact assignSpousesToFamilies_members |].
  split.
  { intros u H. unfold parseUnionId. now rewrite H. }
  split.
  { intros u id1 id2 H. unfold parseUnionId. now rewrite H. }
  split.
  { intros data fm p Hp Hnone Hin.
    apply assignSpouses_In in Hin as [Hin | (m & u & Hm & Hl & _ & Hq & _)].
    - now apply Hp.
    - exact (Hnone m u Hm Hl Hq). }
  split.
  - exact UnionIdFacts.match_union_built.
  - exact UnionIdFacts.match_union_sound.
Qed.

(** Both partners have an edge to the union [u_x]; its id names nobody,
    so the spouse does not join the family of the root.  On the
    intermarriage graph the id [u_2_4] names mem_2 and mem_4, and mem_4
    joins the set of mem_2. *)
Lemma assignSpouses_by_union_id_witness :
  (In ("mem_2", "u_x") (links Scenarios.unnamedUnion) /\
   parseUnionId "u_x" = [] /\
   ~ In "mem_2" (FamilyDetection.assignSpouses Scenarios.unnamedUnion ["mem_1"]))
  /\
  (match_union "u_2_4" = Some ("2", "4") /\
   parseUnionId "u_2_4" = ["mem_2"; "mem_4"] /\
   In "mem_4" (FamilyDetection.assignSpouses Scenarios.intermarriage ["mem_2"]))
  %string.
Proof.
  destruct assignSpouses_by_union_id
    as (Hiff & _ & Hnone & Hsome & Hnot & Hbuilt & _).
  split.
  - split; [right; left; reflexivity |].
    split; [apply Hnone; reflexivity |].
    apply Hnot.
    + intros [H | []]. discriminate.
    + intros m u [<- | []] [H | [H | []]].
      * injection H as <-. rewrite (Hnone "u_x" eq_refl). intros [].
      * discriminate.
  - assert (match_union "u_2_4" = Some ("2", "4"))%string as Hm
      by (apply (Hbuilt "2" "4")%string; try discriminate; reflexivity).
    assert (parseUnionId "u_2_4" = ["mem_2"; "mem_4"])%string as Hp
      by (exact (Hsome _ _ _ Hm)).
    split; [exact Hm | split; [exact Hp |]].
    apply Hiff. right. exists "mem_2"%string, "u_2_4"%string.
    split; [now left |].
    split; [simpl; tauto |].
    split; [reflexivity |].
    split; [rewrite Hp; right; now left |].
    split; [discriminate | split; [discriminate | reflexivity]].
Defined.

End SpouseFacts.

(* ------------------------------------------------------------------ *)
(** * The intermarriage scenario and the default selection *)

Module MembershipFacts.
Import Graph Families Notions CollectionFacts.

(** C2, as amended - on the intermarriage graph (root Y = mem_1 with
    child B = mem_2, root A = mem_3 with child C = mem_4, union of B and
    C with child D = mem_5) the first revision lists both families, Y's
    and A's, for B, for C and for D; the patrilineal revision lists both
    for B and for C, and for D the family of its father alone. *)
Theorem intermarriage_memberships :
  (exists r,
     FamilyDetection.detectFamilies Scenarios.intermarriage = Returned r /\
     map rootMemberId (FamilyDetection.families r) = ["mem_1"; "mem_3"] /\
     map id (FamilyDetection.families r) = ["family_mem_1"; "family_mem_3"] /\
     JsMap.get "mem_2" (FamilyDetection.memberToFamilies r)
       = Some ["family_mem_1"; "family_mem_3"] /\
     JsMap.get "mem_4" (FamilyDetection.memberToFamilies r)
       = Some ["family_mem_1"; "family_mem_3"] /\
     JsMap.get "mem_5" (FamilyDetection.memberToFamilies r)
       = Some ["family_mem_1"; "family_mem_3"]) /\
  (exists r,
     Patrilineal.detectFamilies Scenarios.intermarriage = Returned r /\
     map rootMemberId (Patrilineal.families r) = ["mem_1"; "mem_3"] /\
     map id (Patrilineal.families r) = ["family_mem_1"; "family_mem_3"] /\
     JsMap.get "mem_2" (Patrilineal.memberToFamilies r)
       = Some ["family_mem_1"; "family_mem_3"] /\
     JsMap.get "mem_4" (Patrilineal.memberToFamilies r)
       = Some ["family_mem_3"; "family_mem_1"] /\
     JsMap.get "mem_5" (Patrilineal.memberToFamilies r)
       = Some ["family_mem_1"]).
Proof.
  split.
  - eexists. split; [vm_compute; reflexivity |]. repeat split.
  - eexists. split; [vm_compute; reflexivity |]. repeat split.
Qed.

(** In the patrilineal revision the list of D does not have length 2. *)
Lemma intermarriage_child_single_family :
  ~ (forall r,
       Patrilineal.detectFamilies Scenarios.intermarriage = Returned r ->
       option_map (@List.length string)
         (JsMap.get "mem_5" (Patrilineal.memberToFamilies r)) = Some 2%nat).
Proof.
  intros H.
  destruct (DetectionFacts.detectFamilies_patrilineal_returns
              Scenarios.intermarriage) as [r Hr].
  specialize (H r Hr).
  vm_compute in Hr. injection Hr as <-. discriminate.
Qed.

Lemma of_list_In (l : list string) (x : string) :
  In x (JsSet.of_list l) <-> In x l.
Proof.
  unfold JsSet.of_list.
  rewrite (fold_adds _ (fun a z => z = a)).
  - split.
    + intros [[] | (a & Ha & ->)]. exact Ha.
    + intros H. right. now exists x.
  - intros acc a z. apply add_In.
Qed.

(** C8, as amended - first revision: for a non-empty current person id
    with a non-empty list in [memberToFamilies] the result holds exactly
    the ids of that list, and in every other case exactly the ids of all
    families.  Patrilineal revision: the result is the birth family of
    the current person alone when it has one, otherwise the first family
    alone, and empty when there is no family. *)
Theorem getDefaultActiveFamilies_spec :
  (forall families memberToFamilies nodeId nodeFamilies,
     truthy nodeId = true ->
     JsMap.get nodeId memberToFamilies = Some nodeFamilies ->
     nodeFamilies <> [] ->
     forall f,
       In f (FamilyDetection.getDefaultActiveFamilies families memberToFamilies
               (Some nodeId))
       <-> In f nodeFamilies) /\
  (forall families memberToFamilies currentNodeId,
     (currentNodeId = None \/
      exists nodeId, currentNodeId = Some nodeId /\
        (truthy nodeId = false \/
         JsMap.get nodeId memberToFamilies = None \/
         JsMap.get nodeId memberToFamilies = Some [])) ->
     forall f,
       In f (FamilyDetection.getDefaultActiveFamilies families memberToFamilies
               currentNodeId)
       <-> In f (map id families)) /\
  (forall families memberBirthFamily nodeId birthFamilyId,
     truthy nodeId = true ->
     JsMap.get nodeId memberBirthFamily = Some birthFamilyId ->
     truthy birthFamilyId = true ->
     Patrilineal.getDefaultActiveFamilies families memberBirthFamily
       (Some nodeId) = [birthFamilyId]) /\
  (forall families memberBirthFamily currentNodeId,
     (currentNodeId = None \/
      exists nodeId, currentNodeId = Some nodeId /\
        (truthy nodeId = false \/
         JsMap.get nodeId memberBirthFamily = None \/
         JsMap.get nodeId memberBirthFamily = Some ""%string)) ->
     Patrilineal.getDefaultActiveFamilies families memberBirthFamily
       currentNodeId
     = match families with
       | first :: _ => [id first]
       | [] => []
       end).
Proof.
  split.
  { intros fams m2f nodeId nf Ht Hg Hne f.
    unfold FamilyDetection.getDefaultActiveFamilies. rewrite Ht, Hg.
    destruct nf as [|a r]; [congruence |]. simpl (0 <? _)%nat.
    apply of_list_In. }
  split.
  { intros fams m2f cur Hcase f.
    unfold FamilyDetection.getDefaultActiveFamilies.
    destruct Hcase as [-> | (nodeId & -> & [Ht | [Hg | Hg]])].
    - apply of_list_In.
    - rewrite Ht. apply of_list_In.
    - rewrite Hg. destruct (truthy nodeId); apply of_list_In.
    - rewrite Hg. destruct (truthy nodeId); apply of_list_In. }
  split.
  { intros fams birth nodeId b Ht Hg Hb.
    unfold Patrilineal.getDefaultActiveFamilies. rewrite Ht, Hg, Hb.
    reflexivity. }
  intros fams birth cur Hcase.
  unfold Patrilineal.getDefaultActiveFamilies.
  destruct Hcase as [-> | (nodeId & -> & [Ht | [Hg | Hg]])].
  - destruct fams; reflexivity.
  - rewrite Ht. destruct fams; reflexivity.
  - rewrite Hg. destruct (truthy nodeId); destruct fams; reflexivity.
  - rewrite Hg. destruct (truthy nodeId); destruct fams; reflexivity.
Qed.

(** The calls of the tests: a person in two families, and no current
    person. *)
Lemma getDefaultActiveFamilies_spec_witness :
  (In "family_mem_3"
     (FamilyDetection.getDefaultActiveFamilies Scenarios.twoFamilies
        Scenarios.testMemberToFamilies (Some "mem_2"))
   <-> In "family_mem_3" ["family_mem_1"; "family_mem_3"]) /\
  (In "family_mem_3"
     (FamilyDetection.getDefaultActiveFamilies Scenarios.twoFamilies [] None)
   <-> In "family_mem_3" (map id Scenarios.twoFamilies)) /\
  Patrilineal.getDefaultActiveFamilies Scenarios.twoFamilies
    [("mem_2", "family_mem_3")] (Some "mem_2") = ["family_mem_3"] /\
  Patrilineal.getDefaultActiveFamilies Scenarios.twoFamilies [] None
    = ["family_mem_1"].
Proof.
  destruct getDefaultActiveFamilies_spec as (H1 & H2 & H3 & H4).
  split; [| split; [| split]].
  - apply (H1 Scenarios.twoFamilies Scenarios.testMemberToFamilies "mem_2"
             ["family_mem_1"; "family_mem_3"]);
      [reflexivity | reflexivity | discriminate].
  - apply (H2 Scenarios.twoFamilies [] None). now left.
  - apply (H3 Scenarios.twoFamilies [("mem_2", "family_mem_3")] "mem_2"
             "family_mem_3"); reflexivity.
  - apply (H4 Scenarios.twoFamilies [] None). now left.
Defined.

(** Without a current person the patrilineal revision leaves the second
    family out. *)
Lemma getDefaultActiveFamilies_first_only :
  In "family_mem_3" (map id Scenarios.twoFamilies) /\
  ~ In "family_mem_3"
      (Patrilineal.getDefaultActiveFamilies Scenarios.twoFamilies [] None).
Proof.
  split.
  - right. left. reflexivity.
  - intros [H | []]. discriminate.
Qed.

End MembershipFacts.

(* ------------------------------------------------------------------ *)
(** * Pressure between two nodes *)

Module PressureFacts.
Import DagRelaxation.
Local Open Scope Q_scope.

Lemma Qle_bool_false (a b : Q) : Qle_bool a b = false -> b < a.
Proof.
  intros H. apply Qnot_le_lt. intros Hle.
  apply Qle_bool_iff in Hle. congruence.
Qed.

(** The value depends on the two nodes through the difference of their
    coordinates only. *)
Lemma get_pressure_difference (n1 m1 n2 m2 : D3Node) (s : Q) :
  x m2 - x n2 == x m1 - x n1 ->
  get_pressure n2 m2 s == get_pressure n1 m1 s.
Proof.
  intros Hd. unfold get_pressure.
  assert (Qabs (x m2 - x n2) == Qabs (x m1 - x n1)) as Ha
    by (apply Qabs_wd; exact Hd).
  destruct (Qle_bool (s - Qabs (x m2 - x n2)) 0) eqn:E2;
    destruct (Qle_bool (s - Qabs (x m1 - x n1)) 0) eqn:E1;
    try apply Qle_bool_iff in E1; try apply Qle_bool_iff in E2;
    try apply Qle_bool_false in E1; try apply Qle_bool_false in E2;
    try lra.
  destruct (Qcompare_spec (x m2 - x n2) 0);
    destruct (Qcompare_spec (x m1 - x n1) 0); lra.
Qed.

Lemma get_pressure_cases (node neighbor : D3Node) (s : Q) :
  (x node < x neighbor -> Qabs (x neighbor - x node) < s ->
     get_pressure node neighbor s == s - Qabs (x neighbor - x node)) /\
  (x neighbor < x node -> Qabs (x neighbor - x node) < s ->
     get_pressure node neighbor s == - (s - Qabs (x neighbor - x node))) /\
  (s <= Qabs (x neighbor - x node) -> get_pressure node neighbor s == 0).
Proof.
  unfold get_pressure.
  destruct (Qle_bool (s - Qabs (x neighbor - x node)) 0) eqn:E;
    [apply Qle_bool_iff in E | apply Qle_bool_false in E].
  - repeat split; intros; lra.
  - destruct (Qcompare_spec (x neighbor - x node) 0); repeat split; intros; lra.
Qed.

Lemma get_pressure_exchanged (node neighbor : D3Node) (s : Q) :
  get_pressure node neighbor s == pressure_as_specified neighbor node s.
Proof.
  unfold get_pressure, pressure_as_specified.
  assert (Qabs (x node - x neighbor) == Qabs (x neighbor - x node)) as Ha.
  { rewrite <- Qabs_opp. apply Qabs_wd. ring. }
  destruct (Qle_bool (s - Qabs (x neighbor - x node)) 0) eqn:E1;
    destruct (Qle_bool s (Qabs (x node - x neighbor))) eqn:E2;
    try apply Qle_bool_iff in E1; try apply Qle_bool_iff in E2;
    try apply Qle_bool_false in E1; try apply Qle_bool_false in E2;
    try lra.
  destruct (Qcompare_spec (x neighbor - x node) 0);
    destruct (Qcompare_spec (x node) (x neighbor)); lra.
Qed.

Lemma get_pressure_meets_expectations :
  Forall
    (fun c : Q * Q * Q * Q =>
       let '(a, b, s, e) := c in
       get_pressure (createMockNode "mem_1" a 0) (createMockNode "mem_0" b 0) s
       == e)
    get_pressure_expectations.
Proof. repeat constructor. Qed.

(** C5, as amended - [get_pressure(node, neighbor, minSpacing)] is
    [+(minSpacing - gap)] when the neighbor is to the right and closer
    than [minSpacing], [-(minSpacing - gap)] when it is to the left and
    closer, and 0 when the gap is at least [minSpacing]: the rule of the
    spec with node and neighbor exchanged.  With A.x = 50, B.x = 0 and
    size 100 the value is -50, with A.x = 0, B.x = 50 it is +50, and it
    is 0 when the gap equals the size. *)
Theorem get_pressure_sign :
  (forall node neighbor minSpacing,
     let gap := Qabs (x neighbor - x node) in
     (x node < x neighbor -> gap < minSpacing ->
        get_pressure node neighbor minSpacing == minSpacing - gap) /\
     (x neighbor < x node -> gap < minSpacing ->
        get_pressure node neighbor minSpacing == - (minSpacing - gap)) /\
     (minSpacing <= gap -> get_pressure node neighbor minSpacing == 0)) /\
  (forall node neighbor minSpacing,
     get_pressure node neighbor minSpacing
     == pressure_as_specified neighbor node minSpacing) /\
  get_pressure (createMockNode "A" 50 0) (createMockNode "B" 0 0) 100 == -(50) /\
  get_pressure (createMockNode "A" 0 0) (createMockNode "B" 50 0) 100 == 50 /\
  get_pressure (createMockNode "A" 0 0) (createMockNode "B" 100 0) 100 == 0.
Proof.
  split; [intros node neighbor s; apply get_pressure_cases |].
  split; [exact get_pressure_exchanged |].
  repeat split.
Qed.

(** The three regimes at the positions of the test file. *)
Lemma get_pressure_sign_witness :
  get_pressure (createMockNode "mem_0" 0 0) (createMockNode "mem_1" 50 0) 100
    == 100 - Qabs (50 - 0) /\
  get_pressure (createMockNode "mem_1" 50 0) (createMockNode "mem_0" 0 0) 100
    == - (100 - Qabs (0 - 50)) /\
  get_pressure (createMockNode "mem_1" 200 0) (createMockNode "mem_0" 0 0) 100
    == 0.
Proof.
  destruct get_pressure_sign as (H & _).
  split; [| split].
  - apply (H (createMockNode "mem_0" 0 0) (createMockNode "mem_1" 50 0) 100);
      reflexivity.
  - apply (H (createMockNode "mem_1" 50 0) (createMockNode "mem_0" 0 0) 100);
      reflexivity.
  - apply (H (createMockNode "mem_1" 200 0) (createMockNode "mem_0" 0 0) 100).
    discriminate.
Defined.

(** With A.x = 50, B.x = 0 and size 100 the pressure is not +50. *)
Lemma get_pressure_not_plus_50 :
  ~ get_pressure (createMockNode "A" 50 0) (createMockNode "B" 0 0) 100 == 50.
Proof. discriminate. Qed.

End PressureFacts.

(* ------------------------------------------------------------------ *)
(** * The closing sweep *)

Module PlacementFacts.
Import DagRelaxation PressureFacts.
Local Open Scope Q_scope.

Lemma with_x_same (n : D3Node) : with_x n (x n) = n.
Proof. now destruct n. Qed.

Lemma Qmax_keeps (a b : Q) : b <= a -> Qmax a b = a.
Proof.
  intros H. unfold Qmax, GenericMinMax.gmax.
  destruct (Qcompare_spec a b); [reflexivity | lra | reflexivity].
Qed.

Lemma same_level_true (a b : D3Node) : same_level a b = true <-> y a == y b.
Proof. apply Qeq_bool_iff. Qed.

Lemma same_level_false (a b : D3Node) : same_level a b = false <-> ~ y a == y b.
Proof.
  rewrite <- same_level_true. destruct (same_level a b); split; congruence.
Qed.

(** ** Sorting keeps the nodes *)

Lemma insert_by_x_perm (n : D3Node) (l : list D3Node) :
  Permutation (insert_by_x n l) (n :: l).
Proof.
  induction l as [|m r IH]; simpl; [reflexivity |].
  destruct (Qle_bool (x n) (x m)); [reflexivity |].
  rewrite IH. apply perm_swap.
Qed.

Lemma sort_by_x_perm (l : list D3Node) : Permutation (sort_by_x l) l.
Proof.
  induction l as [|n r IH]; simpl; [reflexivity |].
  rewrite insert_by_x_perm. now constructor.
Qed.

Lemma Forall2_In_r {A B} (R : A -> B -> Prop) (l1 : list A) (l2 : list B) :
  Forall2 R l1 l2 -> forall b, In b l2 -> exists a, In a l1 /\ R a b.
Proof.
  induction 1 as [|a b l1 l2 Hab _ IH]; intros z Hz; [destruct Hz |].
  destruct Hz as [<- | Hz].
  - exists a. split; [now left | exact Hab].
  - destruct (IH z Hz) as (a' & Ha' & Hr). exists a'. split; [now right | exact Hr].
Qed.

Lemma Forall2_concat {A B} (R : A -> B -> Prop) (L1 : list (list A))
  (L2 : list (list B)) :
  Forall2 (Forall2 R) L1 L2 -> Forall2 R (List.concat L1) (List.concat L2).
Proof.
  induction 1 as [|l1 l2 r1 r2 H _ IH]; simpl; [constructor |].
  now apply Forall2_app.
Qed.

Lemma Forall2_map_same {A B} (R : A -> B -> Prop) (f : A -> B) (l : list A) :
  (forall a, R a (f a)) -> Forall2 R l (map f l).
Proof. intros H. induction l; simpl; constructor; auto. Qed.

Lemma Permutation_concat_map {A} (f : list A -> list A) (L : list (list A)) :
  (forall l, Permutation (f l) l) ->
  Permutation (List.concat (map f L)) (List.concat L).
Proof.
  intros H. induction L as [|l r IH]; simpl; [reflexivity |].
  now rewrite H, IH.
Qed.

Section Sweep.

Variable nodeSize : Q.
Hypothesis nodeSize_nonneg : 0 <= nodeSize.

Lemma sweep_spaced (l : list D3Node) :
  forall p, spaced_from nodeSize p (sweep nodeSize p l).
Proof.
  induction l as [|n r IH]; intros p; simpl; [exact I |].
  split; [apply Q.le_max_r | apply IH].
Qed.

Lemma sweep_fixed (l : list D3Node) :
  forall p, spaced_from nodeSize p l -> sweep nodeSize p l = l.
Proof.
  induction l as [|n r IH]; intros p; simpl; [reflexivity |].
  intros [H1 H2]. rewrite (Qmax_keeps _ _ H1), with_x_same.
  f_equal. now apply IH.
Qed.

Lemma sweep_moved (l : list D3Node) :
  forall p, Forall2 moved_right l (sweep nodeSize p l).
Proof.
  induction l as [|n r IH]; intros p; simpl; constructor.
  - repeat split. simpl. apply Q.le_max_l.
  - apply IH.
Qed.

Lemma spaced_from_tail (p : Q) (l : list D3Node) :
  spaced_from nodeSize p l -> spaced nodeSize l.
Proof. destruct l as [|n r]; simpl; [trivial | now intros [_ H]]. Qed.

Lemma insert_before (n : D3Node) (l : list D3Node) :
  spaced_from nodeSize (x n) l -> insert_by_x n l = n :: l.
Proof.
  destruct l as [|m r]; simpl; [reflexivity |].
  intros [H _].
  assert (x n <= x m) as Hle by lra.
  apply Qle_bool_iff in Hle. now rewrite Hle.
Qed.

Lemma sort_fixed (l : list D3Node) : spaced nodeSize l -> sort_by_x l = l.
Proof.
  induction l as [|n r IH]; simpl; [reflexivity |].
  intros H. rewrite IH by (eapply spaced_from_tail; exact H).
  now apply insert_before.
Qed.

Lemma enforce_level_spaced (l : list D3Node) :
  spaced nodeSize (enforce_level nodeSize l).
Proof.
  unfold enforce_level. destruct (sort_by_x l) as [|n r]; simpl;
    [exact I | apply sweep_spaced].
Qed.

Lemma enforce_level_fixed (l : list D3Node) :
  spaced nodeSize l -> enforce_level nodeSize l = l.
Proof.
  intros H. unfold enforce_level. rewrite (sort_fixed l H).
  destruct l as [|n r]; [reflexivity |]. f_equal. now apply sweep_fixed.
Qed.

Lemma enforce_level_sorts (l : list D3Node) :
  spaced nodeSize (sort_by_x l) -> enforce_level nodeSize l = sort_by_x l.
Proof.
  unfold enforce_level. destruct (sort_by_x l) as [|n r]; [reflexivity |].
  intros H. f_equal. now apply sweep_fixed.
Qed.

Lemma enforce_level_moved (l : list D3Node) :
  Forall2 moved_right (sort_by_x l) (enforce_level nodeSize l).
Proof.
  unfold enforce_level. destruct (sort_by_x l) as [|n r]; constructor.
  - repeat split. lra.
  - apply sweep_moved.
Qed.

Lemma enforce_level_nonempty (l : list D3Node) :
  l <> [] -> enforce_level nodeSize l <> [].
Proof.
  intros Hl. unfold enforce_level.
  destruct (sort_by_x l) as [|n r] eqn:E; [| discriminate].
  exfalso. apply Hl. apply Permutation_nil.
  rewrite <- E. apply sort_by_x_perm.
Qed.

Lemma enforce_level_from (l : list D3Node) (a' : D3Node) :
  In a' (enforce_level nodeSize l) -> exists a, In a l /\ y a' = y a.
Proof.
  intros H.
  destruct (Forall2_In_r _ _ _ (enforce_level_moved l) a' H)
    as (a & Ha & _ & Hy & _).
  exists a. split; [| exact Hy].
  eapply Permutation_in; [apply sort_by_x_perm | exact Ha].
Qed.

End Sweep.

(** ** Grouping by level *)

Lemma add_to_level_perm (n : D3Node) (ls : list (list D3Node)) :
  Permutation (List.concat (add_to_level n ls)) (n :: List.concat ls).
Proof.
  induction ls as [|l rest IH]; simpl; [reflexivity |].
  destruct l as [|m l']; simpl.
  - exact IH.
  - destruct (same_level m n); simpl.
    + rewrite <- app_assoc. simpl. symmetry.
      exact (Permutation_middle (m :: l') (List.concat rest) n).
    + rewrite IH. symmetry.
      exact (Permutation_middle (m :: l') (List.concat rest) n).
Qed.

Lemma fold_add_perm (ns : list D3Node) :
  forall ls,
    Permutation
      (List.concat (fold_left (fun ls n => add_to_level n ls) ns ls))
      (List.concat ls ++ ns).
Proof.
  induction ns as [|n r IH]; intros ls; simpl.
  - now rewrite app_nil_r.
  - rewrite IH, add_to_level_perm. apply Permutation_cons_app. reflexivity.
Qed.

Lemma group_levels_perm (ns : list D3Node) :
  Permutation (List.concat (group_levels ns)) ns.
Proof. unfold group_levels. now rewrite fold_add_perm. Qed.

Lemma add_to_level_grouped (n : D3Node) (ls : list (list D3Node)) :
  well_grouped ls -> well_grouped (add_to_level n ls).
Proof.
  induction ls as [|l rest IH]; simpl.
  - intros _. repeat split; try discriminate.
    + intros a b [<- | []] [<- | []]. reflexivity.
    + intros a b _ [].
  - intros (Hne & Hin & Hout & Hrest).
    destruct l as [|m l']; [congruence |].
    destruct (same_level m n) eqn:E.
    + apply same_level_true in E. cbn [well_grouped]. repeat split.
      * discriminate.
      * intros a b Ha Hb.
        assert (forall c, In c ((m :: l') ++ [n]) -> y c == y m) as Hm.
        { intros c Hc. apply in_app_iff in Hc as [Hc | [<- | []]].
          - apply Hin; [exact Hc | now left].
          - now symmetry. }
        rewrite (Hm a Ha), (Hm b Hb). reflexivity.
      * intros a b Ha Hb Heq.
        apply in_app_iff in Ha as [Ha | [<- | []]].
        -- exact (Hout a b Ha Hb Heq).
        -- apply (Hout m b (or_introl eq_refl) Hb). now rewrite E.
      * exact Hrest.
    + apply same_level_false in E. cbn [well_grouped]. repeat split.
      * discriminate.
      * exact Hin.
      * intros a b Ha Hb Heq.
        apply (Permutation_in _ (add_to_level_perm n rest)) in Hb.
        destruct Hb as [<- | Hb].
        -- apply E. rewrite <- Heq. apply Hin; [now left | exact Ha].
        -- exact (Hout a b Ha Hb Heq).
      * now apply IH.
Qed.

Lemma group_levels_grouped (ns : list D3Node) : well_grouped (group_levels ns).
Proof.
  unfold group_levels.
  assert (forall ls, well_grouped ls ->
            well_grouped (fold_left (fun ls n => add_to_level n ls) ns ls))
    as H.
  { induction ns as [|n r IH]; intros ls Hls; simpl; [exact Hls |].
    apply IH. now apply add_to_level_grouped. }
  apply H. exact I.
Qed.

Lemma add_new (n : D3Node) (P : list (list D3Node)) :
  (forall a, In a (List.concat P) -> ~ y a == y n) ->
  add_to_level n P = P ++ [[n]].
Proof.
  induction P as [|l P IH]; simpl; intros H; [reflexivity |].
  destruct l as [|m l'].
  - f_equal. apply IH. exact H.
  - destruct (same_level m n) eqn:E.
    + apply same_level_true in E. exfalso.
      apply (H m); [now left | exact E].
    + f_equal. apply IH. intros a Ha. apply H. simpl.
      right. apply in_app_iff. now right.
Qed.

Lemma add_existing (n m : D3Node) (c : list D3Node)
  (P S : list (list D3Node)) :
  (forall a, In a (List.concat P) -> ~ y a == y n) ->
  y m == y n ->
  add_to_level n (P ++ (m :: c) :: S) = P ++ ((m :: c) ++ [n]) :: S.
Proof.
  intros H Hm. induction P as [|l P IH]; simpl.
  - apply same_level_true in Hm. now rewrite Hm.
  - destruct l as [|k l'].
    + f_equal. apply IH. exact H.
    + destruct (same_level k n) eqn:E.
      * apply same_level_true in E. exfalso.
        apply (H k); [now left | exact E].
      * f_equal. apply IH. intros a Ha. apply H. simpl.
        right. apply in_app_iff. now right.
Qed.

Lemma fold_same (P : list (list D3Node)) (m : D3Node) :
  (forall a, In a (List.concat P) -> ~ y a == y m) ->
  forall r c,
    (forall a, In a r -> y m == y a) ->
    fold_left (fun ls n => add_to_level n ls) r (P ++ [m :: c])
    = P ++ [(m :: c) ++ r].
Proof.
  intros HP. induction r as [|n r IH]; intros c Hr; simpl.
  - now rewrite app_nil_r.
  - rewrite add_existing.
    + simpl. rewrite IH.
      * simpl. now rewrite <- app_assoc.
      * intros a Ha. apply Hr. now right.
    + intros a Ha Heq. apply (HP a Ha). rewrite Heq. symmetry.
      apply Hr. now left.
    + apply Hr. now left.
Qed.

Lemma well_grouped_app (P : list (list D3Node)) (l : list D3Node)
  (G : list (list D3Node)) :
  well_grouped (P ++ l :: G) ->
  l <> [] /\
  (forall a b, In a l -> In b l -> y a == y b) /\
  (forall a b, In a (List.concat P) -> In b l -> ~ y a == y b).
Proof.
  induction P as [|l0 P IH]; simpl.
  - intros (H1 & H2 & _ & _).
    split; [exact H1 | split; [exact H2 | intros a b []]].
  - intros (_ & _ & Hout & Hrest).
    destruct (IH Hrest) as (H1 & H2 & H3).
    split; [exact H1 | split; [exact H2 |]].
    intros a b Ha Hb. apply in_app_iff in Ha as [Ha | Ha].
    + apply (Hout a b Ha). rewrite concat_app. apply in_app_iff. right.
      simpl. apply in_app_iff. now left.
    + now apply H3.
Qed.

Lemma regroup_from (G : list (list D3Node)) :
  forall P,
    well_grouped (P ++ G) ->
    fold_left (fun ls n => add_to_level n ls) (List.concat G) P = P ++ G.
Proof.
  induction G as [|l G IH]; intros P HG; simpl.
  - now rewrite app_nil_r.
  - destruct (well_grouped_app P l G HG) as (Hne & Hin & Hout).
    destruct l as [|m r]; [congruence |]. simpl.
    rewrite fold_left_app.
    rewrite add_new by (intros a Ha; apply (Hout a m Ha); now left).
    rewrite fold_same.
    + simpl. rewrite IH.
      * now rewrite <- app_assoc.
      * now rewrite <- app_assoc.
    + intros a Ha. apply (Hout a m Ha). now left.
    + intros a Ha. apply Hin; [now left | now right].
Qed.

Lemma regroup (G : list (list D3Node)) :
  well_grouped G -> group_levels (List.concat G) = G.
Proof. intros H. unfold group_levels. now rewrite (regroup_from G []). Qed.

Lemma well_grouped_map (f : list D3Node -> list D3Node) :
  (forall l, l <> [] -> f l <> []) ->
  (forall l a', In a' (f l) -> exists a, In a l /\ y a' = y a) ->
  forall G, well_grouped G -> well_grouped (map f G).
Proof.
  intros Hne Hfrom. induction G as [|l G IH]; simpl; [trivial |].
  intros (H1 & H2 & H3 & H4). repeat split.
  - now apply Hne.
  - intros a' b' Ha Hb.
    destruct (Hfrom l a' Ha) as (a & Hia & ->).
    destruct (Hfrom l b' Hb) as (b & Hib & ->). now apply H2.
  - intros a' b' Ha Hb.
    destruct (Hfrom l a' Ha) as (a & Hia & ->).
    apply in_concat in Hb as (l' & Hl' & Hb).
    apply in_map_iff in Hl' as (l0 & <- & Hl0).
    destruct (Hfrom l0 b' Hb) as (b & Hib & ->).
    apply H3; [exact Hia |]. apply in_concat. now exists l0.
  - now apply IH.
Qed.

Lemma group_levels_enforce (nodeSize : Q) (nodes : list D3Node) :
  group_levels (enforce_placement nodeSize nodes)
  = map (enforce_level nodeSize) (group_levels nodes).
Proof.
  unfold enforce_placement. apply regroup.
  apply well_grouped_map.
  - apply enforce_level_nonempty.
  - apply enforce_level_from.
  - apply group_levels_grouped.
Qed.

End PlacementFacts.

(* ------------------------------------------------------------------ *)
(** * enforcePlacement and run *)

Module EngineFacts.
Import DagRelaxation PressureFacts PlacementFacts.
Local Open Scope Q_scope.

Lemma Forall2_map_both {A B C} (R : B -> C -> Prop) (f : A -> B) (g : A -> C)
  (l : list A) :
  (forall a, R (f a) (g a)) -> Forall2 R (map f l) (map g l).
Proof. intros H. induction l; simpl; constructor; auto. Qed.

Lemma moved_right_key (l l' : list D3Node) :
  Forall2 moved_right l l' -> map node_key l = map node_key l'.
Proof.
  induction 1 as [|a b l l' (Hd & Hy & _) _ IH]; simpl; [reflexivity |].
  unfold node_key at 1 3. now rewrite Hd, Hy, IH.
Qed.

Lemma enforce_placement_moves (nodeSize : Q) (nodes : list D3Node) :
  exists p,
    Permutation nodes p /\
    Forall2 moved_right p (enforce_placement nodeSize nodes).
Proof.
  exists (List.concat (map sort_by_x (group_levels nodes))). split.
  - rewrite (Permutation_concat_map sort_by_x _ sort_by_x_perm).
    symmetry. apply group_levels_perm.
  - unfold enforce_placement. apply Forall2_concat.
    apply Forall2_map_both. intros l. apply enforce_level_moved.
Qed.

Lemma single_level (nodes : list D3Node) :
  nodes <> [] ->
  (forall a b, In a nodes -> In b nodes -> y a == y b) ->
  group_levels nodes = [nodes].
Proof.
  intros Hne Hy.
  rewrite <- (app_nil_r nodes) at 1.
  change (nodes ++ []) with (List.concat [nodes]).
  apply regroup. simpl. repeat split; auto.
Qed.

(** C7 - [enforcePlacement] applied twice gives what it gives applied
    once; every node comes out with its id and level and an x that is not
    smaller; when the nodes of every level, taken from left to right, are
    at least [minSpacing] apart, the nodes come out as they went in, and
    in the order given when that order is from left to right. *)
Theorem enforce_placement_idempotent (minSpacing : Q) (nodes : list D3Node) :
  0 <= minSpacing ->
  enforce_placement minSpacing (enforce_placement minSpacing nodes)
  = enforce_placement minSpacing nodes /\
  (exists p,
     Permutation nodes p /\
     Forall2 moved_right p (enforce_placement minSpacing nodes)) /\
  ((forall l, In l (group_levels nodes) -> spaced minSpacing (sort_by_x l)) ->
   Permutation nodes (enforce_placement minSpacing nodes)) /\
  ((forall l, In l (group_levels nodes) -> spaced minSpacing l) ->
   enforce_placement minSpacing nodes = List.concat (group_levels nodes)) /\
  ((forall a b, In a nodes -> In b nodes -> y a == y b) ->
   spaced minSpacing nodes ->
   enforce_placement minSpacing nodes = nodes).
Proof.
  intros Hs. split; [| split; [| split; [| split]]].
  - unfold enforce_placement at 1. rewrite group_levels_enforce, map_map.
    unfold enforce_placement. f_equal. apply map_ext. intros l.
    apply enforce_level_fixed; [exact Hs | apply enforce_level_spaced].
  - apply enforce_placement_moves.
  - intros Hall. unfold enforce_placement.
    rewrite (map_ext_in (enforce_level minSpacing) sort_by_x)
      by (intros l Hl; apply enforce_level_sorts; auto).
    rewrite (Permutation_concat_map sort_by_x _ sort_by_x_perm).
    symmetry. apply group_levels_perm.
  - intros Hall. unfold enforce_placement. f_equal.
    rewrite <- (map_id (group_levels nodes)) at 2.
    apply map_ext_in. intros l Hl. apply enforce_level_fixed; auto.
  - intros Hy Hsp. destruct nodes as [|n r]; [reflexivity |].
    unfold enforce_placement. rewrite single_level by (auto; discriminate).
    simpl. rewrite app_nil_r. now apply enforce_level_fixed.
Qed.

(** The crowded and the well-spaced level of the tests, 100 wide. *)
Lemma enforce_placement_idempotent_witness :
  enforce_placement 100 (enforce_placement 100 crowdedNodes)
  = enforce_placement 100 crowdedNodes /\
  enforce_placement 100 wellSpacedNodes = wellSpacedNodes.
Proof.
  assert (0 <= 100) as H by discriminate.
  split.
  - apply (enforce_placement_idempotent 100 crowdedNodes H).
  - apply (enforce_placement_idempotent 100 wellSpacedNodes H).
    + intros a b Ha Hb. simpl in Ha, Hb.
      destruct Ha as [<- | [<- | [<- | []]]];
        destruct Hb as [<- | [<- | [<- | []]]]; reflexivity.
    + simpl. split; [discriminate | split; [discriminate | exact I]].
Defined.

(** ** The iterative phase keeps the nodes *)

Section Run.

Variable nodeSize : Q.
Variable passes : nat.
Variable damping : Q.
Variable connected : string -> list string.

Lemma relax_sorted_keys (all : list D3Node) (l : list D3Node) :
  forall left,
    map node_key (relax_sorted nodeSize damping connected all left l)
    = map node_key l.
Proof.
  induction l as [|n r IH]; intros left; simpl; [reflexivity |].
  rewrite IH. now destruct left.
Qed.

Lemma relax_pass_keys (before after : list (list D3Node)) (l : list D3Node) :
  Permutation
    (map node_key (relax_pass nodeSize damping connected before after l))
    (map node_key l).
Proof.
  unfold relax_pass. rewrite relax_sorted_keys.
  apply Permutation_map, sort_by_x_perm.
Qed.

Lemma iterate_keys (f : list D3Node -> list D3Node) :
  (forall l, Permutation (map node_key (f l)) (map node_key l)) ->
  forall n l, Permutation (map node_key (iterate n f l)) (map node_key l).
Proof.
  intros Hf. induction n as [|n IH]; intros l; simpl; [reflexivity |].
  now rewrite IH, Hf.
Qed.

Lemma relax_levels_keys (todo : list (list D3Node)) :
  forall before,
    Permutation
      (map node_key
         (List.concat
            (relax_levels nodeSize passes damping connected before todo)))
      (map node_key (List.concat before ++ List.concat todo)).
Proof.
  induction todo as [|l after IH]; intros before; simpl.
  - now rewrite app_nil_r.
  - rewrite IH. rewrite concat_app. simpl. rewrite app_nil_r.
    rewrite !map_app. rewrite <- app_assoc.
    apply Permutation_app_head, Permutation_app_tail.
    apply iterate_keys. intros l0. apply relax_pass_keys.
Qed.

Lemma run_keys (nodes : list D3Node) :
  Permutation (map node_key nodes)
    (map node_key (run nodeSize passes damping connected nodes)).
Proof.
  unfold run.
  destruct (enforce_placement_moves nodeSize
              (List.concat
                 (relax_levels nodeSize passes damping connected []
                    (group_levels nodes)))) as (p & Hp & Hm).
  rewrite <- (moved_right_key _ _ Hm).
  rewrite <- (Permutation_map node_key Hp).
  rewrite relax_levels_keys. simpl.
  symmetry. apply Permutation_map, group_levels_perm.
Qed.

End Run.

(** In exact arithmetic: after [run] the nodes are the ones given (same
    ids, same levels) and, within every level, the nodes ordered by x
    are at least [nodeSize] apart from one to the next. *)
Lemma run_exact_spaced (nodeSize : Q) (passes : nat) (damping : Q)
  (connected : string -> list string) (nodes : list D3Node) :
  0 <= nodeSize ->
  Permutation (map node_key nodes)
    (map node_key (run nodeSize passes damping connected nodes)) /\
  forall level,
    In level (group_levels (run nodeSize passes damping connected nodes)) ->
    spaced nodeSize (sort_by_x level).
Proof.
  intros Hs. split; [apply run_keys |].
  intros level Hin. unfold run in Hin.
  rewrite group_levels_enforce in Hin.
  apply in_map_iff in Hin as (l0 & <- & _).
  rewrite (sort_fixed nodeSize Hs) by apply enforce_level_spaced.
  apply enforce_level_spaced.
Qed.

End EngineFacts.

(* ------------------------------------------------------------------ *)
(** * Translation of the input *)

Module TranslationFacts.
Import DagRelaxation PressureFacts PlacementFacts EngineFacts.
Local Open Scope Q_scope.

Section Shift.

Variable c : Q.

Let S2 := Forall2 (shifted c).
Let S3 := Forall2 (Forall2 (shifted c)).

Lemma shifted_le (n n' m m' : D3Node) :
  shifted c n n' -> shifted c m m' ->
  Qle_bool (x n') (x m') = Qle_bool (x n) (x m).
Proof.
  intros (_ & _ & Hn) (_ & _ & Hm).
  destruct (Qle_bool (x n') (x m')) eqn:E1;
    destruct (Qle_bool (x n) (x m)) eqn:E2; try reflexivity;
    try apply Qle_bool_iff in E1; try apply Qle_bool_iff in E2;
    try apply Qle_bool_false in E1; try apply Qle_bool_false in E2;
    exfalso; lra.
Qed.

Lemma insert_shift (n n' : D3Node) (l l' : list D3Node) :
  shifted c n n' -> S2 l l' -> S2 (insert_by_x n l) (insert_by_x n' l').
Proof.
  intros Hn. induction 1 as [|m m' r r' Hm Hr IH]; simpl.
  - constructor; [exact Hn | constructor].
  - rewrite (shifted_le n n' m m' Hn Hm).
    destruct (Qle_bool (x n) (x m)).
    + constructor; [exact Hn |]. now constructor.
    + constructor; [exact Hm | exact IH].
Qed.

Lemma sort_shift (l l' : list D3Node) :
  S2 l l' -> S2 (sort_by_x l) (sort_by_x l').
Proof.
  induction 1 as [|n n' r r' Hn Hr IH]; simpl; [constructor |].
  now apply insert_shift.
Qed.

Lemma same_level_shift (m m' n n' : D3Node) :
  shifted c m m' -> shifted c n n' -> same_level m' n' = same_level m n.
Proof.
  intros (_ & Hm & _) (_ & Hn & _). unfold same_level. now rewrite Hm, Hn.
Qed.

Lemma add_to_level_shift (n n' : D3Node) (ls ls' : list (list D3Node)) :
  shifted c n n' -> S3 ls ls' -> S3 (add_to_level n ls) (add_to_level n' ls').
Proof.
  intros Hn. induction 1 as [|l l' rest rest' Hl Hrest IH]; simpl.
  - constructor; [| constructor]. constructor; [exact Hn | constructor].
  - destruct Hl as [|m m' t t' Hm Ht].
    + constructor; [constructor | exact IH].
    + rewrite (same_level_shift m m' n n' Hm Hn).
      destruct (same_level m n).
      * constructor; [| exact Hrest].
        change (Forall2 (shifted c) ((m :: t) ++ [n]) ((m' :: t') ++ [n'])).
        apply Forall2_app; [now constructor |].
        constructor; [exact Hn | constructor].
      * constructor; [| exact IH]. now constructor.
Qed.

Lemma group_levels_shift (nodes nodes' : list D3Node) :
  S2 nodes nodes' -> S3 (group_levels nodes) (group_levels nodes').
Proof.
  unfold group_levels. intros H.
  assert (S3 [] []) as H0 by constructor. revert H0.
  generalize (@nil (list D3Node)) at 1 3 as ls.
  generalize (@nil (list D3Node)) as ls'.
  induction H as [|n n' r r' Hn Hr IH]; intros ls' ls H0; simpl; [exact H0 |].
  apply IH. now apply add_to_level_shift.
Qed.

Lemma Qmax_shift (a b a' b' : Q) :
  a' == a + c -> b' == b + c -> Qmax a' b' == Qmax a b + c.
Proof.
  intros Ha Hb.
  destruct (Q.max_spec a b) as [[H1 E1] | [H1 E1]];
    destruct (Q.max_spec a' b') as [[H2 E2] | [H2 E2]];
    rewrite E1, E2; lra.
Qed.

Section Engine.

Variable nodeSize : Q.
Variable passes : nat.
Variable damping : Q.
Variable connected : string -> list string.

Lemma sweep_shift (l l' : list D3Node) :
  S2 l l' ->
  forall p p', p' == p + c ->
    S2 (sweep nodeSize p l) (sweep nodeSize p' l').
Proof.
  induction 1 as [|n n' r r' Hn Hr IH]; intros p p' Hp; simpl; constructor.
  - destruct Hn as (Hd & Hy & Hx). repeat split; simpl; auto.
    apply Qmax_shift; [exact Hx | lra].
  - apply IH. destruct Hn as (_ & _ & Hx). apply Qmax_shift; [exact Hx | lra].
Qed.

Lemma enforce_level_shift (l l' : list D3Node) :
  S2 l l' -> S2 (enforce_level nodeSize l) (enforce_level nodeSize l').
Proof.
  intros H. apply sort_shift in H. unfold enforce_level.
  destruct H as [|n n' r r' Hn Hr]; constructor; [exact Hn |].
  apply sweep_shift; [exact Hr | apply Hn].
Qed.

Lemma S3_map (f g : list D3Node -> list D3Node) :
  (forall l l', S2 l l' -> S2 (f l) (g l')) ->
  forall L L', S3 L L' -> S3 (map f L) (map g L').
Proof.
  intros H. induction 1 as [|l l' r r' Hl Hr IH]; simpl; constructor.
  - now apply H.
  - exact IH.
Qed.

Lemma enforce_placement_shift (nodes nodes' : list D3Node) :
  S2 nodes nodes' ->
  S2 (enforce_placement nodeSize nodes) (enforce_placement nodeSize nodes').
Proof.
  intros H. unfold enforce_placement. apply Forall2_concat.
  apply S3_map; [apply enforce_level_shift | now apply group_levels_shift].
Qed.

Lemma find_node_shift (all all' : list D3Node) (id : string) :
  S2 all all' ->
  match find_node all id, find_node all' id with
  | Some k, Some k' => shifted c k k'
  | None, None => True
  | _, _ => False
  end.
Proof.
  unfold find_node. induction 1 as [|n n' r r' Hn Hr IH]; simpl; [exact I |].
  destruct Hn as (Hd & Hy & Hx). rewrite Hd.
  destruct (String.eqb (data n) id); [| exact IH]. now repeat split.
Qed.

Lemma pulls_shift (all all' : list D3Node) (n n' : D3Node) (ids : list string) :
  S2 all all' -> shifted c n n' ->
  Forall2 Qeq
    (flat_map
       (fun id =>
          match find_node all id with
          | Some k => [get_gravity k n]
          | None => []
          end) ids)
    (flat_map
       (fun id =>
          match find_node all' id with
          | Some k => [get_gravity k n']
          | None => []
          end) ids).
Proof.
  intros Hall (_ & _ & Hx). induction ids as [|id r IH]; simpl; [constructor |].
  pose proof (find_node_shift all all' id Hall) as Hf.
  destruct (find_node all id) as [k|]; destruct (find_node all' id) as [k'|];
    try contradiction; simpl; [| exact IH].
  constructor; [| exact IH].
  destruct Hf as (_ & _ & Hk). unfold get_gravity. lra.
Qed.

Lemma Qsum_eq (l l' : list Q) : Forall2 Qeq l l' -> Qsum l == Qsum l'.
Proof.
  induction 1 as [|a b r r' Hab _ IH]; simpl; [reflexivity |].
  now rewrite Hab, IH.
Qed.

Lemma gravity_on_shift (all all' : list D3Node) (n n' : D3Node) :
  S2 all all' -> shifted c n n' ->
  gravity_on connected all' n' == gravity_on connected all n.
Proof.
  intros Hall Hn. unfold gravity_on.
  pose proof (pulls_shift all all' n n' (connected (data n)) Hall Hn) as Hp.
  destruct Hn as (Hd & _). rewrite Hd.
  destruct Hp as [|a b r r' Hab Hr]; [reflexivity |].
  pose proof (Forall2_length Hr) as Hlen.
  simpl List.length. rewrite <- Hlen.
  assert (Qsum (b :: r') == Qsum (a :: r)) as Hs.
  { symmetry. apply Qsum_eq. now constructor. }
  now rewrite Hs.
Qed.

Lemma relax_sorted_shift (all all' : list D3Node) (l l' : list D3Node) :
  S2 all all' -> S2 l l' ->
  forall left left',
    match left, left' with
    | Some m, Some m' => shifted c m m'
    | None, None => True
    | _, _ => False
    end ->
    S2 (relax_sorted nodeSize damping connected all left l)
       (relax_sorted nodeSize damping connected all' left' l').
Proof.
  intros Hall. induction 1 as [|n n' r r' Hn Hr IH]; intros left left' Hleft;
    cbn [relax_sorted]; constructor.
  - destruct left as [k|]; destruct left' as [k'|]; try contradiction;
      [| exact Hn].
    assert (get_pressure k' n' nodeSize == get_pressure k n nodeSize) as Hl.
    { apply get_pressure_difference.
      destruct Hn as (_ & _ & Hx). destruct Hleft as (_ & _ & Hk). lra. }
    assert (match r' with
            | m :: _ => get_pressure m n' nodeSize
            | [] => 0
            end
            == match r with
               | m :: _ => get_pressure m n nodeSize
               | [] => 0
               end) as Hrt.
    { destruct Hr as [|m m' t t' Hm _]; [reflexivity |].
      apply get_pressure_difference.
      destruct Hn as (_ & _ & Hx). destruct Hm as (_ & _ & Hm). lra. }
    pose proof (gravity_on_shift all all' n n' Hall Hn) as Hg.
    destruct Hn as (Hd & Hy & Hx).
    unfold shifted. cbn [data x y with_x].
    split; [exact Hd | split; [exact Hy |]].
    rewrite !Qred_correct, Hl, Hrt, Hg, Hx. ring.
  - apply IH. exact Hn.
Qed.

Lemma relax_pass_shift (before before' after after' : list (list D3Node))
  (l l' : list D3Node) :
  S3 before before' -> S3 after after' -> S2 l l' ->
  S2 (relax_pass nodeSize damping connected before after l)
     (relax_pass nodeSize damping connected before' after' l').
Proof.
  intros Hb Ha Hl. unfold relax_pass.
  apply relax_sorted_shift; [| now apply sort_shift | exact I].
  apply Forall2_concat. apply Forall2_app; [exact Hb | now constructor].
Qed.

Lemma iterate_shift (f f' : list D3Node -> list D3Node) :
  (forall l l', S2 l l' -> S2 (f l) (f' l')) ->
  forall n l l', S2 l l' -> S2 (iterate n f l) (iterate n f' l').
Proof.
  intros Hf. induction n as [|n IH]; intros l l' Hl; simpl; [exact Hl |].
  apply IH. now apply Hf.
Qed.

Lemma relax_levels_shift (todo todo' : list (list D3Node)) :
  S3 todo todo' ->
  forall before before', S3 before before' ->
    S3 (relax_levels nodeSize passes damping connected before todo)
       (relax_levels nodeSize passes damping connected before' todo').
Proof.
  induction 1 as [|l l' after after' Hl Ha IH]; intros before before' Hb;
    simpl; [exact Hb |].
  apply IH. apply Forall2_app; [exact Hb |].
  constructor; [| constructor].
  apply iterate_shift; [| exact Hl].
  intros k k' Hk. now apply relax_pass_shift.
Qed.

Lemma run_shift (nodes nodes' : list D3Node) :
  S2 nodes nodes' ->
  S2 (run nodeSize passes damping connected nodes)
     (run nodeSize passes damping connected nodes').
Proof.
  intros H. unfold run. apply enforce_placement_shift.
  apply Forall2_concat. apply relax_levels_shift; [| constructor].
  now apply group_levels_shift.
Qed.

End Engine.

End Shift.

(** In exact arithmetic: moving every input x by the same [c] before
    [run] moves every output x by [c] and changes nothing else. *)
Lemma run_exact_translation (nodeSize : Q) (passes : nat) (damping : Q)
  (connected : string -> list string) (c : Q) (nodes : list D3Node) :
  Forall2 (shifted c)
    (run nodeSize passes damping connected nodes)
    (run nodeSize passes damping connected (map (translate c) nodes)).
Proof.
  apply run_shift. apply Forall2_map_same.
  intros n. unfold shifted, translate. cbn [data x y with_x].
  split; [reflexivity | split; reflexivity].
Qed.

End TranslationFacts.

(* ------------------------------------------------------------------ *)
(** * The order of the numbers *)

Module NumberFacts.
Import JsNumber.

Ltac order_cases :=
  repeat match goal with
  | H : context [Pos.compare_cont Eq ?a ?b] |- _ =>
      change (Pos.compare_cont Eq a b) with (Pos.compare a b) in H
  | |- context [Pos.compare_cont Eq ?a ?b] =>
      change (Pos.compare_cont Eq a b) with (Pos.compare a b)
  end;
  repeat match goal with
  | H : context [Z.compare ?a ?b] |- _ => destruct (Z.compare_spec a b)
  | |- context [Z.compare ?a ?b] => destruct (Z.compare_spec a b)
  | H : context [Pos.compare ?a ?b] |- _ => destruct (Pos.compare_spec a b)
  | |- context [Pos.compare ?a ?b] => destruct (Pos.compare_spec a b)
  end;
  simpl in *; subst; try discriminate; try reflexivity; try lia.

Ltac by_shape a b :=
  destruct a as [[] | [] | | [] ? ?], b as [[] | [] | | [] ? ?];
  simpl; try discriminate; try reflexivity; intros; order_cases.

Lemma SFleb_trans (a b c : spec_float) :
  SFleb a b = true -> SFleb b c = true -> SFleb a c = true.
Proof.
  unfold SFleb.
  destruct a as [[] | [] | | [] ? ?], b as [[] | [] | | [] ? ?],
    c as [[] | [] | | [] ? ?];
    simpl; try discriminate; try reflexivity; intros; order_cases.
Qed.

Lemma SFeqb_sym (a b : spec_float) : SFeqb a b = true -> SFeqb b a = true.
Proof. unfold SFeqb. by_shape a b. Qed.

Lemma SFeqb_trans (a b c : spec_float) :
  SFeqb a b = true -> SFeqb b c = true -> SFeqb a c = true.
Proof.
  unfold SFeqb.
  destruct a as [[] | [] | | [] ? ?], b as [[] | [] | | [] ? ?],
    c as [[] | [] | | [] ? ?];
    simpl; try discriminate; try reflexivity; intros; order_cases.
Qed.

Lemma SFleb_total (a b : spec_float) :
  SFleb a a = true -> SFleb b b = true -> SFltb a b = false ->
  SFleb b a = true.
Proof. unfold SFleb, SFltb. by_shape a b. Qed.

Lemma SFleb_refl_l (a b : spec_float) : SFleb a b = true -> SFleb a a = true.
Proof. unfold SFleb. by_shape a b. Qed.

Lemma SFleb_refl_r (a b : spec_float) : SFleb a b = true -> SFleb b b = true.
Proof. unfold SFleb. by_shape a b. Qed.

Lemma SFltb_refl_r (a b : spec_float) : SFltb a b = true -> SFleb b b = true.
Proof. unfold SFleb, SFltb. by_shape a b. Qed.

(** ** On the numbers themselves *)

Lemma leb_trans (a b c : number) :
  PrimFloat.leb a b = true -> PrimFloat.leb b c = true ->
  PrimFloat.leb a c = true.
Proof. rewrite !FloatAxioms.leb_spec. apply SFleb_trans. Qed.

(** A number that compares with some number compares with itself: it is
    no NaN. *)
Lemma leb_refl_l (a b : number) :
  PrimFloat.leb a b = true -> PrimFloat.leb a a = true.
Proof. rewrite !FloatAxioms.leb_spec. apply SFleb_refl_l. Qed.

Lemma leb_refl_r (a b : number) :
  PrimFloat.leb a b = true -> PrimFloat.leb b b = true.
Proof. rewrite !FloatAxioms.leb_spec. apply SFleb_refl_r. Qed.

Lemma ltb_refl_r (a b : number) :
  PrimFloat.ltb a b = true -> PrimFloat.leb b b = true.
Proof.
  rewrite FloatAxioms.ltb_spec, FloatAxioms.leb_spec. apply SFltb_refl_r.
Qed.

(** Of two numbers that are no NaN, one is at most the other. *)
Lemma leb_total (a b : number) :
  PrimFloat.leb a a = true -> PrimFloat.leb b b = true ->
  PrimFloat.ltb a b = false -> PrimFloat.leb b a = true.
Proof.
  rewrite FloatAxioms.ltb_spec, !FloatAxioms.leb_spec. apply SFleb_total.
Qed.

Lemma eqb_sym (a b : number) :
  PrimFloat.eqb a b = true -> PrimFloat.eqb b a = true.
Proof. rewrite !FloatAxioms.eqb_spec. apply SFeqb_sym. Qed.

Lemma eqb_trans (a b c : number) :
  PrimFloat.eqb a b = true -> PrimFloat.eqb b c = true ->
  PrimFloat.eqb a c = true.
Proof. rewrite !FloatAxioms.eqb_spec. apply SFeqb_trans. Qed.

End NumberFacts.

(* ------------------------------------------------------------------ *)
(** * The engine on numbers: levels, the closing sweep, run *)

Module RoundedEngineFacts.
Import JsNumber DagRelaxation64 NumberFacts.
Local Open Scope float_scope.

Lemma level_sym (a b : D3Node) :
  same_level a b = true -> same_level b a = true.
Proof. apply eqb_sym. Qed.

Lemma level_trans (a b c : D3Node) :
  same_level a b = true -> same_level b c = true -> same_level a c = true.
Proof. apply eqb_trans. Qed.

Lemma level_apart (a b c : D3Node) :
  same_level a b = true -> same_level a c = false -> same_level b c = false.
Proof.
  intros Hab Hac. destruct (same_level b c) eqn:E; [| reflexivity].
  rewrite (level_trans a b c Hab E) in Hac. discriminate.
Qed.

Lemma level_pairs (m : D3Node) (l : list D3Node) :
  (forall a, In a l -> same_level m a = true) ->
  forall a b, In a l -> In b l -> same_level a b = true.
Proof.
  intros H a b Ha Hb. apply (level_trans a m b).
  - apply level_sym, H, Ha.
  - apply H, Hb.
Qed.

(** ** Sorting keeps the nodes *)

Lemma rounded_insert_perm (n : D3Node) (l : list D3Node) :
  Permutation (insert_by_x n l) (n :: l).
Proof.
  induction l as [|m r IH]; simpl; [reflexivity |].
  destruct (x n <=? x m); [reflexivity |].
  rewrite IH. apply perm_swap.
Qed.

Lemma rounded_sort_perm (l : list D3Node) : Permutation (sort_by_x l) l.
Proof.
  induction l as [|n r IH]; simpl; [reflexivity |].
  rewrite rounded_insert_perm. now constructor.
Qed.

(** ** The closing sweep *)

Section Sweep.

Variable nodeSize : number.

Lemma rounded_sweep_keys (l : list D3Node) :
  forall p, map node_key (sweep nodeSize p l) = map node_key l.
Proof.
  induction l as [|n r IH]; intros p; simpl; [reflexivity |].
  now rewrite IH.
Qed.

Lemma rounded_level_keys (l : list D3Node) :
  Permutation (map node_key (enforce_level nodeSize l)) (map node_key l).
Proof.
  unfold enforce_level.
  transitivity (map node_key (sort_by_x l)).
  - destruct (sort_by_x l) as [|n r]; [reflexivity |].
    simpl. now rewrite rounded_sweep_keys.
  - apply Permutation_map, rounded_sort_perm.
Qed.

Lemma rounded_level_from (l : list D3Node) (a' : D3Node) :
  In a' (enforce_level nodeSize l) -> exists a, In a l /\ y a' = y a.
Proof.
  intros H. apply (in_map node_key) in H.
  apply (Permutation_in _ (rounded_level_keys l)) in H.
  apply in_map_iff in H as (a & Hk & Ha).
  exists a. split; [exact Ha |]. unfold node_key in Hk. congruence.
Qed.

Lemma rounded_level_length (l : list D3Node) :
  List.length (enforce_level nodeSize l) = List.length l.
Proof.
  rewrite <- (length_map node_key), <- (length_map node_key l).
  apply Permutation_length, rounded_level_keys.
Qed.

(** What the sweep places is spaced, when nothing it placed is a NaN. *)
Lemma rounded_sweep_spaced (l : list D3Node) :
  forall p,
    (p <=? p + nodeSize) = true ->
    forallb (steady nodeSize) (sweep nodeSize p l) = true ->
    spaced_from nodeSize p (sweep nodeSize p l).
Proof.
  induction l as [|n r IH]; intros p Hp Hall; [exact I |].
  cbn [sweep] in *. cbn [forallb spaced_from] in *.
  apply andb_true_iff in Hall as [Hn Hrest].
  unfold steady in Hn. cbn [x with_x] in *.
  split; [| now apply IH].
  destruct (x n <? p + nodeSize) eqn:E.
  - exact (ltb_refl_r _ _ E).
  - apply leb_total; [exact (leb_refl_l _ _ Hn) | exact (leb_refl_r _ _ Hp)
                     | exact E].
Qed.

Lemma rounded_spaced_tail (p : number) (l : list D3Node) :
  spaced_from nodeSize p l -> spaced nodeSize l.
Proof. destruct l as [|n r]; simpl; [trivial | now intros [_ H]]. Qed.

Lemma rounded_insert_before (n : D3Node) (l : list D3Node) :
  steady nodeSize n = true ->
  spaced_from nodeSize (x n) l -> insert_by_x n l = n :: l.
Proof.
  destruct l as [|m r]; simpl; [reflexivity |].
  intros Hn [H _].
  now rewrite (leb_trans _ _ _ Hn H).
Qed.

(** A spaced level is in ascending order. *)
Lemma rounded_sort_fixed (l : list D3Node) :
  forallb (steady nodeSize) l = true ->
  spaced nodeSize l -> sort_by_x l = l.
Proof.
  induction l as [|n r IH]; simpl; [reflexivity |].
  intros Hall H. apply andb_true_iff in Hall as [Hn Hr].
  rewrite IH by (try exact Hr; eapply rounded_spaced_tail; exact H).
  now apply rounded_insert_before.
Qed.

Lemma rounded_level_spaced (l : list D3Node) :
  forallb (steady nodeSize) (enforce_level nodeSize l) = true ->
  spaced nodeSize (enforce_level nodeSize l).
Proof.
  unfold enforce_level. destruct (sort_by_x l) as [|n r]; [intros _; exact I |].
  cbn [forallb spaced]. intros H. apply andb_true_iff in H as [Hn Hr].
  now apply rounded_sweep_spaced.
Qed.

End Sweep.

(** ** Grouping by level *)

Lemma rounded_add_perm (n : D3Node) (ls : list (list D3Node)) :
  Permutation (List.concat (add_to_level n ls)) (n :: List.concat ls).
Proof.
  induction ls as [|l rest IH]; simpl; [reflexivity |].
  destruct l as [|m l']; simpl.
  - exact IH.
  - destruct (same_level m n); simpl.
    + rewrite <- app_assoc. simpl. symmetry.
      exact (Permutation_middle (m :: l') (List.concat rest) n).
    + rewrite IH. symmetry.
      exact (Permutation_middle (m :: l') (List.concat rest) n).
Qed.

Lemma rounded_fold_perm (ns : list D3Node) :
  forall ls,
    Permutation
      (List.concat (fold_left (fun ls n => add_to_level n ls) ns ls))
      (List.concat ls ++ ns).
Proof.
  induction ns as [|n r IH]; intros ls; simpl.
  - now rewrite app_nil_r.
  - rewrite IH, rounded_add_perm. apply Permutation_cons_app. reflexivity.
Qed.

Lemma rounded_group_perm (ns : list D3Node) :
  Permutation (List.concat (group_levels ns)) ns.
Proof. unfold group_levels. now rewrite rounded_fold_perm. Qed.

Lemma rounded_add_grouped (n : D3Node) (ls : list (list D3Node)) :
  well_grouped ls -> well_grouped (add_to_level n ls).
Proof.
  induction ls as [|l rest IH]; simpl.
  - intros _. split; [discriminate |]. split; [left; now exists n |].
    split; [intros a b _ [] | exact I].
  - intros (Hne & Hco & Hout & Hrest).
    destruct l as [|m l']; [congruence |].
    destruct (same_level m n) eqn:E.
    + cbn [well_grouped]. split; [discriminate |].
      split; [right | split; [| exact Hrest]].
      * apply (level_pairs m). intros a Ha.
        apply in_app_iff in Ha as [[<- | Ha] | [<- | []]].
        -- apply (level_trans m n m); [exact E | now apply level_sym].
        -- destruct Hco as [[k Hk] | Hco].
           ++ injection Hk as _ Hl. subst l'. destruct Ha.
           ++ apply Hco; [now left | now right].
        -- exact E.
      * intros a b Ha Hb. apply in_app_iff in Ha as [Ha | [<- | []]].
        -- now apply Hout.
        -- apply (level_apart m); [exact E |].
           apply Hout; [now left | exact Hb].
    + cbn [well_grouped]. split; [discriminate |]. split; [exact Hco |].
      split; [| now apply IH].
      intros a b Ha Hb.
      apply (Permutation_in _ (rounded_add_perm n rest)) in Hb.
      destruct Hb as [<- | Hb]; [| now apply Hout].
      destruct Ha as [<- | Ha]; [exact E |].
      destruct Hco as [[k Hk] | Hco].
      * injection Hk as _ Hl. subst l'. destruct Ha.
      * apply (level_apart m); [| exact E].
        apply Hco; [now left | now right].
Qed.

Lemma rounded_group_grouped (ns : list D3Node) :
  well_grouped (group_levels ns).
Proof.
  unfold group_levels.
  assert (forall ls, well_grouped ls ->
            well_grouped (fold_left (fun ls n => add_to_level n ls) ns ls))
    as H.
  { induction ns as [|n r IH]; intros ls Hls; simpl; [exact Hls |].
    apply IH. now apply rounded_add_grouped. }
  apply H. exact I.
Qed.

Lemma rounded_add_new (n : D3Node) (P : list (list D3Node)) :
  (forall a, In a (List.concat P) -> same_level a n = false) ->
  add_to_level n P = P ++ [[n]].
Proof.
  induction P as [|l P IH]; simpl; intros H; [reflexivity |].
  destruct l as [|m l'].
  - f_equal. apply IH. exact H.
  - rewrite (H m) by now left.
    f_equal. apply IH. intros a Ha. apply H. simpl.
    right. apply in_app_iff. now right.
Qed.

Lemma rounded_add_existing (n m : D3Node) (c : list D3Node)
  (P S : list (list D3Node)) :
  (forall a, In a (List.concat P) -> same_level a n = false) ->
  same_level m n = true ->
  add_to_level n (P ++ (m :: c) :: S) = P ++ ((m :: c) ++ [n]) :: S.
Proof.
  intros H Hm. induction P as [|l P IH]; simpl.
  - now rewrite Hm.
  - destruct l as [|k l'].
    + f_equal. apply IH. exact H.
    + rewrite (H k) by now left.
      f_equal. apply IH. intros a Ha. apply H. simpl.
      right. apply in_app_iff. now right.
Qed.

Lemma rounded_fold_same (P : list (list D3Node)) (m : D3Node) :
  forall r c,
    (forall a b, In a (List.concat P) -> In b r -> same_level a b = false) ->
    (forall a, In a r -> same_level m a = true) ->
    fold_left (fun ls n => add_to_level n ls) r (P ++ [m :: c])
    = P ++ [(m :: c) ++ r].
Proof.
  induction r as [|n r IH]; intros c HP Hr; simpl.
  - now rewrite app_nil_r.
  - rewrite rounded_add_existing.
    + simpl. rewrite IH.
      * simpl. now rewrite <- app_assoc.
      * intros a b Ha Hb. apply HP; [exact Ha | now right].
      * intros a Ha. apply Hr. now right.
    + intros a Ha. apply HP; [exact Ha | now left].
    + apply Hr. now left.
Qed.

Lemma rounded_grouped_app (P : list (list D3Node)) (l : list D3Node)
  (G : list (list D3Node)) :
  well_grouped (P ++ l :: G) ->
  l <> [] /\
  ((exists n, l = [n]) \/
   (forall a b, In a l -> In b l -> same_level a b = true)) /\
  (forall a b, In a (List.concat P) -> In b l -> same_level a b = false).
Proof.
  induction P as [|l0 P IH]; simpl.
  - intros (H1 & H2 & _ & _).
    split; [exact H1 | split; [exact H2 | intros a b []]].
  - intros (_ & _ & Hout & Hrest).
    destruct (IH Hrest) as (H1 & H2 & H3).
    split; [exact H1 | split; [exact H2 |]].
    intros a b Ha Hb. apply in_app_iff in Ha as [Ha | Ha].
    + apply (Hout a b Ha). rewrite concat_app. apply in_app_iff. right.
      simpl. apply in_app_iff. now left.
    + now apply H3.
Qed.

Lemma rounded_regroup_from (G : list (list D3Node)) :
  forall P,
    well_grouped (P ++ G) ->
    fold_left (fun ls n => add_to_level n ls) (List.concat G) P = P ++ G.
Proof.
  induction G as [|l G IH]; intros P HG; simpl.
  - now rewrite app_nil_r.
  - destruct (rounded_grouped_app P l G HG) as (Hne & Hco & Hout).
    destruct l as [|m r]; [congruence |]. simpl.
    rewrite fold_left_app.
    rewrite rounded_add_new by (intros a Ha; apply (Hout a m Ha); now left).
    rewrite rounded_fold_same.
    + simpl. rewrite IH.
      * now rewrite <- app_assoc.
      * now rewrite <- app_assoc.
    + intros a b Ha Hb. apply Hout; [exact Ha | now right].
    + intros a Ha. destruct Hco as [[k Hk] | Hco].
      * injection Hk as _ Hl. subst r. destruct Ha.
      * apply Hco; [now left | now right].
Qed.

Lemma rounded_regroup (G : list (list D3Node)) :
  well_grouped G -> group_levels (List.concat G) = G.
Proof.
  intros H. unfold group_levels. now rewrite (rounded_regroup_from G []).
Qed.

Lemma rounded_grouped_map (f : list D3Node -> list D3Node) :
  (forall l, List.length (f l) = List.length l) ->
  (forall l a', In a' (f l) -> exists a, In a l /\ y a' = y a) ->
  forall G, well_grouped G -> well_grouped (map f G).
Proof.
  intros Hlen Hfrom. induction G as [|l G IH]; simpl; [trivial |].
  intros (H1 & H2 & H3 & H4). repeat split.
  - intros E. apply H1. apply length_zero_iff_nil.
    rewrite <- Hlen, E. reflexivity.
  - destruct H2 as [[n ->] | H2].
    + left. specialize (Hlen [n]). simpl in Hlen.
      destruct (f [n]) as [|k [|k' t]]; try discriminate. now exists k.
    + right. intros a' b' Ha Hb.
      destruct (Hfrom l a' Ha) as (a & Hia & Hya).
      destruct (Hfrom l b' Hb) as (b & Hib & Hyb).
      unfold same_level. rewrite Hya, Hyb. now apply H2.
  - intros a' b' Ha Hb.
    destruct (Hfrom l a' Ha) as (a & Hia & Hya).
    apply in_concat in Hb as (l' & Hl' & Hb).
    apply in_map_iff in Hl' as (l0 & <- & Hl0).
    destruct (Hfrom l0 b' Hb) as (b & Hib & Hyb).
    unfold same_level. rewrite Hya, Hyb.
    apply H3; [exact Hia |]. apply in_concat. now exists l0.
  - now apply IH.
Qed.

Lemma rounded_group_enforce (nodeSize : number) (nodes : list D3Node) :
  group_levels (enforce_placement nodeSize nodes)
  = map (enforce_level nodeSize) (group_levels nodes).
Proof.
  unfold enforce_placement. apply rounded_regroup.
  apply rounded_grouped_map.
  - apply rounded_level_length.
  - apply rounded_level_from.
  - apply rounded_group_grouped.
Qed.

(** ** The nodes stay the ones given *)

Lemma rounded_concat_keys (f : list D3Node -> list D3Node)
  (L : list (list D3Node)) :
  (forall l, Permutation (map node_key (f l)) (map node_key l)) ->
  Permutation (map node_key (List.concat (map f L)))
    (map node_key (List.concat L)).
Proof.
  intros H. induction L as [|l r IH]; simpl; [reflexivity |].
  rewrite !map_app. now rewrite H, IH.
Qed.

Section Run.

Variable nodeSize : number.
Variable passes : nat.
Variable damping : number.
Variable connected : string -> list string.

Lemma rounded_relax_sorted_keys (all : list D3Node) (l : list D3Node) :
  forall left,
    map node_key (relax_sorted nodeSize damping connected all left l)
    = map node_key l.
Proof.
  induction l as [|n r IH]; intros left; simpl; [reflexivity |].
  rewrite IH. now destruct left.
Qed.

Lemma rounded_pass_keys (before after : list (list D3Node))
  (l : list D3Node) :
  Permutation
    (map node_key (relax_pass nodeSize damping connected before after l))
    (map node_key l).
Proof.
  unfold relax_pass. rewrite rounded_relax_sorted_keys.
  apply Permutation_map, rounded_sort_perm.
Qed.

Lemma rounded_iterate_keys (f : list D3Node -> list D3Node) :
  (forall l, Permutation (map node_key (f l)) (map node_key l)) ->
  forall n l,
    Permutation (map node_key (DagRelaxation.iterate n f l)) (map node_key l).
Proof.
  intros Hf. induction n as [|n IH]; intros l; simpl; [reflexivity |].
  now rewrite IH, Hf.
Qed.

Lemma rounded_levels_keys (todo : list (list D3Node)) :
  forall before,
    Permutation
      (map node_key
         (List.concat
            (relax_levels nodeSize passes damping connected before todo)))
      (map node_key (List.concat before ++ List.concat todo)).
Proof.
  induction todo as [|l after IH]; intros before; simpl.
  - now rewrite app_nil_r.
  - rewrite IH. rewrite concat_app. simpl. rewrite app_nil_r.
    rewrite !map_app. rewrite <- app_assoc.
    apply Permutation_app_head, Permutation_app_tail.
    apply rounded_iterate_keys. intros l0. apply rounded_pass_keys.
Qed.

Lemma rounded_run_keys (nodes : list D3Node) :
  Permutation (map node_key nodes)
    (map node_key (run nodeSize passes damping connected nodes)).
Proof.
  unfold run, enforce_placement. symmetry.
  rewrite (rounded_concat_keys (enforce_level nodeSize) _
             (rounded_level_keys nodeSize)).
  rewrite (Permutation_map node_key (rounded_group_perm _)).
  rewrite rounded_levels_keys. simpl.
  apply Permutation_map, rounded_group_perm.
Qed.

End Run.

Lemma forallb_concat_level {A} (p : A -> bool) (L : list (list A))
  (l : list A) :
  forallb p (List.concat L) = true -> In l L -> forallb p l = true.
Proof.
  intros H Hl. apply forallb_forall. intros a Ha.
  rewrite forallb_forall in H. apply H. apply in_concat. now exists l.
Qed.

(** C1, as amended - after [run] the nodes are the ones given (same ids,
    same levels) and, within every level, from one node to the next in
    the order of their x the rounded sum [x + nodeSize] is at most the x
    of the next: the gap is [nodeSize] up to the rounding of that one
    addition.  This holds whenever every resulting x is at most its own
    rounded sum [x + nodeSize], which rules out a NaN among the
    resulting x. *)
Theorem run_levels_spaced (nodeSize : number) (passes : nat)
  (damping : number) (connected : string -> list string)
  (nodes : list D3Node) :
  forallb (steady nodeSize) (run nodeSize passes damping connected nodes)
  = true ->
  Permutation (map node_key nodes)
    (map node_key (run nodeSize passes damping connected nodes)) /\
  forall level,
    In level (group_levels (run nodeSize passes damping connected nodes)) ->
    spaced nodeSize (sort_by_x level).
Proof.
  intros Hall. split; [apply rounded_run_keys |].
  intros level Hin. unfold run in Hin, Hall.
  rewrite rounded_group_enforce in Hin.
  assert (forallb (steady nodeSize) level = true) as Hlevel
    by (exact (forallb_concat_level _ _ level Hall Hin)).
  apply in_map_iff in Hin as (l0 & <- & _).
  pose proof (rounded_level_spaced nodeSize l0 Hlevel) as Hsp.
  now rewrite (rounded_sort_fixed nodeSize _ Hlevel Hsp).
Qed.

(** The end-to-end scenario: three nodes of one level at 0, 10 and 20,
    100 wide, 8 passes; they end at 0, 100 and 200.  And a node at 400
    that is connected to the node at 0: the pull of the connection
    brings it to 50 in the passes (without it the node would stay), the
    closing sweep to 100. *)
Lemma run_levels_spaced_witness :
  (forallb (steady 100) (run 100 8 0.5 (fun _ => []) crowdedNodes) = true /\
   Forall (fun level => spaced 100 (sort_by_x level))
     (group_levels (run 100 8 0.5 (fun _ => []) crowdedNodes)) /\
   map x (run 100 8 0.5 (fun _ => []) crowdedNodes) = [0; 100; 200]) /\
  (forallb (steady 100) (run 100 8 0.5 pulledLinks pulledNodes) = true /\
   Forall (fun level => spaced 100 (sort_by_x level))
     (group_levels (run 100 8 0.5 pulledLinks pulledNodes)) /\
   map x (List.concat (relax_levels 100 8 0.5 pulledLinks []
                         (group_levels pulledNodes))) = [0; 50] /\
   map x (run 100 8 0.5 pulledLinks pulledNodes) = [0; 100] /\
   map x (run 100 8 0.5 (fun _ => []) pulledNodes) = [0; 400]).
Proof.
  assert (forallb (steady 100) (run 100 8 0.5 (fun _ => []) crowdedNodes)
          = true) as H by (vm_compute; reflexivity).
  assert (forallb (steady 100) (run 100 8 0.5 pulledLinks pulledNodes)
          = true) as H' by (vm_compute; reflexivity).
  split.
  - split; [exact H |]. split; [| vm_compute; reflexivity].
    apply Forall_forall.
    apply (run_levels_spaced 100 8 0.5 (fun _ => []) crowdedNodes H).
  - split; [exact H' |].
    split; [| vm_compute; repeat split].
    apply Forall_forall.
    apply (run_levels_spaced 100 8 0.5 pulledLinks pulledNodes H').
Defined.

(** Two nodes of one level at 2^60, 100 wide: [run] leaves both where
    they are, since 2^60 + 100 rounds to 2^60; the gap is 0. *)
Lemma run_gap_absorbed :
  group_levels (run 100 8 0.5 (fun _ => []) farNodes)
  = [run 100 8 0.5 (fun _ => []) farNodes] /\
  sort_by_x (run 100 8 0.5 (fun _ => []) farNodes)
  = run 100 8 0.5 (fun _ => []) farNodes /\
  map x (run 100 8 0.5 (fun _ => []) farNodes) = [0x1p60; 0x1p60] /\
  (0x1p60 - 0x1p60 + 0.5 <? 100) = true.
Proof. vm_compute. repeat split. Qed.

End RoundedEngineFacts.

(* ------------------------------------------------------------------ *)
(** * Translation of the input of the engine on numbers *)

Module RoundedTranslationFacts.
Import JsNumber DagRelaxation64.
Local Open Scope float_scope.







End RoundedTranslationFacts.

(* ------------------------------------------------------------------ *)
(** * What a traversal visits *)

Module DescentFacts.
Import Graph Notions Descent CollectionFacts TraversalFacts.

Lemma getChildrenOfUnion_In (data : FamilyData) (u c : string) :
  In c (getChildrenOfUnion data u) <->
  In (u, c) (links data) /\ JsString.startsWith "u_" c = false.
Proof.
  rewrite getChildrenOfUnion_filter, in_map_iff. split.
  - intros ([f t] & <- & Hin). apply filter_In in Hin as [Hin Hc].
    simpl in *. apply andb_true_iff in Hc as [Hf Ht].
    apply String.eqb_eq in Hf. apply negb_true_iff in Ht. subst. now split.
  - intros [Hin Hu]. exists (u, c). split; [reflexivity |].
    apply filter_In. split; [exact Hin |]. simpl.
    now rewrite String.eqb_refl, Hu.
Qed.

Section Visit.

Variable data : FamilyData.
Variable St : Type.
Variable visit : string -> St -> St.
Variable follows : string -> string -> bool.
Variable root : string.
Variable s0 : St.

Lemma enqueueChildren_In (m : string) (v : JsSet.t) (q : list string)
  (x : string) :
  In x (enqueueChildren data follows m v q) <->
  In x q \/
  exists u,
    In (m, u) (links data) /\ JsString.startsWith "u_" u = true /\
    follows m u = true /\
    In (u, x) (links data) /\ JsString.startsWith "u_" x = false /\
    JsSet.has x v = false.
Proof.
  unfold enqueueChildren.
  rewrite (fold_adds _
             (fun u z =>
                follows m u = true /\
                In z (getChildrenOfUnion data u) /\ JsSet.has z v = false)).
  - split.
    + intros [H | (u & Hu & Hf & Hc & Hv)]; [now left | right].
      apply getUnionsForMember_In in Hu as [Hl Hs].
      apply getChildrenOfUnion_In in Hc as [Hl' Hs'].
      exists u. tauto.
    + intros [H | (u & Hl & Hs & Hf & Hl' & Hs' & Hv)]; [now left | right].
      exists u. split; [apply getUnionsForMember_In; now split |].
      split; [exact Hf |]. split; [| exact Hv].
      apply getChildrenOfUnion_In. now split.
  - intros acc u z. destruct (follows m u).
    + rewrite (fold_adds _ (fun c z => z = c /\ JsSet.has c v = false)).
      * split.
        -- intros [H | (c & Hc & -> & Hv)]; [now left | right]. tauto.
        -- intros [H | (_ & Hc & Hv)]; [now left | right]. now exists z.
      * intros acc' c z'. destruct (JsSet.has c v); simpl.
        -- intuition discriminate.
        -- rewrite in_app_iff. simpl. intuition.
    + intuition discriminate.
Qed.

Let inv (st : loop_state St) : Prop :=
  (forall x, In x (visited st) \/ In x (queue st) ->
     reachable data follows root x) /\
  (In root (visited st) \/ In root (queue st)) /\
  (forall m u c,
     In m (visited st) ->
     In (m, u) (links data) -> JsString.startsWith "u_" u = true ->
     follows m u = true ->
     In (u, c) (links data) -> JsString.startsWith "u_" c = false ->
     In c (visited st) \/ In c (queue st)) /\
  store st = fold_left (fun s m => visit m s) (visited st) s0.

Lemma inv_kept (m : string) (rest : list string) (st : loop_state St) :
  queue st = m :: rest -> inv st ->
  inv (loop_body data St visit follows m rest st).
Proof.
  intros Hq (Hreach & Hroot & Hclosed & Hstore). rewrite Hq in *.
  unfold loop_body. destruct (JsSet.has m (visited st)) eqn:Hv.
  - apply has_In in Hv. unfold inv. cbn [queue visited store].
    split; [| split; [| split]].
    + intros x [H | H]; apply Hreach; [now left | right; now right].
    + destruct Hroot as [H | [<- | H]]; auto.
    + intros m' u c Hm Hl Hs Hf Hl' Hs'.
      destruct (Hclosed m' u c Hm Hl Hs Hf Hl' Hs') as [H | [<- | H]]; auto.
    + exact Hstore.
  - unfold JsSet.add. rewrite Hv. unfold inv. cbn [queue visited store].
    assert (reachable data follows root m) as Hm
      by (apply Hreach; right; now left).
    split; [| split; [| split]].
    + intros x [H | H].
      * apply in_app_iff in H as [H | [<- | []]]; [| exact Hm].
        apply Hreach. now left.
      * apply enqueueChildren_In in H
          as [H | (u & Hl & Hs & Hf & Hl' & Hs' & _)].
        -- apply Hreach. right. now right.
        -- exact (reach_child data follows root m u x Hm Hl Hs Hf Hl' Hs').
    + destruct Hroot as [H | [<- | H]].
      * left. apply in_app_iff. now left.
      * left. apply in_app_iff. right. now left.
      * right. apply enqueueChildren_In. now left.
    + intros m' u c Hm' Hl Hs Hf Hl' Hs'.
      apply in_app_iff in Hm' as [Hm' | [<- | []]].
      * destruct (Hclosed m' u c Hm' Hl Hs Hf Hl' Hs') as [H | [<- | H]].
        -- left. apply in_app_iff. now left.
        -- left. apply in_app_iff. right. now left.
        -- right. apply enqueueChildren_In. now left.
      * destruct (JsSet.has c (visited st ++ [m])) eqn:Hc.
        -- left. now apply has_In.
        -- right. apply enqueueChildren_In. right. exists u. tauto.
    + rewrite fold_left_app. simpl. now rewrite Hstore.
Qed.

Lemma traverse_visits :
  exists st,
    traverse data St visit follows root s0 = Returned st /\
    (forall x, In x (visited st) <-> reachable data follows root x) /\
    NoDup (visited st) /\
    store st = fold_left (fun s m => visit m s) (visited st) s0.
Proof.
  destruct (traverse_returns data St visit follows root s0)
    as (st & Hrun & _ & _).
  exists st. split; [exact Hrun |].
  unfold traverse in Hrun.
  assert (inv {| queue := [root]; visited := []; processed := [];
                 store := s0 |}) as Hinit.
  { unfold inv. cbn [queue visited store]. split; [| split; [| split]].
    - intros x [[] | [<- | []]]. constructor.
    - right. now left.
    - intros m u c [].
    - reflexivity. }
  destruct (while_queue_invariant data St visit follows
              (fun st => inv st /\
                         (processed st = visited st /\ NoDup (visited st)))
              (fun m rest st Hq H =>
                 conj (inv_kept m rest st Hq (proj1 H))
                      (processed_once_kept data St visit follows m rest st
                         (proj2 H)))
              (budget data) _ st
              (conj Hinit (conj eq_refl (NoDup_nil string))) Hrun)
    as [[(Hreach & Hroot & Hclosed & Hstore) [_ Hnd]] Hq].
  rewrite Hq in *.
  split; [| split; [exact Hnd | exact Hstore]].
  intros x. split.
  - intros H. apply Hreach. now left.
  - induction 1 as [|m u c _ IH Hl Hs Hf Hl' Hs'].
    + destruct Hroot as [H | []]. exact H.
    + destruct (Hclosed m u c IH Hl Hs Hf Hl' Hs') as [H | []]. exact H.
Qed.

End Visit.

(** [assignDescendants] adds to the set it is handed exactly the persons
    that descend from the root through person->union and union->child
    edges, the root included; cycles in the edges change nothing to
    that. *)
Theorem assignDescendants_reachable (data : FamilyData) (root : string)
  (familyMembers : JsSet.t) :
  exists members',
    FamilyDetection.assignDescendants data root familyMembers
    = Returned members' /\
    forall x,
      In x members' <->
      In x familyMembers \/ reachable data any_union root x.
Proof.
  unfold FamilyDetection.assignDescendants.
  destruct (traverse_visits data JsSet.t
              (fun memberId members => JsSet.add memberId members)
              (fun _ _ => true) root familyMembers)
    as (st & -> & Hv & _ & Hstore).
  cbn [bind]. eexists. split; [reflexivity |].
  intros x. rewrite Hstore.
  rewrite (fold_adds _ (fun m z => z = m)).
  - split.
    + intros [H | (m & Hm & ->)]; [now left | right]. now apply Hv.
    + intros [H | H]; [now left | right]. exists x. split; [| reflexivity].
      now apply Hv.
  - intros acc m z. apply add_In.
Qed.

Lemma birth_kept (familyId : string) (l : list string) :
  forall (birth : JsMap.t string) (k v : string),
    JsMap.get k birth = Some v ->
    JsMap.get k
      (fold_left
         (fun b m => if JsMap.has m b then b else JsMap.set m familyId b)
         l birth) = Some v.
Proof.
  induction l as [|m r IH]; intros birth k v H; simpl; [exact H |].
  apply IH. unfold JsMap.has.
  destruct (JsMap.get m birth) eqn:E; [exact H |].
  rewrite map_get_set_other; [exact H |].
  destruct (String.eqb k m) eqn:Ek; [| reflexivity].
  apply String.eqb_eq in Ek. subst. congruence.
Qed.

Lemma map_get_set_same {V} (k : string) (v : V) (m : JsMap.t V) :
  JsMap.get k (JsMap.set k v m) = Some v.
Proof.
  induction m as [|[k' v'] r IH]; simpl.
  - now rewrite String.eqb_refl.
  - destruct (String.eqb k k') eqn:E; simpl.
    + now rewrite String.eqb_refl.
    + now rewrite E.
Qed.

Lemma birth_given (familyId : string) (l : list string) :
  forall (birth : JsMap.t string) (x : string),
    In x l ->
    exists v,
      JsMap.get x
        (fold_left
           (fun b m => if JsMap.has m b then b else JsMap.set m familyId b)
           l birth) = Some v.
Proof.
  induction l as [|m r IH]; intros birth x Hx; [destruct Hx |].
  simpl. destruct Hx as [<- | Hx]; [| now apply IH].
  unfold JsMap.has. destruct (JsMap.get m birth) as [v|] eqn:E.
  - exists v. now apply birth_kept.
  - exists familyId. apply birth_kept. apply map_get_set_same.
Qed.

Lemma birth_new (familyId : string) (l : list string) :
  forall (birth : JsMap.t string) (k v : string),
    JsMap.get k birth = None ->
    JsMap.get k
      (fold_left
         (fun b m => if JsMap.has m b then b else JsMap.set m familyId b)
         l birth) = Some v ->
    v = familyId /\ In k l.
Proof.
  induction l as [|m r IH]; intros birth k v Hn H; simpl in H; [congruence |].
  unfold JsMap.has in H.
  destruct (JsMap.get m birth) as [w|] eqn:E.
  - destruct (IH birth k v Hn H) as [-> Hin]. split; [reflexivity | now right].
  - destruct (String.eqb k m) eqn:Ek.
    + apply String.eqb_eq in Ek. subst k. split; [| now left].
      rewrite (birth_kept familyId r _ m familyId (map_get_set_same _ _ _)) in H.
      congruence.
    + rewrite <- (map_get_set_other k m familyId birth Ek) in Hn.
      destruct (IH _ k v Hn H) as [-> Hin]. split; [reflexivity | now right].
Qed.

Lemma fold_pair_split (familyId : string) (l : list string) :
  forall (members : JsSet.t) (birth : JsMap.t string),
    fold_left
      (fun (s : JsSet.t * JsMap.t string) m =>
         (fun memberId '(members, birth) =>
            (JsSet.add memberId members,
             if JsMap.has memberId birth then birth
             else JsMap.set memberId familyId birth)) m s)
      l (members, birth)
    = (fold_left (fun s m => JsSet.add m s) l members,
       fold_left
         (fun b m => if JsMap.has m b then b else JsMap.set m familyId b)
         l birth).
Proof.
  induction l as [|m r IH]; intros members birth; simpl; [reflexivity |].
  apply IH.
Qed.

Lemma add_keeps_NoDup (x : string) (s : JsSet.t) :
  NoDup s -> NoDup (JsSet.add x s).
Proof.
  intros H. unfold JsSet.add. destruct (JsSet.has x s) eqn:E; [exact H |].
  apply has_not_In in E. apply NoDup_rev in H.
  rewrite <- (rev_involutive (s ++ [x])). apply NoDup_rev.
  rewrite rev_app_distr. simpl. constructor; [| exact H].
  intros Hin. apply E. now apply in_rev.
Qed.

Lemma assignDescendantsPatrilineal_run (data : FamilyData)
  (root familyId : string) (familyMembers : JsSet.t)
  (memberBirthFamily : JsMap.t string) :
  exists members' birth',
    Patrilineal.assignDescendantsPatrilineal data root familyId familyMembers
      memberBirthFamily = Returned (members', birth') /\
    (forall x,
       In x members' <->
       In x familyMembers \/ reachable data (as_father data) root x) /\
    (forall k v, JsMap.get k memberBirthFamily = Some v ->
       JsMap.get k birth' = Some v) /\
    (forall x, reachable data (as_father data) root x ->
       exists v, JsMap.get x birth' = Some v) /\
    (forall k v, JsMap.get k memberBirthFamily = None ->
       JsMap.get k birth' = Some v ->
       v = familyId /\ reachable data (as_father data) root k) /\
    (NoDup familyMembers -> NoDup members').
Proof.
  unfold Patrilineal.assignDescendantsPatrilineal.
  match goal with
  | |- context [traverse data ?S ?v ?f root ?s] =>
      destruct (traverse_visits data S v f root s)
        as (st & -> & Hv & _ & Hstore)
  end.
  cbn [bind]. rewrite Hstore, fold_pair_split.
  eexists. eexists. split; [reflexivity |].
  split; [| split; [| split; [| split]]];
    [| | | | clear Hv Hstore; generalize familyMembers;
             induction (visited st) as [|a l IHl];
             intros fm0 Hnd; simpl; [exact Hnd |];
             apply IHl; now apply add_keeps_NoDup].
  - intros x. rewrite (fold_adds _ (fun m z => z = m)).
    + split.
      * intros [H | (m & Hm & ->)]; [now left | right]. now apply Hv.
      * intros [H | H]; [now left | right]. exists x. split; [| reflexivity].
        now apply Hv.
    + intros acc m z. apply add_In.
  - intros k v. apply birth_kept.
  - intros x Hx. apply birth_given. now apply Hv.
  - intros k v Hn Hg. destruct (birth_new _ _ _ _ _ Hn Hg) as [-> Hin].
    split; [reflexivity | now apply Hv].
Qed.

(** [assignDescendantsPatrilineal] adds to the member set exactly the
    persons that descend from the root through unions in which the
    parent counts as the father.  Every one of them has a birth family
    afterwards; an entry that was there is kept, and a new entry names
    the family being traversed and belongs to such a descendant. *)
Theorem assignDescendantsPatrilineal_reachable (data : FamilyData)
  (root familyId : string) (familyMembers : JsSet.t)
  (memberBirthFamily : JsMap.t string) :
  exists members' birth',
    Patrilineal.assignDescendantsPatrilineal data root familyId familyMembers
      memberBirthFamily = Returned (members', birth') /\
    (forall x,
       In x members' <->
       In x familyMembers \/ reachable data (as_father data) root x) /\
    (forall k v, JsMap.get k memberBirthFamily = Some v ->
       JsMap.get k birth' = Some v) /\
    (forall x, reachable data (as_father data) root x ->
       exists v, JsMap.get x birth' = Some v) /\
    (forall k v, JsMap.get k memberBirthFamily = None ->
       JsMap.get k birth' = Some v ->
       v = familyId /\ reachable data (as_father data) root k).
Proof.
  destruct (assignDescendantsPatrilineal_run data root familyId familyMembers
              memberBirthFamily)
    as (members' & birth' & H & H1 & H2 & H3 & H4 & _).
  exists members', birth'.
  split; [exact H | split; [exact H1 | split; [exact H2 | split]]];
    assumption.
Qed.

End DescentFacts.

(* ------------------------------------------------------------------ *)
(** * The result of detectFamilies (first revision) *)

Module ResultFacts.
Import Graph Families Notions Descent CollectionFacts TraversalFacts.
Import DetectionFacts RootFacts DescentFacts.

(** What holds for the part of the list already gone through holds for
    the whole list at the end. *)
Lemma forEachM_inv {A S} (J : list A -> S -> Prop) (body : A -> S -> outcome S)
  (xs : list A) :
  forall done s s',
    forEachM body xs s = Returned s' ->
    J done s ->
    (forall d a r s s1,
       done ++ xs = d ++ a :: r -> J d s -> body a s = Returned s1 ->
       J (d ++ [a]) s1) ->
    J (done ++ xs) s'.
Proof.
  induction xs as [|a r IH]; intros done s s' Hrun Hj Hstep; simpl in Hrun.
  - injection Hrun as <-. now rewrite app_nil_r.
  - destruct (body a s) as [s1| |] eqn:Hb; simpl in Hrun; try discriminate.
    replace (done ++ a :: r) with ((done ++ [a]) ++ r)
      by (now rewrite <- app_assoc).
    apply (IH (done ++ [a]) s1 s' Hrun).
    + now apply (Hstep done a r s s1).
    + intros d b t u u1 Hsplit. apply (Hstep d b t u u1).
      rewrite <- Hsplit. now rewrite <- app_assoc.
Qed.

Lemma In_has {V} (k : string) (v : V) (m : JsMap.t V) :
  In (k, v) m -> JsMap.has k m = true.
Proof.
  unfold JsMap.has. induction m as [|[k' v'] r IH]; simpl; [tauto |].
  intros [H | H].
  - injection H as -> ->. now rewrite String.eqb_refl.
  - destruct (String.eqb k k'); [reflexivity | now apply IH].
Qed.

(** An entry of the table is what the lookup finds. *)
Lemma has_member_own (data : FamilyData) (k : string) :
  JsMap.has k (members data) = true -> has_member data k = true.
Proof.
  unfold has_member, member, JsMap.has.
  now destruct (JsMap.get k (members data)).
Qed.

Lemma findRootNodes_members (data : FamilyData) (r : string) :
  In r (findRootNodes data) -> has_member data r = true.
Proof.
  assert (forall x, In x (naturalRoots data) ->
            has_member data x = true) as Hnat.
  { intros x Hx. apply naturalRoots_In in Hx as [(m & Hm & _) _].
    apply has_member_own. now apply In_has in Hm. }
  unfold findRootNodes.
  destruct ((List.length (naturalRoots data) =? 0)%nat
            && (0 <? List.length (members data))%nat); [| apply Hnat].
  destruct (truthy (start data) && has_member data (start data))
    eqn:E; [| apply Hnat].
  intros H. apply in_app_iff in H as [H | [<- | []]]; [now apply Hnat |].
  now apply andb_true_iff in E as [_ E].
Qed.

(** Leaving entries out of a table keeps its keys distinct. *)
Lemma filter_keys_NoDup {V} (keep : string * V -> bool) (m : JsMap.t V) :
  NoDup (map fst m) -> NoDup (map fst (filter keep m)).
Proof.
  intros Hkeys. induction m as [|[k v] rest IH]; [exact Hkeys |].
  simpl in Hkeys. apply NoDup_cons_iff in Hkeys as [Hk Hrest].
  simpl. destruct (keep (k, v)); [| exact (IH Hrest)].
  simpl. apply NoDup_cons; [| exact (IH Hrest)].
  intros Hin. apply Hk.
  apply in_map_iff in Hin as ([k' v'] & Heq & Hin). simpl in Heq. subst k'.
  apply filter_In in Hin as [Hin _].
  apply in_map_iff. now exists (k, v').
Qed.

Lemma findRootNodes_NoDup (data : FamilyData) :
  NoDup (map fst (members data)) -> NoDup (findRootNodes data).
Proof.
  intros Hk.
  assert (NoDup (naturalRoots data)) as Hnat.
  { rewrite naturalRoots_filter. now apply filter_keys_NoDup. }
  unfold findRootNodes.
  destruct (naturalRoots data) as [|a r] eqn:E; [| exact Hnat].
  simpl.
  destruct ((0 <? List.length (members data))%nat); [| constructor].
  destruct (truthy (start data) && has_member data (start data));
    simpl; repeat constructor. intros [].
Qed.

(** ** Step 2 *)

Lemma createFamilies_fold (data : FamilyData) (l : list (nat * string)) :
  forall accF accS,
    (forall p, In p l -> has_member data (snd p) = true) ->
    fold_left
      (fun '(families, familyMemberSets) '(index, rootId) =>
         match member data rootId with
         | None => (families, familyMemberSets)
         | Some rootMember =>
             let familyId := ("family_" ++ rootId)%string in
             (families ++
                [{| id := familyId;
                    name := getFamilyName rootMember;
                    color := ColorGenerator.generateFamilyColor index;
                    rootMemberId := rootId;
                    memberCount := 0 |}],
              JsMap.set familyId ([] : JsSet.t) familyMemberSets)
         end)
      l (accF, accS)
    = (accF ++ map (fun p => seedFamily data (fst p) (snd p)) l,
       fold_left
         (fun m (p : nat * string) =>
            JsMap.set ("family_" ++ snd p)%string ([] : JsSet.t) m)
         l accS).
Proof.
  induction l as [|[index rootId] r IH]; intros accF accS Hm; simpl.
  - now rewrite app_nil_r.
  - pose proof (Hm (index, rootId) (or_introl eq_refl)) as Hr. simpl in Hr.
    unfold has_member in Hr.
    unfold seedFamily at 1. simpl.
    destruct (member data rootId) as [rootMember|]; [| discriminate].
    rewrite IH by (intros p Hp; apply Hm; now right).
    now rewrite <- app_assoc.
Qed.

Lemma seed_sets_get (l : list (nat * string)) :
  forall (accS : JsMap.t JsSet.t) (k : string) (s : JsSet.t),
    JsMap.get k
      (fold_left
         (fun m (p : nat * string) =>
            JsMap.set ("family_" ++ snd p)%string ([] : JsSet.t) m)
         l accS) = Some s ->
    s = [] \/ JsMap.get k accS = Some s.
Proof.
  induction l as [|p r IH]; intros accS k s H; simpl in H; [now right |].
  destruct (IH _ k s H) as [-> | H1]; [now left |].
  destruct (String.eqb k ("family_" ++ snd p)%string) eqn:E.
  - apply String.eqb_eq in E. subst k.
    rewrite map_get_set_same in H1. left. congruence.
  - rewrite map_get_set_other in H1 by exact E. now right.
Qed.

Lemma seed_sets_has (l : list (nat * string)) :
  forall (accS : JsMap.t JsSet.t) (p : nat * string),
    In p l ->
    exists s,
      JsMap.get ("family_" ++ snd p)%string
        (fold_left
           (fun m (p : nat * string) =>
              JsMap.set ("family_" ++ snd p)%string ([] : JsSet.t) m)
           l accS) = Some s.
Proof.
  induction l as [|q r IH]; intros accS p Hp; [destruct Hp |].
  simpl. destruct Hp as [-> | Hp]; [| now apply IH].
  assert (forall (t : list (nat * string)) (m : JsMap.t JsSet.t) k,
            JsMap.has k m = true ->
            JsMap.has k
              (fold_left
                 (fun m (p : nat * string) =>
                    JsMap.set ("family_" ++ snd p)%string ([] : JsSet.t) m)
                 t m) = true) as Hkeep.
  { induction t as [|a t IHt]; intros m k Hk; simpl; [exact Hk |].
    apply IHt. now apply map_has_set. }
  specialize (Hkeep r (JsMap.set ("family_" ++ snd p)%string [] accS)
                ("family_" ++ snd p)%string (map_has_set_same _ _ _)).
  unfold JsMap.has in Hkeep.
  destruct (JsMap.get _ _) as [s|]; [now exists s | discriminate].
Qed.

Lemma combine_seq_In (roots : list string) :
  forall a r, In r roots ->
    exists i, In (i, r) (combine (seq a (List.length roots)) roots).
Proof.
  induction roots as [|x t IH]; intros a r Hr; [destruct Hr |].
  simpl. destruct Hr as [<- | Hr].
  - exists a. now left.
  - destruct (IH (S a) r Hr) as [i Hi]. exists i. now right.
Qed.

Lemma combine_seq_snd (roots : list string) :
  forall a, map snd (combine (seq a (List.length roots)) roots) = roots.
Proof.
  induction roots as [|x t IH]; intros a; simpl; [reflexivity |].
  now rewrite IH.
Qed.

Lemma combine_seq_fst (roots : list string) :
  forall a,
    map fst (combine (seq a (List.length roots)) roots)
    = seq a (List.length roots).
Proof.
  induction roots as [|x t IH]; intros a; simpl; [reflexivity |].
  now rewrite IH.
Qed.

(** The families and the member sets after step 2. *)
Lemma createFamilies_seeds (data : FamilyData) :
  exists sets0,
    createFamilies data (findRootNodes data)
    = (map (fun p => seedFamily data (fst p) (snd p))
         (combine (seq 0 (List.length (findRootNodes data)))
            (findRootNodes data)),
       sets0) /\
    (forall k s, JsMap.get k sets0 = Some s -> s = []) /\
    (forall r, In r (findRootNodes data) ->
       JsMap.get ("family_" ++ r)%string sets0 = Some []).
Proof.
  unfold createFamilies. eexists. split; [| split].
  - rewrite createFamilies_fold; [reflexivity |].
    intros [i r] Hp. apply in_combine_r in Hp. simpl.
    now apply findRootNodes_members.
  - intros k s H. apply seed_sets_get in H as [H | H]; [exact H |].
    discriminate.
  - intros r Hr. destruct (combine_seq_In (findRootNodes data) 0 r Hr) as [i Hi].
    destruct (seed_sets_has _ [] (i, r) Hi) as [s Hs]. cbn [snd] in Hs.
    rewrite Hs. f_equal.
    apply seed_sets_get in Hs as [Hs | Hs]; [exact Hs | discriminate].
Qed.

Lemma add_NoDup (x : string) (s : JsSet.t) : NoDup s -> NoDup (JsSet.add x s).
Proof.
  intros H. unfold JsSet.add. destruct (JsSet.has x s) eqn:E; [exact H |].
  apply has_not_In in E. apply NoDup_rev in H.
  rewrite <- (rev_involutive (s ++ [x])). apply NoDup_rev.
  rewrite rev_app_distr. simpl. constructor; [| exact H].
  intros Hin. apply E. now apply in_rev.
Qed.

(** A loop whose body keeps a property keeps it. *)
Lemma fold_keeps {A S} (P : S -> Prop) (step : S -> A -> S) :
  (forall s a, P s -> P (step s a)) ->
  forall l s, P s -> P (fold_left step l s).
Proof.
  intros H. induction l as [|a r IH]; intros s Hs; simpl; [exact Hs |].
  apply IH. now apply H.
Qed.

Lemma assignSpouses_NoDup (data : FamilyData) (fm : JsSet.t) :
  NoDup fm -> NoDup (FamilyDetection.assignSpouses data fm).
Proof.
  unfold FamilyDetection.assignSpouses.
  apply fold_keeps. intros s m. apply fold_keeps. intros s1 u.
  apply fold_keeps. intros s2 q Hs.
  destruct (String.eqb q m || String.eqb q "0"); [exact Hs |].
  destruct (negb (has_member data q)); [exact Hs |].
  now apply add_NoDup.
Qed.

Lemma assignDescendants_set (data : FamilyData) (root : string) (fm fm' : JsSet.t) :
  FamilyDetection.assignDescendants data root fm = Returned fm' ->
  (forall x, In x fm' <-> In x fm \/ reachable data any_union root x) /\
  (NoDup fm -> NoDup fm').
Proof.
  unfold FamilyDetection.assignDescendants.
  destruct (traverse_visits data JsSet.t
              (fun memberId members => JsSet.add memberId members)
              (fun _ _ => true) root fm)
    as (st & -> & Hv & _ & Hstore).
  cbn [bind]. intros H. injection H as <-. rewrite Hstore. split.
  - intros x. rewrite (fold_adds _ (fun m z => z = m)).
    + split.
      * intros [H | (m & Hm & ->)]; [now left | right]. now apply Hv.
      * intros [H | H]; [now left | right]. exists x. split; [| reflexivity].
        now apply Hv.
    + intros acc m z. apply add_In.
  - apply fold_keeps. intros s a. apply add_NoDup.
Qed.

Lemma partners_in_family (data : FamilyData) (root : string) (s : JsSet.t)
  (x : string) :
  (forall z, In z s <-> reachable data any_union root z) ->
  (In x s \/ named_partner data s x) <-> in_family data root x.
Proof.
  intros Hs. unfold in_family, named_partner, partner_of. split.
  - intros [H | (m & u & Hm & Hl & Hu & Hp & Hne & _ & Hh)].
    + left. now apply Hs.
    + right. exists m. split; [now apply Hs |]. exists u. tauto.
  - intros [H | (d & Hd & u & Hl & Hu & Hp & Hne & Hh)].
    + left. now apply Hs.
    + right. exists d, u. split; [now apply Hs |].
      destruct (UnionIdFacts.parseUnionId_named u x Hp) as [_ Hz]. tauto.
Qed.

Lemma split_ids (d r : list Family) (a f : Family) :
  NoDup (map id (d ++ a :: r)) -> In f d \/ In f r -> id f <> id a.
Proof.
  rewrite map_app. simpl. intros H Hf Heq.
  apply NoDup_remove_2 in H. apply H. rewrite <- Heq.
  apply in_app_iff. destruct Hf as [Hf | Hf]; [left | right];
    apply in_map_iff; now exists f.
Qed.

Lemma eqb_neq_false (a b : string) : a <> b -> String.eqb a b = false.
Proof. intros H. now apply String.eqb_neq. Qed.

Lemma getSet_get (sets : JsMap.t JsSet.t) (k : string) (v : JsSet.t) :
  JsMap.get k sets = Some v -> getSet sets k = Returned v.
Proof. intros H. unfold getSet. now rewrite H. Qed.

Section Steps.

Variable data : FamilyData.
Variable total : list Family.
Hypothesis total_ids : NoDup (map id total).

(** Step 3: the set of every family holds the descendants of its root. *)
Lemma step3_sets (sets0 sets1 : JsMap.t JsSet.t) :
  forEachM
    (fun family sets =>
       members <- getSet sets (id family) ;;
       members' <- FamilyDetection.assignDescendants data
                     (rootMemberId family) members ;;
       Returned (JsMap.set (id family) members' sets))
    total sets0 = Returned sets1 ->
  (forall f, In f total -> JsMap.get (id f) sets0 = Some []) ->
  forall f, In f total ->
    exists s,
      JsMap.get (id f) sets1 = Some s /\ NoDup s /\
      forall x, In x s <-> reachable data any_union (rootMemberId f) x.
Proof.
  intros Hrun H0.
  pose proof (forEachM_inv
                (fun d sets =>
                   (forall f, In f d ->
                      exists s,
                        JsMap.get (id f) sets = Some s /\ NoDup s /\
                        forall x, In x s <->
                          reachable data any_union (rootMemberId f) x) /\
                   (forall f, In f total -> ~ In f d ->
                      JsMap.get (id f) sets = Some []))
                _ total [] sets0 sets1 Hrun) as H.
  simpl in H. apply H.
  - split; [intros f [] | intros f Hf _; now apply H0].
  - clear H. intros d a r s s1 Hsplit [Hd Hrest] Hbody.
    rewrite Hsplit in total_ids.
    assert (~ In a d) as Ha.
    { intros Hin. now apply (split_ids d r a a total_ids (or_introl Hin)). }
    assert (In a total) as Hat
      by (rewrite Hsplit; apply in_app_iff; right; now left).
    rewrite (getSet_get _ _ _ (Hrest a Hat Ha)) in Hbody.
    cbn [bind] in Hbody.
    destruct (FamilyDetection.assignDescendants data (rootMemberId a) [])
      as [members'| |] eqn:Hdesc; cbn [bind] in Hbody; try discriminate.
    injection Hbody as <-.
    destruct (assignDescendants_set _ _ _ _ Hdesc) as [Hin Hnd].
    split.
    + intros f Hf. apply in_app_iff in Hf as [Hf | [<- | []]].
      * rewrite map_get_set_other
          by (apply eqb_neq_false, (split_ids d r a f total_ids); now left).
        now apply Hd.
      * rewrite map_get_set_same. eexists. split; [reflexivity |].
        split; [apply Hnd; constructor |].
        intros x. rewrite Hin. simpl. tauto.
    + intros f Hf Hnot.
      assert (In f r) as Hr.
      { rewrite Hsplit in Hf. apply in_app_iff in Hf as [Hf | [<- | Hf]].
        - exfalso. apply Hnot. apply in_app_iff. now left.
        - exfalso. apply Hnot. apply in_app_iff. right. now left.
        - exact Hf. }
      rewrite map_get_set_other
        by (apply eqb_neq_false, (split_ids d r a f total_ids); now right).
      apply Hrest; [exact Hf |].
      intros Hin'. apply Hnot. apply in_app_iff. now left.
Qed.

(** Step 4: the partners join. *)
Lemma step4_sets (sets1 sets2 : JsMap.t JsSet.t) :
  forEachM
    (fun family sets =>
       members <- getSet sets (id family) ;;
       Returned
         (JsMap.set (id family) (FamilyDetection.assignSpouses data members)
            sets))
    total sets1 = Returned sets2 ->
  (forall f, In f total ->
     exists s,
       JsMap.get (id f) sets1 = Some s /\ NoDup s /\
       forall x, In x s <-> reachable data any_union (rootMemberId f) x) ->
  forall f, In f total ->
    exists s,
      JsMap.get (id f) sets2 = Some s /\ NoDup s /\
      forall x, In x s <-> in_family data (rootMemberId f) x.
Proof.
  intros Hrun H1.
  pose proof (forEachM_inv
                (fun d sets =>
                   (forall f, In f d ->
                      exists s,
                        JsMap.get (id f) sets = Some s /\ NoDup s /\
                        forall x, In x s <->
                          in_family data (rootMemberId f) x) /\
                   (forall f, In f total -> ~ In f d ->
                      exists s,
                        JsMap.get (id f) sets = Some s /\ NoDup s /\
                        forall x, In x s <->
                          reachable data any_union (rootMemberId f) x))
                _ total [] sets1 sets2 Hrun) as H.
  simpl in H. apply H.
  - split; [intros f [] | intros f Hf _; now apply H1].
  - clear H. intros d a r s s1 Hsplit [Hd Hrest] Hbody.
    rewrite Hsplit in total_ids.
    assert (~ In a d) as Ha.
    { intros Hin. now apply (split_ids d r a a total_ids (or_introl Hin)). }
    assert (In a total) as Hat
      by (rewrite Hsplit; apply in_app_iff; right; now left).
    destruct (Hrest a Hat Ha) as (sa & Hget & Hnd & Hreach).
    rewrite (getSet_get _ _ _ Hget) in Hbody. cbn [bind] in Hbody.
    injection Hbody as <-.
    split.
    + intros f Hf. apply in_app_iff in Hf as [Hf | [<- | []]].
      * rewrite map_get_set_other
          by (apply eqb_neq_false, (split_ids d r a f total_ids); now left).
        now apply Hd.
      * rewrite map_get_set_same. eexists. split; [reflexivity |].
        split; [now apply assignSpouses_NoDup |].
        intros x. rewrite SpouseFacts.assignSpouses_In.
        now apply partners_in_family.
    + intros f Hf Hnot.
      assert (In f r) as Hr.
      { rewrite Hsplit in Hf. apply in_app_iff in Hf as [Hf | [<- | Hf]].
        - exfalso. apply Hnot. apply in_app_iff. now left.
        - exfalso. apply Hnot. apply in_app_iff. right. now left.
        - exact Hf. }
      rewrite map_get_set_other
        by (apply eqb_neq_false, (split_ids d r a f total_ids); now right).
      apply Hrest; [exact Hf |].
      intros Hin'. apply Hnot. apply in_app_iff. now left.
Qed.

End Steps.

(** ** Step 5 *)

Lemma indexFamily_step (family : Family) (m2f : JsMap.t (list string))
  (k m fid : string) :
  listed
    (let m1 := if JsMap.has k m2f then m2f else JsMap.set k [] m2f in
     match JsMap.get k m1 with
     | Some l => JsMap.set k (l ++ [id family]) m1
     | None => m1
     end) m fid
  <-> listed m2f m fid \/ (m = k /\ fid = id family).
Proof.
  unfold listed, JsMap.has.
  destruct (JsMap.get k m2f) as [l0|] eqn:Hk; cbv zeta.
  - rewrite Hk. destruct (String.eqb m k) eqn:E.
    + apply String.eqb_eq in E. subst m. rewrite map_get_set_same, Hk. split.
      * intros (l & Hl & Hin). injection Hl as <-.
        apply in_app_iff in Hin as [Hin | [<- | []]]; [left | now right].
        now exists l0.
      * intros [(l & Hl & Hin) | [_ ->]]; eexists; (split; [reflexivity |]);
          apply in_app_iff; [left; congruence | right; now left].
    + rewrite map_get_set_other by exact E. apply String.eqb_neq in E.
      intuition congruence.
  - rewrite map_get_set_same. destruct (String.eqb m k) eqn:E.
    + apply String.eqb_eq in E. subst m. rewrite map_get_set_same, Hk. split.
      * intros (l & Hl & Hin). injection Hl as <-.
        destruct Hin as [<- | []]. now right.
      * intros [(l & Hl & _) | [_ ->]]; [discriminate |].
        eexists. split; [reflexivity | now left].
    + rewrite !map_get_set_other by exact E. apply String.eqb_neq in E.
      intuition congruence.
Qed.

Lemma indexFamily_listed (family : Family) (members : JsSet.t) :
  forall (m2f : JsMap.t (list string)) (m fid : string),
    listed (FamilyDetection.indexFamily family members m2f) m fid
    <-> listed m2f m fid \/ (In m members /\ fid = id family).
Proof.
  unfold FamilyDetection.indexFamily.
  induction members as [|k r IH]; intros m2f m fid; simpl.
  - tauto.
  - rewrite IH, indexFamily_step. intuition (subst; auto).
Qed.

Lemma step5_index (total : list Family) (sets2 : JsMap.t JsSet.t)
  (fams : list Family) (m2f : JsMap.t (list string)) :
  forEachM
    (fun family '(done, memberToFamilies) =>
       members <- getSet sets2 (id family) ;;
       Returned (done ++ [with_memberCount family (JsSet.size members)],
                 FamilyDetection.indexFamily family members memberToFamilies))
    total ([], []) = Returned (fams, m2f) ->
  Forall2
    (fun f g =>
       same_family f g /\
       exists s, JsMap.get (id f) sets2 = Some s /\
         memberCount g = List.length s)
    total fams /\
  forall m fid,
    listed m2f m fid <->
    exists f s,
      In f total /\ id f = fid /\
      JsMap.get (id f) sets2 = Some s /\ In m s.
Proof.
  intros Hrun.
  pose proof (forEachM_inv
                (fun d (st : list Family * JsMap.t (list string)) =>
                   Forall2
                     (fun f g =>
                        same_family f g /\
                        exists s, JsMap.get (id f) sets2 = Some s /\
                          memberCount g = List.length s)
                     d (fst st) /\
                   forall m fid,
                     listed (snd st) m fid <->
                     exists f s,
                       In f d /\ id f = fid /\
                       JsMap.get (id f) sets2 = Some s /\ In m s)
                _ total [] _ _ Hrun) as H.
  simpl in H. apply H; clear H.
  - split; [constructor |]. intros m fid. unfold listed. simpl. split.
    + intros (l & Hl & _). discriminate.
    + intros (f & s & [] & _).
  - intros d a r [done m0] st1 _ [Hf Hl] Hbody. simpl in Hf, Hl.
    unfold getSet in Hbody.
    destruct (JsMap.get (id a) sets2) as [sa|] eqn:Hget;
      cbn [bind] in Hbody; [| discriminate].
    injection Hbody as <-. cbn [fst snd]. split.
    + apply Forall2_app; [exact Hf |]. constructor; [| constructor].
      split; [now repeat split |]. exists sa. now split.
    + intros m fid. rewrite indexFamily_listed, Hl. split.
      * intros [(f & s & Hin & Hid & Hg & Hm) | [Hm ->]].
        -- exists f, s. split; [apply in_app_iff; now left | tauto].
        -- exists a, sa. split; [apply in_app_iff; right; now left | tauto].
      * intros (f & s & Hin & Hid & Hg & Hm).
        apply in_app_iff in Hin as [Hin | [<- | []]].
        -- left. now exists f, s.
        -- right. split; [| now symmetry]. congruence.
Qed.

Lemma Forall2_map_l {A B C} (R : B -> C -> Prop) (f : A -> B) (l : list A)
  (l' : list C) :
  Forall2 (fun a c => R (f a) c) l l' -> Forall2 R (map f l) l'.
Proof. induction 1; simpl; constructor; auto. Qed.

Lemma Forall2_map_l_inv {A B C} (R : B -> C -> Prop) (f : A -> B) (l : list A) :
  forall l', Forall2 R (map f l) l' -> Forall2 (fun a c => R (f a) c) l l'.
Proof.
  induction l as [|a r IH]; intros l' H; inversion H; subst; constructor; auto.
Qed.

Lemma Forall2_impl_in {A B} (R R' : A -> B -> Prop) (l : list A) (l' : list B) :
  Forall2 R l l' ->
  (forall a b, In a l -> R a b -> R' a b) ->
  Forall2 R' l l'.
Proof.
  induction 1 as [|a b l l' Hab _ IH]; intros H; constructor.
  - apply H; [now left | exact Hab].
  - apply IH. intros a' b' Hin. apply H. now right.
Qed.

Lemma NoDup_family_ids (roots : list string) :
  NoDup roots -> NoDup (map (String.append "family_") roots).
Proof.
  induction 1 as [|r t Hn Ht IH]; simpl; constructor; [| exact IH].
  intros Hin. apply Hn. apply in_map_iff in Hin as (z & Hz & Hin).
  injection Hz as ->. exact Hin.
Qed.

Lemma seeds_ids (data : FamilyData) (l : list (nat * string)) :
  map id (map (fun p => seedFamily data (fst p) (snd p)) l)
  = map (String.append "family_") (map snd l).
Proof. rewrite !map_map. reflexivity. Qed.

(** What the first revision returns when the keys of the member table
    are distinct: one family per root, in root order, holding the members
    of the family of that root, and the lists of [memberToFamilies]. *)
Lemma detectFamilies_structure (data : FamilyData) :
  NoDup (map fst (members data)) ->
  exists r,
    FamilyDetection.detectFamilies data = Returned r /\
    Forall2
      (fun (p : nat * string) f =>
         same_family (seedFamily data (fst p) (snd p)) f /\
         exists s,
           NoDup s /\ (forall x, In x s <-> in_family data (snd p) x) /\
           memberCount f = List.length s)
      (combine (seq 0 (List.length (findRootNodes data))) (findRootNodes data))
      (FamilyDetection.families r) /\
    (forall m fid,
       listed (FamilyDetection.memberToFamilies r) m fid <->
       exists root,
         In root (findRootNodes data) /\ fid = ("family_" ++ root)%string /\
         in_family data root m) /\
    FamilyDetection.familyColors r = colorsOf (FamilyDetection.families r).
Proof.
  intros Hkeys.
  destruct (detectFamilies_returns data) as [r Hr]. exists r.
  split; [exact Hr |]. unfold FamilyDetection.detectFamilies in Hr.
  destruct (List.length (findRootNodes data) =? 0)%nat eqn:E0.
  - injection Hr as <-. apply Nat.eqb_eq in E0.
    destruct (findRootNodes data); [| discriminate]. simpl.
    split; [constructor | split; [| reflexivity]].
    intros m fid. unfold listed. simpl. split.
    + intros (l & Hl & _). discriminate.
    + intros (root & [] & _).
  - destruct (createFamilies_seeds data) as (sets0 & Hcreate & _ & Hsets0).
    rewrite Hcreate in Hr.
    set (pairs := combine (seq 0 (List.length (findRootNodes data)))
                    (findRootNodes data)) in *.
    set (total := map (fun p => seedFamily data (fst p) (snd p)) pairs) in *.
    assert (map snd pairs = findRootNodes data) as Hsnd
      by apply combine_seq_snd.
    assert (NoDup (map id total)) as Hids.
    { unfold total. rewrite seeds_ids, Hsnd.
      now apply NoDup_family_ids, findRootNodes_NoDup. }
    match type of Hr with
    | context [forEachM ?b total sets0] =>
        destruct (forEachM b total sets0) as [sets1| |] eqn:E1
    end; cbn [bind] in Hr; try discriminate.
    match type of Hr with
    | context [forEachM ?b total sets1] =>
        destruct (forEachM b total sets1) as [sets2| |] eqn:E2
    end; cbn [bind] in Hr; try discriminate.
    match type of Hr with
    | context [forEachM ?b total ?s0] =>
        destruct (forEachM b total s0) as [[fams m2f]| |] eqn:E3
    end; cbn [bind] in Hr; try discriminate.
    injection Hr as <-. cbn [FamilyDetection.families
                               FamilyDetection.memberToFamilies
                               FamilyDetection.familyColors].
    assert (forall f, In f total -> JsMap.get (id f) sets0 = Some []) as H0.
    { intros f Hf. unfold total in Hf. apply in_map_iff in Hf as (p & <- & Hp).
      simpl. apply Hsets0. rewrite <- Hsnd. apply in_map_iff. now exists p. }
    pose proof (step3_sets data total Hids sets0 sets1 E1 H0) as H1.
    pose proof (step4_sets data total Hids sets1 sets2 E2 H1) as H2.
    destruct (step5_index total sets2 fams m2f E3) as [H5 H6].
    split; [| split; [| reflexivity]].
    + unfold total in H5. apply Forall2_map_l_inv in H5.
      apply (Forall2_impl_in _ _ _ _ H5).
      intros p g Hp [Hsame (s & Hg & Hc)].
      split; [exact Hsame |].
      destruct (H2 (seedFamily data (fst p) (snd p))) as (s' & Hg' & Hnd & Hin).
      { unfold total. apply in_map_iff. now exists p. }
      assert (s = s') as -> by congruence.
      exists s'. split; [exact Hnd | split; [exact Hin | exact Hc]].
    + intros m fid. rewrite H6. split.
      * intros (f & s & Hf & Hid & Hg & Hm).
        destruct (H2 f Hf) as (s' & Hg' & _ & Hin).
        assert (s = s') as -> by congruence.
        unfold total in Hf. apply in_map_iff in Hf as (p & <- & Hp).
        exists (snd p). split; [| split].
        -- rewrite <- Hsnd. apply in_map_iff. now exists p.
        -- now rewrite <- Hid.
        -- now apply Hin.
      * intros (root & Hroot & -> & Hm).
        destruct (combine_seq_In (findRootNodes data) 0 root Hroot) as [i Hi].
        assert (In (seedFamily data i root) total) as Hf.
        { unfold total. apply in_map_iff. now exists (i, root). }
        destruct (H2 _ Hf) as (s & Hg & _ & Hin).
        exists (seedFamily data i root), s.
        split; [exact Hf | split; [reflexivity | split; [exact Hg |]]].
        now apply Hin.
Qed.

Lemma seeded_fields (data : FamilyData) (pairs : list (nat * string))
  (fams : list Family) (R : nat * string -> Family -> Prop) :
  Forall2
    (fun p f => same_family (seedFamily data (fst p) (snd p)) f /\ R p f)
    pairs fams ->
  map rootMemberId fams = map snd pairs /\
  map id fams = map (String.append "family_") (map snd pairs) /\
  map color fams = map ColorGenerator.generateFamilyColor (map fst pairs).
Proof.
  induction 1 as [|p f l l' [(Hi & _ & Hc & Hr) _] _ (IH1 & IH2 & IH3)]; simpl.
  - now repeat split.
  - simpl in Hi, Hc, Hr. rewrite IH1, IH2, IH3, <- Hi, <- Hc, <- Hr.
    now repeat split.
Qed.

Lemma colors_kept (l : list Family) :
  forall (acc : JsMap.t string) (k : string),
    ~ In k (map id l) ->
    JsMap.get k (fold_left (fun m f => JsMap.set (id f) (color f) m) l acc)
    = JsMap.get k acc.
Proof.
  induction l as [|a r IH]; intros acc k Hk; simpl; [reflexivity |].
  rewrite IH by (intros H; apply Hk; now right).
  apply map_get_set_other. apply eqb_neq_false.
  intros ->. apply Hk. now left.
Qed.

Lemma colorsOf_get (fams : list Family) (f : Family) :
  NoDup (map id fams) -> In f fams ->
  JsMap.get (id f) (colorsOf fams) = Some (color f).
Proof.
  unfold colorsOf. generalize (@nil (string * string)) as acc.
  induction fams as [|a r IH]; intros acc Hnd Hin; [destruct Hin |].
  simpl in *. inversion Hnd as [|? ? Hn Hr]; subst.
  destruct Hin as [-> | Hin].
  - rewrite colors_kept by exact Hn. apply map_get_set_same.
  - now apply IH.
Qed.

Lemma intermarriage_keys :
  NoDup (map fst (members Scenarios.intermarriage)).
Proof. apply ColorFacts.distinctb_NoDup. reflexivity. Qed.

(** One family per root: when the keys of the member table are
    distinct, the families of the result are those of the roots in root
    order, with id [family_<root>] and the colour of their position, and
    [familyColors] gives every family its colour. *)
Theorem detectFamilies_families (data : FamilyData) :
  NoDup (map fst (members data)) ->
  exists r,
    FamilyDetection.detectFamilies data = Returned r /\
    map rootMemberId (FamilyDetection.families r) = findRootNodes data /\
    map id (FamilyDetection.families r)
    = map (String.append "family_") (findRootNodes data) /\
    map color (FamilyDetection.families r)
    = map ColorGenerator.generateFamilyColor
        (seq 0 (List.length (findRootNodes data))) /\
    forall f, In f (FamilyDetection.families r) ->
      JsMap.get (id f) (FamilyDetection.familyColors r) = Some (color f).
Proof.
  intros Hkeys.
  destruct (detectFamilies_structure data Hkeys) as (r & Hr & Hf & _ & Hc).
  exists r. split; [exact Hr |].
  destruct (seeded_fields _ _ _ _ Hf) as (H1 & H2 & H3).
  rewrite combine_seq_snd in H1, H2. rewrite combine_seq_fst in H3.
  split; [exact H1 | split; [exact H2 | split; [exact H3 |]]].
  intros f Hin. rewrite Hc. apply colorsOf_get; [| exact Hin].
  rewrite H2. now apply NoDup_family_ids, findRootNodes_NoDup.
Qed.

(** The two roots of the intermarriage graph. *)
Lemma detectFamilies_families_witness :
  exists r,
    FamilyDetection.detectFamilies Scenarios.intermarriage = Returned r /\
    map rootMemberId (FamilyDetection.families r)
    = findRootNodes Scenarios.intermarriage /\
    map id (FamilyDetection.families r)
    = map (String.append "family_") (findRootNodes Scenarios.intermarriage) /\
    map color (FamilyDetection.families r)
    = map ColorGenerator.generateFamilyColor
        (seq 0 (List.length (findRootNodes Scenarios.intermarriage))) /\
    forall f, In f (FamilyDetection.families r) ->
      JsMap.get (id f) (FamilyDetection.familyColors r) = Some (color f).
Proof.
  exact (detectFamilies_families Scenarios.intermarriage intermarriage_keys).
Defined.

(** The lists of [memberToFamilies]: when the keys of the member table
    are distinct, the family of a root is in the list of a person
    exactly when the person descends from that root or is named as a
    partner by a union of such a descendant. *)
Theorem memberToFamilies_membership (data : FamilyData) :
  NoDup (map fst (members data)) ->
  exists r,
    FamilyDetection.detectFamilies data = Returned r /\
    forall m fid,
      listed (FamilyDetection.memberToFamilies r) m fid <->
      exists root,
        In root (findRootNodes data) /\ fid = ("family_" ++ root)%string /\
        in_family data root m.
Proof.
  intros Hkeys.
  destruct (detectFamilies_structure data Hkeys) as (r & Hr & _ & Hl & _).
  now exists r.
Qed.

Lemma memberToFamilies_membership_witness :
  exists r,
    FamilyDetection.detectFamilies Scenarios.intermarriage = Returned r /\
    forall m fid,
      listed (FamilyDetection.memberToFamilies r) m fid <->
      exists root,
        In root (findRootNodes Scenarios.intermarriage) /\
        fid = ("family_" ++ root)%string /\
        in_family Scenarios.intermarriage root m.
Proof.
  exact (memberToFamilies_membership Scenarios.intermarriage intermarriage_keys).
Defined.

(** The member count: when the keys of the member table are distinct,
    the count of the family of a root is the number of different persons
    in that family, the root being one of them. *)
Theorem memberCount_counts (data : FamilyData) :
  NoDup (map fst (members data)) ->
  exists r,
    FamilyDetection.detectFamilies data = Returned r /\
    Forall2
      (fun root f =>
         rootMemberId f = root /\
         (1 <= memberCount f)%nat /\
         exists s,
           NoDup s /\ (forall x, In x s <-> in_family data root x) /\
           memberCount f = List.length s)
      (findRootNodes data) (FamilyDetection.families r).
Proof.
  intros Hkeys.
  destruct (detectFamilies_structure data Hkeys) as (r & Hr & Hf & _ & _).
  exists r. split; [exact Hr |].
  rewrite <- (combine_seq_snd (findRootNodes data) 0) at 1.
  apply Forall2_map_l. apply (Forall2_impl_in _ _ _ _ Hf).
  intros p f _ [(_ & _ & _ & Hroot) (s & Hnd & Hin & Hc)].
  split; [now symmetry |]. split; [| now exists s].
  rewrite Hc. assert (In (snd p) s) as H0.
  { apply Hin. left. constructor. }
  destruct s; [destruct H0 | simpl; lia].
Qed.

Lemma memberCount_counts_witness :
  exists r,
    FamilyDetection.detectFamilies Scenarios.intermarriage = Returned r /\
    Forall2
      (fun root f =>
         rootMemberId f = root /\
         (1 <= memberCount f)%nat /\
         exists s,
           NoDup s /\
           (forall x, In x s <-> in_family Scenarios.intermarriage root x) /\
           memberCount f = List.length s)
      (findRootNodes Scenarios.intermarriage) (FamilyDetection.families r).
Proof.
  exact (memberCount_counts Scenarios.intermarriage intermarriage_keys).
Defined.

End ResultFacts.

(* ------------------------------------------------------------------ *)
(** * The patrilineal revision: spouses, fathers, birth families *)

Module PatrilinealFacts.
Import Graph Families Notions Descent CollectionFacts TraversalFacts.
Import DescentFacts.

(** A person counts as the father in a union exactly when the member
    table has the person and its gender is not ['K']; the partners of the
    union play no part. *)
Theorem isPersonFatherInUnion_iff (data : FamilyData) (personId : string)
  (partners : list string) :
  Patrilineal.isPersonFatherInUnion data personId partners = true <->
  exists person,
    member data personId = Some person /\ gender person <> Some "K".
Proof.
  unfold Patrilineal.isPersonFatherInUnion, Patrilineal.gender_is.
  destruct (member data personId) as [person|].
  - destruct (gender person) as [g|] eqn:Hg.
    + destruct (String.eqb g "E") eqn:E.
      * apply String.eqb_eq in E. subst g. split; [| reflexivity].
        intros _. exists person. split; [reflexivity | rewrite Hg; discriminate].
      * destruct (String.eqb g "K") eqn:K.
        -- apply String.eqb_eq in K. subst g. split; [discriminate |].
           intros (q & Hq & Hn). injection Hq as <-. congruence.
        -- apply String.eqb_neq in K. split.
           ++ intros _. exists person. split; [reflexivity |].
              rewrite Hg. congruence.
           ++ intros _.
              destruct (find _ partners) as [pid|]; [| reflexivity].
              destruct (truthy pid); [| reflexivity].
              destruct (member data pid) as [pt|]; [| reflexivity].
              now destruct (gender pt) as [g'|]; [destruct (String.eqb g' "K") |].
    + split.
      * intros _. exists person. split; [reflexivity | rewrite Hg; discriminate].
      * intros _.
        destruct (find _ partners) as [pid|]; [| reflexivity].
        destruct (truthy pid); [| reflexivity].
        destruct (member data pid) as [pt|]; [| reflexivity].
        now destruct (gender pt) as [g'|]; [destruct (String.eqb g' "K") |].
  - split; [discriminate | intros (q & Hq & _); discriminate].
Qed.

Lemma push_absent (x : string) (l : list string) :
  let l' := if negb (Patrilineal.includes x l) then l ++ [x] else l in
  In x l' /\ (NoDup l -> NoDup l') /\ exists e, l' = l ++ e.
Proof.
  unfold Patrilineal.includes. cbv zeta.
  destruct (existsb (String.eqb x) l) eqn:E; simpl.
  - split; [now apply (has_In x l) | split; [trivial |]].
    exists []. now rewrite app_nil_r.
  - split; [apply in_app_iff; right; now left | split; [| now exists [x]]].
    intros H. apply (ResultFacts.add_NoDup x) in H.
    unfold JsSet.add, JsSet.has in H. now rewrite E in H.
Qed.

Lemma extends_refl (st : spouse_state) : extends st st.
Proof.
  repeat split; auto. intros k l H. exists []. now rewrite app_nil_r.
Qed.

Lemma extends_trans (a b c : spouse_state) :
  extends a b -> extends b c -> extends a c.
Proof.
  intros (A1 & B1 & C1) (A2 & B2 & C2). split; [| split].
  - auto.
  - intros k l H. destruct (B1 k l H) as [e1 H1].
    destruct (B2 k _ H1) as [e2 H2]. exists (e1 ++ e2).
    now rewrite app_assoc.
  - intros H. apply C2, C1, H.
Qed.

Lemma settled_kept (fid p : string) (a b : spouse_state) :
  settled fid p a -> extends a b -> settled fid p b.
Proof.
  intros [(l & Hl & Hin) (bf & Hb & Ht)] (A & B & _).
  assert (forall z, listed (snd a) p z -> listed (snd b) p z) as Hgrow.
  { intros z (l0 & Hl0 & Hz). destruct (B p l0 Hl0) as [e He].
    exists (l0 ++ e). split; [exact He | apply in_app_iff; now left]. }
  split.
  - apply Hgrow. now exists l.
  - exists bf. split; [now apply A |]. intros H. apply Hgrow. now apply Ht.
Qed.

Section AddSpouse.

Variable data : FamilyData.
Variable familyId : string.

Lemma addSpouse_shape (m q : string) (st : spouse_state) :
  ((q = m \/ q = "0" \/ has_member data q = false) /\
   Patrilineal.addSpouse data familyId m q st = st) \/
  (q <> m /\ q <> "0" /\ has_member data q = true /\
   exists sf0 e bf,
     (JsMap.get q (snd st) = Some sf0 \/
      JsMap.get q (snd st) = None /\ sf0 = []) /\
     (JsMap.get q (snd (fst st)) = Some bf \/
      JsMap.get q (snd (fst st)) = None /\ bf = familyId) /\
     (NoDup sf0 -> NoDup (sf0 ++ e)) /\
     In familyId (sf0 ++ e) /\
     (truthy bf = true -> In bf (sf0 ++ e)) /\
     Patrilineal.addSpouse data familyId m q st
     = (JsSet.add q (fst (fst st)),
        (if JsMap.has q (snd (fst st)) then snd (fst st)
         else JsMap.set q familyId (snd (fst st))),
        JsMap.set q (sf0 ++ e)
          (if JsMap.has q (snd st) then snd st
           else JsMap.set q [] (snd st)))).
Proof.
  destruct st as [[ms b] t]. unfold Patrilineal.addSpouse. cbn [fst snd].
  destruct (String.eqb q m) eqn:Em.
  { left. apply String.eqb_eq in Em. split; [now left | reflexivity]. }
  destruct (String.eqb q "0") eqn:E0.
  { left. apply String.eqb_eq in E0. split; [right; now left | reflexivity]. }
  cbn [orb].
  apply String.eqb_neq in Em, E0.
  destruct (has_member data q) eqn:Eh;
    [| left; split; [right; now right | reflexivity]].
  right. split; [exact Em | split; [exact E0 | split; [reflexivity |]]].
  cbn [negb].
  set (t1 := if JsMap.has q t then t else JsMap.set q [] t).
  set (b1 := if JsMap.has q b then b else JsMap.set q familyId b).
  assert (exists sf0,
            JsMap.get q t1 = Some sf0 /\
            (JsMap.get q t = Some sf0 \/ JsMap.get q t = None /\ sf0 = []))
    as (sf0 & Ht1 & Hsf0).
  { unfold t1, JsMap.has. destruct (JsMap.get q t) as [l|] eqn:Hq.
    - exists l. split; [exact Hq | now left].
    - exists []. split; [apply map_get_set_same | now right]. }
  assert (exists bf,
            JsMap.get q b1 = Some bf /\
            (JsMap.get q b = Some bf \/ JsMap.get q b = None /\ bf = familyId))
    as (bf & Hb1 & Hbf).
  { unfold b1, JsMap.has. destruct (JsMap.get q b) as [v|] eqn:Hq.
    - exists v. split; [exact Hq | now left].
    - exists familyId. split; [apply map_get_set_same | now right]. }
  rewrite Ht1, Hb1.
  set (sf1 := if truthy bf && negb (Patrilineal.includes bf sf0)
              then sf0 ++ [bf] else sf0).
  assert ((truthy bf = true -> In bf sf1) /\ (NoDup sf0 -> NoDup sf1) /\
          exists e1, sf1 = sf0 ++ e1) as (Hin1 & Hnd1 & e1 & He1).
  { unfold sf1. destruct (push_absent bf sf0) as (Hi & Hn & e & He).
    destruct (truthy bf); simpl.
    - split; [intros _; exact Hi | split; [exact Hn | now exists e]].
    - split; [discriminate | split; [trivial |]].
      exists []. now rewrite app_nil_r. }
  destruct (push_absent familyId sf1) as (Hi2 & Hn2 & e2 & He2).
  cbv zeta in Hi2, Hn2, He2.
  exists sf0, (e1 ++ e2), bf.
  rewrite app_assoc, <- He1, <- He2.
  split; [exact Hsf0 | split; [exact Hbf |]].
  split; [intros H; apply Hn2, Hnd1, H |].
  split; [exact Hi2 |].
  split; [| reflexivity].
  intros H. rewrite He2. apply in_app_iff. left. now apply Hin1.
Qed.

Lemma addSpouse_extends (m q : string) (st : spouse_state) :
  extends st (Patrilineal.addSpouse data familyId m q st).
Proof.
  destruct (addSpouse_shape m q st)
    as [[_ ->] | (_ & _ & _ & sf0 & e & bf & Hsf & Hbf & Hnd & _ & _ & ->)].
  - apply extends_refl.
  - unfold extends. cbn [fst snd]. split; [| split].
    + intros k v Hk. unfold JsMap.has.
      destruct (JsMap.get q (snd (fst st))) eqn:Hq; [exact Hk |].
      rewrite map_get_set_other; [exact Hk |]. apply ResultFacts.eqb_neq_false.
      intros ->. congruence.
    + intros k l Hk. unfold JsMap.has.
      destruct (String.eqb k q) eqn:E.
      * apply String.eqb_eq in E. subst k. rewrite map_get_set_same.
        destruct Hsf as [Hs | [Hs _]]; [| congruence].
        exists e. congruence.
      * rewrite map_get_set_other by exact E. exists [].
        rewrite app_nil_r.
        destruct (JsMap.get q (snd st)); [exact Hk |].
        now rewrite map_get_set_other by exact E.
    + intros Hall k l Hk. unfold JsMap.has in Hk.
      destruct (String.eqb k q) eqn:E.
      * apply String.eqb_eq in E. subst k. rewrite map_get_set_same in Hk.
        injection Hk as <-. apply Hnd.
        destruct Hsf as [Hs | [_ ->]]; [now apply (Hall q) | constructor].
      * rewrite map_get_set_other in Hk by exact E.
        destruct (JsMap.get q (snd st)); [now apply (Hall k) |].
        rewrite map_get_set_other in Hk by exact E. now apply (Hall k).
Qed.

Lemma addSpouse_settles (m q : string) (st : spouse_state) :
  q <> m -> q <> "0" -> has_member data q = true ->
  settled familyId q (Patrilineal.addSpouse data familyId m q st).
Proof.
  intros Hm H0 Hh.
  destruct (addSpouse_shape m q st)
    as [[[H | [H | H]] _]
       | (_ & _ & _ & sf0 & e & bf & Hsf & Hbf & _ & Hin & Ht & ->)];
    [congruence | congruence | congruence |].
  unfold settled, listed. cbn [fst snd]. rewrite map_get_set_same. split.
  - now exists (sf0 ++ e).
  - exists bf. split.
    + unfold JsMap.has. destruct Hbf as [Hb | [Hb ->]]; rewrite Hb.
      * exact Hb.
      * apply map_get_set_same.
    + intros H. exists (sf0 ++ e). split; [reflexivity | now apply Ht].
Qed.

Lemma fold_extends {A} (f : spouse_state -> A -> spouse_state) :
  (forall s a, extends s (f s a)) ->
  forall l s, extends s (fold_left f l s).
Proof.
  intros H. induction l as [|a r IH]; intros s; simpl.
  - apply extends_refl.
  - eapply extends_trans; [apply H | apply IH].
Qed.

Lemma fold_settles {A} (f : spouse_state -> A -> spouse_state)
  (P : spouse_state -> Prop) :
  (forall s a, extends s (f s a)) ->
  (forall s s', P s -> extends s s' -> P s') ->
  forall l a, In a l -> (forall s, P (f s a)) ->
  forall s, P (fold_left f l s).
Proof.
  intros Hext Hkeep. induction l as [|b r IH]; intros a Hin Ha s;
    [destruct Hin |].
  destruct Hin as [-> | Hin]; simpl.
  - apply (Hkeep (f s a)); [apply Ha | now apply fold_extends].
  - now apply (IH a).
Qed.

Lemma partners_extend (m u : string) (s : spouse_state) :
  extends s
    (fold_left (fun st q => Patrilineal.addSpouse data familyId m q st)
       (parseUnionId u) s).
Proof. apply fold_extends. intros s0 q. apply addSpouse_extends. Qed.

Lemma unions_extend (m : string) (s : spouse_state) :
  extends s
    (fold_left
       (fun st u =>
          fold_left (fun st q => Patrilineal.addSpouse data familyId m q st)
            (parseUnionId u) st)
       (getUnionsForMember data m) s).
Proof. apply fold_extends. intros s0 u. apply partners_extend. Qed.

End AddSpouse.

(** Spouse assignment of the patrilineal revision, on the birth families
    and the lists: no birth family is changed; every list that was there
    is kept as the front of the new one; lists without duplicates stay
    so; and every partner that a union id of a member names (a person of
    the table, not the member, not ['0']) ends with the family in its
    list and with a birth family that is in its list as well. *)
Theorem assignSpousesToFamilies_lists (data : FamilyData) (familyId : string)
  (fm : JsSet.t) (birth : JsMap.t string) (m2f : JsMap.t (list string)) :
  extends (fm, birth, m2f)
    (Patrilineal.assignSpousesToFamilies data familyId fm birth m2f) /\
  (forall p, named_partner data fm p ->
     settled familyId p
       (Patrilineal.assignSpousesToFamilies data familyId fm birth m2f)).
Proof.
  unfold Patrilineal.assignSpousesToFamilies. split.
  - apply fold_extends. intros s m. apply unions_extend.
  - intros p (m & u & Hm & Hl & Hu & Hp & Hpm & Hp0 & Hh).
    apply (fold_settles _ (settled familyId p)) with (a := m).
    + intros s a. apply unions_extend.
    + intros s s'. apply settled_kept.
    + exact Hm.
    + intros s. apply (fold_settles _ (settled familyId p)) with (a := u).
      * intros s0 a. apply partners_extend.
      * intros s0 s'. apply settled_kept.
      * apply getUnionsForMember_In. now split.
      * intros s0. apply (fold_settles _ (settled familyId p)) with (a := p).
        -- intros s1 a. apply addSpouse_extends.
        -- intros s1 s'. apply settled_kept.
        -- exact Hp.
        -- intros s1. now apply addSpouse_settles.
Qed.

(** ** Spouse assignment, exactly *)

Lemma fold_left_flat_map {A B S} (f : S -> B -> S) (g : A -> list B)
  (l : list A) :
  forall s,
    fold_left f (flat_map g l) s
    = fold_left (fun s a => fold_left f (g a) s) l s.
Proof.
  induction l as [|a r IH]; intros s; simpl; [reflexivity |].
  now rewrite fold_left_app, IH.
Qed.

Lemma fold_left_map {A B S} (f : S -> B -> S) (h : A -> B) (l : list A) :
  forall s, fold_left f (map h l) s = fold_left (fun s a => f s (h a)) l s.
Proof. induction l as [|a r IH]; intros s; simpl; [reflexivity | apply IH]. Qed.

Lemma fold_left_ext {A S} (f g : S -> A -> S) (l : list A) :
  (forall s a, f s a = g s a) ->
  forall s, fold_left f l s = fold_left g l s.
Proof.
  intros H. induction l as [|a r IH]; intros s; simpl; [reflexivity |].
  now rewrite H, IH.
Qed.

(** What holds for the part of the list already gone through holds for
    the whole list at the end. *)
Lemma fold_left_inv {A S} (J : list A -> S -> Prop) (step : S -> A -> S)
  (l : list A) :
  forall done s,
    J done s ->
    (forall d a s, J d s -> J (d ++ [a]) (step s a)) ->
    J (done ++ l) (fold_left step l s).
Proof.
  induction l as [|a r IH]; intros done s Hj Hstep; simpl.
  - now rewrite app_nil_r.
  - replace (done ++ a :: r) with ((done ++ [a]) ++ r)
      by (now rewrite <- app_assoc).
    apply IH; [now apply Hstep | exact Hstep].
Qed.

Lemma assignSpousesToFamilies_pairs (data : FamilyData) (familyId : string)
  (fm : JsSet.t) (b : JsMap.t string) (t : JsMap.t (list string)) :
  Patrilineal.assignSpousesToFamilies data familyId fm b t
  = fold_left
      (fun st p => Patrilineal.addSpouse data familyId (fst p) (snd p) st)
      (spouse_pairs data fm) (fm, b, t).
Proof.
  unfold Patrilineal.assignSpousesToFamilies, spouse_pairs.
  rewrite fold_left_flat_map. apply fold_left_ext. intros s m.
  rewrite fold_left_flat_map. apply fold_left_ext. intros s1 u.
  now rewrite fold_left_map.
Qed.

Lemma spouse_pairs_named (data : FamilyData) (fm : JsSet.t) (x : string) :
  (exists p, In p (spouse_pairs data fm) /\ weds data p x) <->
  named_partner data fm x.
Proof.
  unfold spouse_pairs, weds, named_partner. split.
  - intros ([m q] & Hin & Hq & Hm & H0 & Hh). simpl in *. subst q.
    apply in_flat_map in Hin as (m' & Hm' & Hin).
    apply in_flat_map in Hin as (u & Hu & Hin).
    apply in_map_iff in Hin as (q & Heq & Hq). injection Heq as -> ->.
    apply getUnionsForMember_In in Hu as [Hl Hu].
    exists m, u. tauto.
  - intros (m & u & Hm & Hl & Hu & Hp & Hne & H0 & Hh).
    exists (m, x). simpl. split; [| tauto].
    apply in_flat_map. exists m. split; [exact Hm |].
    apply in_flat_map. exists u. split.
    + apply getUnionsForMember_In. now split.
    + apply in_map_iff. now exists x.
Qed.

Lemma push_In (x z : string) (l : list string) :
  In z (if negb (Patrilineal.includes x l) then l ++ [x] else l)
  <-> In z l \/ z = x.
Proof.
  unfold Patrilineal.includes.
  destruct (existsb (String.eqb x) l) eqn:E; simpl.
  - apply (has_In x l) in E. split; [tauto | intros [H | ->]; assumption].
  - rewrite in_app_iff. simpl. intuition congruence.
Qed.

Lemma push_hd (x : string) (l : list string) :
  hd_error (if negb (Patrilineal.includes x l) then l ++ [x] else l)
  = match l with [] => Some x | a :: _ => Some a end.
Proof.
  destruct l as [|a r]; [reflexivity |].
  now destruct (negb (Patrilineal.includes x (a :: r))).
Qed.

Section Spouses.

Variable data : FamilyData.
Variable familyId : string.

Lemma addSpouse_skip (m q : string) (st : spouse_state) :
  q = m \/ q = "0"%string \/ has_member data q = false ->
  Patrilineal.addSpouse data familyId m q st = st.
Proof.
  intros H. destruct st as [[ms b] t]. unfold Patrilineal.addSpouse.
  destruct H as [-> | [-> | H]].
  - now rewrite String.eqb_refl.
  - now rewrite String.eqb_refl, orb_true_r.
  - rewrite H. now destruct (String.eqb q m || String.eqb q "0").
Qed.

Lemma addSpouse_exact (m q : string) (ms : JsSet.t) (b : JsMap.t string)
  (t : JsMap.t (list string)) :
  q <> m -> q <> "0"%string -> has_member data q = true ->
  exists sf,
    Patrilineal.addSpouse data familyId m q (ms, b, t)
    = (JsSet.add q ms,
       (if JsMap.has q b then b else JsMap.set q familyId b),
       JsMap.set q sf (if JsMap.has q t then t else JsMap.set q [] t)) /\
    (forall z,
       In z sf <->
       In z (match JsMap.get q t with Some l => l | None => [] end) \/
       z = familyId \/
       (z = match JsMap.get q b with Some v => v | None => familyId end /\
        truthy z = true)) /\
    (NoDup (match JsMap.get q t with Some l => l | None => [] end) ->
     NoDup sf) /\
    hd_error sf
    = match match JsMap.get q t with Some l => l | None => [] end with
      | [] =>
          Some (if truthy
                     match JsMap.get q b with
                     | Some v => v
                     | None => familyId
                     end
                then match JsMap.get q b with
                     | Some v => v
                     | None => familyId
                     end
                else familyId)
      | a :: _ => Some a
      end.
Proof.
  intros Hm H0 Hh. unfold Patrilineal.addSpouse.
  apply String.eqb_neq in Hm, H0. rewrite Hm, H0, Hh. cbn [orb negb].
  set (sf0 := match JsMap.get q t with Some l => l | None => [] end).
  set (bf := match JsMap.get q b with Some v => v | None => familyId end).
  assert (JsMap.get q (if JsMap.has q t then t else JsMap.set q [] t)
          = Some sf0) as ->.
  { unfold sf0, JsMap.has. destruct (JsMap.get q t) as [l|] eqn:E;
      [exact E | apply map_get_set_same]. }
  assert (JsMap.get q (if JsMap.has q b then b else JsMap.set q familyId b)
          = Some bf) as ->.
  { unfold bf, JsMap.has. destruct (JsMap.get q b) as [v|] eqn:E;
      [exact E | apply map_get_set_same]. }
  eexists. split; [reflexivity |]. split; [| split].
  - intros z. rewrite push_In.
    destruct (truthy bf) eqn:Et; cbn [andb].
    + rewrite push_In. split.
      * intros [[H | ->] | ->]; [now left | right; right | right; now left].
        now split.
      * intros [H | [-> | [-> _]]]; [left; now left | now right |].
        left. now right.
    + split.
      * intros [H | ->]; [now left | right; now left].
      * intros [H | [-> | [-> Hz]]]; [now left | now right | congruence].
  - intros Hnd.
    assert (forall x l, NoDup l ->
              NoDup (if negb (Patrilineal.includes x l) then l ++ [x] else l))
      as Hpush by (intros x l; apply (push_absent x l)).
    apply Hpush. destruct (truthy bf); cbn [andb]; [now apply Hpush | exact Hnd].
  - rewrite push_hd. destruct (truthy bf); cbn [andb]; [| reflexivity].
    destruct sf0 as [|a r]; [reflexivity |].
    now destruct (negb (Patrilineal.includes bf (a :: r))).
Qed.

(** A step of spouse assignment keeps birth families and lists well
    kept. *)
Lemma addSpouse_well_kept (m q : string) (ms : JsSet.t) (b : JsMap.t string)
  (t : JsMap.t (list string)) :
  truthy familyId = true ->
  well_kept b t ->
  well_kept
    (snd (fst (Patrilineal.addSpouse data familyId m q (ms, b, t))))
    (snd (Patrilineal.addSpouse data familyId m q (ms, b, t))).
Proof.
  intros Hfid [Hv Hl].
  destruct (String.eqb q m) eqn:Em.
  { apply String.eqb_eq in Em.
    rewrite addSpouse_skip by now left. now split. }
  destruct (String.eqb q "0") eqn:E0.
  { apply String.eqb_eq in E0.
    rewrite addSpouse_skip by (right; now left). now split. }
  destruct (has_member data q) eqn:Eh;
    [| rewrite addSpouse_skip by (right; now right); now split].
  apply String.eqb_neq in Em, E0.
  destruct (addSpouse_exact m q ms b t Em E0 Eh) as (sf & -> & Hin & Hnd & Hhd).
  cbn [fst snd].
  assert (forall x v,
            JsMap.get x (if JsMap.has q b then b else JsMap.set q familyId b)
            = Some v ->
            JsMap.get x b = Some v \/ (x = q /\ JsMap.get q b = None /\ v = familyId))
    as Hb1.
  { intros x v. unfold JsMap.has. destruct (JsMap.get q b) eqn:Eq;
      [now left |].
    destruct (String.eqb x q) eqn:Ex.
    - apply String.eqb_eq in Ex. subst x. rewrite map_get_set_same.
      intros H. injection H as <-. now right.
    - rewrite map_get_set_other by exact Ex. now left. }
  assert (forall x v, JsMap.get x b = Some v ->
            JsMap.get x (if JsMap.has q b then b else JsMap.set q familyId b)
            = Some v) as Hb2.
  { intros x v H. unfold JsMap.has. destruct (JsMap.get q b) eqn:Eq;
      [exact H |].
    rewrite map_get_set_other; [exact H |]. apply ResultFacts.eqb_neq_false.
    intros ->. congruence. }
  split.
  - intros x v H. apply Hb1 in H as [H | (_ & _ & ->)];
      [now apply (Hv x) | exact Hfid].
  - intros x l. destruct (String.eqb x q) eqn:Ex.
    + apply String.eqb_eq in Ex. subst x. rewrite map_get_set_same.
      intros H. injection H as <-.
      destruct (JsMap.get q t) as [l0|] eqn:Et.
      * destruct (Hl q l0 Et) as (Hn0 & v & Hbv & Hh0). split; [now apply Hnd |].
        exists v. split; [now apply Hb2 |]. rewrite Hhd.
        destruct l0; [discriminate | exact Hh0].
      * split; [apply Hnd; constructor |]. rewrite Hhd.
        unfold JsMap.has. destruct (JsMap.get q b) as [v|] eqn:Eb.
        -- exists v. split; [exact Eb |]. now rewrite (Hv q v Eb).
        -- exists familyId. split; [apply map_get_set_same |].
           now rewrite Hfid.
    + rewrite map_get_set_other by exact Ex. intros H.
      assert (JsMap.get x t = Some l) as Ht.
      { unfold JsMap.has in H. destruct (JsMap.get q t); [exact H |].
        now rewrite map_get_set_other in H by exact Ex. }
      destruct (Hl x l Ht) as (Hn & v & Hbv & Hh). split; [exact Hn |].
      exists v. split; [now apply Hb2 | exact Hh].
Qed.

(** The state of spouse assignment after the pairs [d], from the birth
    families [b0] and the lists [t0]. *)
Lemma spouses_after (b0 : JsMap.t string) (t0 : JsMap.t (list string))
  (ms0 : JsSet.t) (l : list (string * string)) :
  (forall x v,
     JsMap.get x
       (snd (fst (fold_left
                    (fun st p =>
                       Patrilineal.addSpouse data familyId (fst p) (snd p) st)
                    l (ms0, b0, t0)))) = Some v <->
     JsMap.get x b0 = Some v \/
     (JsMap.get x b0 = None /\ (exists p, In p l /\ weds data p x) /\
      v = familyId)) /\
  (forall x f,
     listed
       (snd (fold_left
               (fun st p =>
                  Patrilineal.addSpouse data familyId (fst p) (snd p) st)
               l (ms0, b0, t0))) x f <->
     listed t0 x f \/
     ((exists p, In p l /\ weds data p x) /\
      (f = familyId \/
       (JsMap.get x
          (snd (fst (fold_left
                       (fun st p =>
                          Patrilineal.addSpouse data familyId (fst p) (snd p)
                            st)
                       l (ms0, b0, t0)))) = Some f /\
        truthy f = true)))) /\
  (forall x,
     JsMap.has x
       (snd (fold_left
               (fun st p =>
                  Patrilineal.addSpouse data familyId (fst p) (snd p) st)
               l (ms0, b0, t0))) = true <->
     JsMap.has x t0 = true \/ exists p, In p l /\ weds data p x).
Proof.
  pose proof (fold_left_inv
                (fun d (st : spouse_state) =>
                   (forall x v,
                      JsMap.get x (snd (fst st)) = Some v <->
                      JsMap.get x b0 = Some v \/
                      (JsMap.get x b0 = None /\
                       (exists p, In p d /\ weds data p x) /\ v = familyId)) /\
                   (forall x f,
                      listed (snd st) x f <->
                      listed t0 x f \/
                      ((exists p, In p d /\ weds data p x) /\
                       (f = familyId \/
                        (JsMap.get x (snd (fst st)) = Some f /\
                         truthy f = true)))) /\
                   (forall x,
                      JsMap.has x (snd st) = true <->
                      JsMap.has x t0 = true \/
                      exists p, In p d /\ weds data p x))
                (fun st p =>
                   Patrilineal.addSpouse data familyId (fst p) (snd p) st)
                l [] (ms0, b0, t0)) as H.
  cbn [app] in H. apply H; clear H.
  - cbn [fst snd]. split; [| split].
    + intros x v. split; [now left |].
      intros [H | (_ & (p & [] & _) & _)]. exact H.
    + intros x f. split; [now left |].
      intros [H | ((p & [] & _) & _)]. exact H.
    + intros x. split; [now left |].
      intros [H | (p & [] & _)]. exact H.
  - intros d [m q] [[ms b] t] (Hb & Hl & Hk). cbn [fst snd] in *.
    assert (forall x, (exists p, In p (d ++ [(m, q)]) /\ weds data p x) <->
              (exists p, In p d /\ weds data p x) \/ weds data (m, q) x)
      as Hsnoc.
    { intros x. split.
      - intros (p & Hp & Hw). apply in_app_iff in Hp as [Hp | [<- | []]];
          [left; now exists p | now right].
      - intros [(p & Hp & Hw) | Hw].
        + exists p. split; [apply in_app_iff; now left | exact Hw].
        + exists (m, q). split; [apply in_app_iff; right; now left | exact Hw]. }
    destruct (String.eqb q m) eqn:Em;
      [| destruct (String.eqb q "0") eqn:E0;
         [| destruct (has_member data q) eqn:Eh]].
    1, 2, 4:
      (assert (forall x, ~ weds data (m, q) x) as Hno
         by (intros x (Hx & H1 & H2 & H3); simpl in *; subst x;
             try (apply String.eqb_eq in Em; congruence);
             try (apply String.eqb_eq in E0; congruence);
             congruence);
       rewrite addSpouse_skip
         by (try (apply String.eqb_eq in Em; now left);
             try (apply String.eqb_eq in E0; right; now left);
             right; now right);
       cbn [fst snd];
       assert (forall x, (exists p, In p (d ++ [(m, q)]) /\ weds data p x) <->
                 (exists p, In p d /\ weds data p x)) as Hsame
         by (intros x; rewrite Hsnoc; split; [intros [H | H]; [exact H |];
             now apply Hno in H | now left]);
       split; [| split];
       [intros x v; rewrite Hsame; apply Hb
       | intros x f; rewrite Hsame; apply Hl
       | intros x; rewrite Hsame; apply Hk]).
    apply String.eqb_neq in Em, E0.
    destruct (addSpouse_exact m q ms b t Em E0 Eh) as (sf & -> & Hin & _ & _).
    cbn [fst snd].
    assert (forall x, weds data (m, q) x <-> x = q) as Hw.
    { intros x. unfold weds. simpl. split; [intros (H & _); now symmetry |].
      intros ->. tauto. }
    set (b1 := if JsMap.has q b then b else JsMap.set q familyId b).
    assert (forall x, x <> q -> JsMap.get x b1 = JsMap.get x b) as Hb1o.
    { intros x Hx. unfold b1. destruct (JsMap.has q b); [reflexivity |].
      apply map_get_set_other. now apply ResultFacts.eqb_neq_false. }
    assert (JsMap.get q b1
            = Some match JsMap.get q b with Some v => v | None => familyId end)
      as Hb1q.
    { unfold b1, JsMap.has. destruct (JsMap.get q b) eqn:E; [exact E |].
      apply map_get_set_same. }
    assert (forall x v, JsMap.get x b1 = Some v <->
              JsMap.get x b0 = Some v \/
              (JsMap.get x b0 = None /\
               (exists p, In p (d ++ [(m, q)]) /\ weds data p x) /\
               v = familyId)) as Hb'.
    { intros x v. rewrite Hsnoc, Hw. destruct (String.eqb x q) eqn:Ex.
      - apply String.eqb_eq in Ex. subst x. rewrite Hb1q.
        destruct (JsMap.get q b) as [w|] eqn:Eq.
        + pose proof (proj1 (Hb q w) Eq) as Hold. split.
          * intros H. injection H as <-.
            destruct Hold as [H | (H1 & H2 & H3)]; [now left | right].
            split; [exact H1 | split; [now right | exact H3]].
          * intros [H | (H1 & _ & ->)].
            -- destruct Hold as [H' | (H1 & _)]; congruence.
            -- destruct Hold as [H' | (_ & _ & ->)]; congruence.
        + split.
          * intros H. injection H as <-. right.
            destruct (JsMap.get q b0) as [w|] eqn:E0';
              [| split; [reflexivity | split; [now right | reflexivity]]].
            pose proof (proj2 (Hb q w) (or_introl E0')). congruence.
          * intros [H | (_ & _ & ->)]; [| reflexivity].
            pose proof (proj2 (Hb q v) (or_introl H)). congruence.
      - apply String.eqb_neq in Ex. rewrite (Hb1o x Ex), Hb.
        split; (intros [H | (H1 & H2 & H3)]; [now left | right]);
          (split; [exact H1 | split; [| exact H3]]).
        + now left.
        + destruct H2 as [H2 | H2]; [exact H2 | congruence]. }
    split; [exact Hb' | split].
    + intros x f. rewrite Hsnoc, Hw. unfold listed.
      destruct (String.eqb x q) eqn:Ex.
      * apply String.eqb_eq in Ex. subst x. rewrite map_get_set_same, Hb1q.
        assert ((exists l, Some sf = Some l /\ In f l) <-> In f sf) as ->.
        { split; [intros (l1 & Hl' & Hf); congruence | intros Hf; now exists sf]. }
        rewrite Hin.
        assert (In f match JsMap.get q t with Some l => l | None => [] end
                <-> listed t q f) as ->.
        { unfold listed. destruct (JsMap.get q t) as [l1|].
          - split; [intros Hf; now exists l1 | intros (l' & Hl' & Hf); congruence].
          - split; [intros [] | intros (l' & Hl' & _); discriminate]. }
        rewrite Hl. unfold listed. split.
        -- intros [[H | (_ & [-> | [Hf Ht]])] | [-> | [-> Ht]]].
           ++ now left.
           ++ right. split; [now right | now left].
           ++ right. split; [now right | right]. split; [| exact Ht].
              now rewrite Hf.
           ++ right. split; [now right | now left].
           ++ right. split; [now right | right]. now split.
        -- intros [H | (_ & [-> | [Hf Ht]])].
           ++ left. now left.
           ++ right. now left.
           ++ right. right. injection Hf as <-. now split.
      * apply String.eqb_neq in Ex.
        rewrite map_get_set_other by now apply ResultFacts.eqb_neq_false.
        assert (JsMap.get x (if JsMap.has q t then t else JsMap.set q [] t)
                = JsMap.get x t) as ->.
        { destruct (JsMap.has q t); [reflexivity |].
          apply map_get_set_other. now apply ResultFacts.eqb_neq_false. }
        rewrite (Hb1o x Ex). fold (listed t x f). rewrite Hl. unfold listed.
        split; (intros [H | (H1 & H2)]; [now left | right]);
          (split; [| exact H2]).
        -- now left.
        -- destruct H1 as [H1 | H1]; [exact H1 | congruence].
    + intros x. rewrite Hsnoc, Hw. destruct (String.eqb x q) eqn:Ex.
      * apply String.eqb_eq in Ex. subst x. rewrite map_has_set_same.
        split; [intros _; right; now right | reflexivity].
      * unfold JsMap.has at 1. rewrite map_get_set_other by exact Ex.
        assert (JsMap.get x (if JsMap.has q t then t else JsMap.set q [] t)
                = JsMap.get x t) as ->.
        { destruct (JsMap.has q t); [reflexivity |].
          now apply map_get_set_other. }
        fold (JsMap.has x t). rewrite Hk. apply String.eqb_neq in Ex.
        split; (intros [H | H]; [now left | right]).
        -- now left.
        -- destruct H as [H | H]; [exact H | congruence].
Qed.

End Spouses.

(** Step 5 of the patrilineal revision, for one family: entries that
    exist are left alone; every member of the family ends with an entry;
    a member without one gets the list of its birth family alone (the
    empty list when it has none); ids outside the family are untouched. *)
Theorem completeFamily_spec (ms : JsSet.t) (birth : JsMap.t string)
  (m2f : JsMap.t (list string)) :
  (forall k l, JsMap.get k m2f = Some l ->
     JsMap.get k (Patrilineal.completeFamily ms birth m2f) = Some l) /\
  (forall k, In k ms ->
     JsMap.has k (Patrilineal.completeFamily ms birth m2f) = true) /\
  (forall k, In k ms -> JsMap.get k m2f = None ->
     JsMap.get k (Patrilineal.completeFamily ms birth m2f)
     = Some match JsMap.get k birth with
            | Some b => if truthy b then [b] else []
            | None => []
            end) /\
  (forall k, ~ In k ms ->
     JsMap.get k (Patrilineal.completeFamily ms birth m2f)
     = JsMap.get k m2f).
Proof.
  unfold Patrilineal.completeFamily.
  set (f := fun (m : JsMap.t (list string)) (memberId : string) =>
              if JsMap.has memberId m then m
              else
                match JsMap.get memberId birth with
                | Some birthFamilyId =>
                    JsMap.set memberId
                      (if truthy birthFamilyId then [birthFamilyId] else []) m
                | None => JsMap.set memberId [] m
                end).
  assert (forall m a,
            f m a = if JsMap.has a m then m
                    else JsMap.set a
                           match JsMap.get a birth with
                           | Some b => if truthy b then [b] else []
                           | None => []
                           end m) as Hf.
  { intros m a. unfold f. destruct (JsMap.has a m); [reflexivity |].
    now destruct (JsMap.get a birth). }
  assert (forall m a k l, JsMap.get k m = Some l ->
            JsMap.get k (f m a) = Some l) as Hkeep1.
  { intros m a k l H. rewrite Hf. unfold JsMap.has.
    destruct (JsMap.get a m) eqn:Ha; [exact H |].
    rewrite map_get_set_other; [exact H |].
    apply ResultFacts.eqb_neq_false. intros ->. congruence. }
  assert (forall l m k v, JsMap.get k m = Some v ->
            JsMap.get k (fold_left f l m) = Some v) as Hkeep.
  { induction l as [|a r IH]; intros m k v H; simpl; [exact H |].
    apply IH, Hkeep1, H. }
  assert (forall l m k, In k l -> JsMap.get k m = None ->
            JsMap.get k (fold_left f l m)
            = Some match JsMap.get k birth with
                   | Some b => if truthy b then [b] else []
                   | None => []
                   end) as Hnew.
  { induction l as [|a r IH]; intros m k Hin Hk; [destruct Hin |].
    simpl. destruct (String.eqb k a) eqn:E.
    - apply String.eqb_eq in E. subst a. apply Hkeep. rewrite Hf.
      unfold JsMap.has. rewrite Hk. apply map_get_set_same.
    - destruct Hin as [-> | Hin]; [now rewrite String.eqb_refl in E |].
      apply IH; [exact Hin |]. rewrite Hf.
      destruct (JsMap.has a m); [exact Hk |].
      now rewrite map_get_set_other. }
  split; [intros k l; apply Hkeep |].
  split.
  { intros k Hin. unfold JsMap.has.
    destruct (JsMap.get k m2f) as [l|] eqn:Hk.
    - now rewrite (Hkeep ms m2f k l Hk).
    - now rewrite (Hnew ms m2f k Hin Hk). }
  split; [intros k; apply Hnew |].
  revert m2f. induction ms as [|a r IH]; intros m2f k Hnot; [reflexivity |].
  simpl. rewrite IH by (intros H; apply Hnot; now right).
  rewrite Hf. destruct (JsMap.has a m2f); [reflexivity |].
  apply map_get_set_other. apply ResultFacts.eqb_neq_false.
  intros ->. apply Hnot. now left.
Qed.

(** ** First elements *)

Lemma first_with_snoc {A} (P : A -> Prop) (d : list A) (a f : A) :
  first_with P (d ++ [a]) f <->
  first_with P d f \/ ((forall g, In g d -> ~ P g) /\ f = a /\ P a).
Proof.
  unfold first_with. split.
  - intros (l1 & l2 & Heq & Hp & Hno).
    destruct l2 as [|z l2 _] using rev_ind.
    + apply app_inj_tail in Heq as [-> ->]. right. now repeat split.
    + change (l1 ++ f :: l2 ++ [z]) with (l1 ++ (f :: l2) ++ [z]) in Heq.
      rewrite app_assoc in Heq. apply app_inj_tail in Heq as [-> ->].
      left. now exists l1, l2.
  - intros [(l1 & l2 & -> & Hp & Hno) | (Hno & -> & Hp)].
    + exists l1, (l2 ++ [a]). split; [| now split].
      now rewrite <- app_assoc.
    + exists d, []. now repeat split.
Qed.

Lemma first_with_In {A} (P : A -> Prop) (l : list A) (a : A) :
  first_with P l a -> In a l /\ P a.
Proof.
  intros (l1 & l2 & -> & Hp & _). split; [| exact Hp].
  apply in_app_iff. right. now left.
Qed.

Lemma Forall2_swap {A B} (R : A -> B -> Prop) (l : list A) (l' : list B) :
  Forall2 R l l' -> Forall2 (fun b a => R a b) l' l.
Proof. induction 1; constructor; assumption. Qed.

Lemma first_with_transfer {A B} (R : A -> B -> Prop) (P : A -> Prop)
  (P' : B -> Prop) (l : list A) (l' : list B) :
  Forall2 R l l' ->
  (forall a b, R a b -> (P a <-> P' b)) ->
  forall a, first_with P l a -> exists b, R a b /\ first_with P' l' b.
Proof.
  intros HF Hiff a (l1 & l2 & -> & Hp & Hno).
  apply Forall2_app_inv_l in HF as (l1' & l2' & H1 & H2 & ->).
  inversion H2 as [|? b ? l2'' Hab H2']; subst.
  exists b. split; [exact Hab |]. exists l1', l2''.
  split; [reflexivity | split; [now apply (Hiff a b Hab) |]].
  intros g' Hg' Hpg'.
  destruct (PlacementFacts.Forall2_In_r R l1 l1' H1 g' Hg') as (g & Hg & Hr).
  apply (Hno g Hg). now apply (Hiff g g' Hr).
Qed.

(** ** Step 5, exactly *)

Lemma completeFamily_exact (b : JsMap.t string) (ms : JsSet.t) :
  forall t : JsMap.t (list string),
    well_kept b t ->
    (forall x, In x ms -> exists v, JsMap.get x b = Some v) ->
    (forall x f,
       listed (Patrilineal.completeFamily ms b t) x f <->
       listed t x f \/
       (JsMap.has x t = false /\ In x ms /\ JsMap.get x b = Some f)) /\
    (forall x,
       JsMap.has x (Patrilineal.completeFamily ms b t) = true <->
       JsMap.has x t = true \/ In x ms) /\
    well_kept b (Patrilineal.completeFamily ms b t).
Proof.
  unfold Patrilineal.completeFamily.
  induction ms as [|a r IH]; intros t Hwk Hb; simpl.
  - split; [| split; [| exact Hwk]].
    + intros x f. split; [now left | intros [H | (_ & [] & _)]; exact H].
    + intros x. split; [now left | intros [H | []]; exact H].
  - destruct (Hb a (or_introl eq_refl)) as [v Hv].
    pose proof Hwk as [Htr Hl].
    pose proof (Htr a v Hv) as Htv.
    set (t1 := if JsMap.has a t then t
               else match JsMap.get a b with
                    | Some birthFamilyId =>
                        JsMap.set a
                          (if truthy birthFamilyId then [birthFamilyId] else [])
                          t
                    | None => JsMap.set a [] t
                    end).
    assert (t1 = if JsMap.has a t then t else JsMap.set a [v] t) as Ht1.
    { unfold t1. rewrite Hv, Htv. reflexivity. }
    clearbody t1. subst t1.
    assert (forall x, x <> a ->
              JsMap.get x (if JsMap.has a t then t else JsMap.set a [v] t)
              = JsMap.get x t) as Hother.
    { intros x Hx. destruct (JsMap.has a t); [reflexivity |].
      apply map_get_set_other. now apply ResultFacts.eqb_neq_false. }
    assert (well_kept b (if JsMap.has a t then t else JsMap.set a [v] t))
      as Hwk1.
    { split; [exact Htr |]. intros x l. destruct (String.eqb x a) eqn:Ex.
      - apply String.eqb_eq in Ex. subst x. unfold JsMap.has.
        destruct (JsMap.get a t) as [l0|] eqn:Ea.
        + rewrite Ea. intros H. injection H as <-. now apply (Hl a).
        + rewrite map_get_set_same. intros H. injection H as <-.
          split; [repeat constructor; intros [] |]. now exists v.
      - apply String.eqb_neq in Ex. rewrite (Hother x Ex). apply Hl. }
    destruct (IH _ Hwk1 (fun x Hx => Hb x (or_intror Hx))) as (I1 & I2 & I3).
    assert (forall x,
              JsMap.has x (if JsMap.has a t then t else JsMap.set a [v] t)
              = JsMap.has x t || String.eqb x a) as Hhas.
    { intros x. destruct (String.eqb x a) eqn:Ex.
      - apply String.eqb_eq in Ex. subst x. rewrite orb_true_r.
        destruct (JsMap.has a t) eqn:Ea; [exact Ea | apply map_has_set_same].
      - apply String.eqb_neq in Ex. unfold JsMap.has at 1.
        rewrite (Hother x Ex). now rewrite orb_false_r. }
    assert (forall x f,
              listed (if JsMap.has a t then t else JsMap.set a [v] t) x f <->
              listed t x f \/
              (JsMap.has x t = false /\ x = a /\ JsMap.get x b = Some f))
      as Hlisted.
    { intros x f. unfold listed. destruct (String.eqb x a) eqn:Ex.
      - apply String.eqb_eq in Ex. subst x. unfold JsMap.has.
        destruct (JsMap.get a t) as [l0|] eqn:Ea.
        + rewrite Ea. split; [now left |].
          intros [H | (H & _)]; [exact H | discriminate].
        + rewrite map_get_set_same. split.
          * intros (l & Hl' & Hf). injection Hl' as <-.
            destruct Hf as [<- | []]. right. now repeat split.
          * intros [(l & Hl' & _) | (_ & _ & Hf)]; [discriminate |].
            exists [v]. split; [reflexivity |]. left. congruence.
      - apply String.eqb_neq in Ex. rewrite (Hother x Ex).
        split; [now left |]. intros [H | (_ & H & _)]; [exact H | congruence]. }
    split; [| split; [| exact I3]].
    + intros x f. rewrite I1, Hlisted, Hhas. split.
      * intros [[H | (H1 & -> & H3)] | (H1 & H2 & H3)].
        -- now left.
        -- right. split; [exact H1 | split; [now left | exact H3]].
        -- right. apply orb_false_iff in H1 as [H1 _].
           split; [exact H1 | split; [now right | exact H3]].
      * intros [H | (H1 & H2 & H3)]; [left; now left |].
        destruct (String.eqb x a) eqn:Ex.
        -- apply String.eqb_eq in Ex. subst x. left. right. now repeat split.
        -- right. rewrite H1. split; [reflexivity |]. split; [| exact H3].
           destruct H2 as [<- | H2]; [| exact H2].
           now rewrite String.eqb_refl in Ex.
    + intros x. rewrite I2, Hhas, orb_true_iff, String.eqb_eq.
      intuition (subst; auto).
Qed.

(** ** Spouse assignment for the line of a root *)

Lemma line_partners (data : FamilyData) (root : string) (s : JsSet.t)
  (x : string) :
  (forall z, In z s <-> descends data root z) ->
  named_partner data s x <-> married_into data root x.
Proof.
  intros Hs. unfold married_into, named_partner, partner_of. split.
  - intros (m & u & Hm & Hl & Hu & Hp & Hne & _ & Hh).
    exists m. split; [now apply Hs |]. exists u. tauto.
  - intros (d & Hd & u & Hl & Hu & Hp & Hne & Hh).
    exists d, u. split; [now apply Hs |].
    destruct (UnionIdFacts.parseUnionId_named u x Hp) as [_ Hz]. tauto.
Qed.

Lemma spouses_well_kept (data : FamilyData) (familyId : string)
  (l : list (string * string)) :
  truthy familyId = true ->
  forall st : spouse_state,
    well_kept (snd (fst st)) (snd st) ->
    well_kept
      (snd (fst (fold_left
                   (fun st p =>
                      Patrilineal.addSpouse data familyId (fst p) (snd p) st)
                   l st)))
      (snd (fold_left
              (fun st p =>
                 Patrilineal.addSpouse data familyId (fst p) (snd p) st)
              l st)).
Proof.
  intros Hfid. induction l as [|[m q] r IH]; intros st Hwk; simpl;
    [exact Hwk |].
  apply IH. destruct st as [[ms b] t]. now apply addSpouse_well_kept.
Qed.

Lemma assignSpouses_line (data : FamilyData) (familyId root : string)
  (s : JsSet.t) (b : JsMap.t string) (t : JsMap.t (list string))
  (ms' : JsSet.t) (b' : JsMap.t string) (t' : JsMap.t (list string)) :
  Patrilineal.assignSpousesToFamilies data familyId s b t = (ms', b', t') ->
  (forall z, In z s <-> descends data root z) ->
  NoDup s -> truthy familyId = true -> well_kept b t ->
  NoDup ms' /\
  (forall x, In x ms' <-> descends data root x \/ married_into data root x) /\
  (forall x v,
     JsMap.get x b' = Some v <->
     JsMap.get x b = Some v \/
     (JsMap.get x b = None /\ married_into data root x /\ v = familyId)) /\
  (forall x f,
     listed t' x f <->
     listed t x f \/
     (married_into data root x /\ (f = familyId \/ JsMap.get x b' = Some f))) /\
  (forall x,
     JsMap.has x t' = true <-> JsMap.has x t = true \/ married_into data root x) /\
  well_kept b' t'.
Proof.
  intros Hrun Hs Hnd Hfid Hwk.
  pose proof (SpouseFacts.assignSpousesToFamilies_members data familyId s b t)
    as Hms.
  rewrite Hrun in Hms. cbn [fst] in Hms.
  rewrite assignSpousesToFamilies_pairs in Hrun.
  destruct (spouses_after data familyId b t s (spouse_pairs data s))
    as (Hb & Hl & Hk).
  pose proof (spouses_well_kept data familyId (spouse_pairs data s) Hfid
                (s, b, t) Hwk) as Hwk'.
  rewrite Hrun in Hb, Hl, Hk, Hwk'. cbn [fst snd] in Hb, Hl, Hk, Hwk'.
  assert (forall x, (exists p, In p (spouse_pairs data s) /\ weds data p x) <->
            married_into data root x) as Hq.
  { intros x. rewrite spouse_pairs_named. now apply line_partners. }
  split; [| split; [| split; [| split; [| split; [| exact Hwk']]]]].
  - rewrite Hms. now apply ResultFacts.assignSpouses_NoDup.
  - intros x. rewrite Hms, SpouseFacts.assignSpouses_In, Hs.
    now rewrite (line_partners data root s x Hs).
  - intros x v. rewrite Hb, Hq. reflexivity.
  - intros x f. rewrite Hl, Hq. split.
    + intros [H | (H1 & [H2 | [H2 _]])]; [now left | right | right];
        (split; [exact H1 |]); [now left | now right].
    + intros [H | (H1 & [H2 | H2])]; [now left | right | right];
        (split; [exact H1 |]); [now left | right].
      split; [exact H2 |]. destruct Hwk' as [Htr _]. now apply (Htr x).
  - intros x. rewrite Hk, Hq. reflexivity.
Qed.

(** ** The steps of [detectFamilies], patrilineal revision *)

Section LineSteps.

Variable data : FamilyData.
Variable total : list Family.
Hypothesis total_ids : NoDup (map id total).
Hypothesis total_truthy : forall f, In f total -> truthy (id f) = true.

Lemma rest_of (d r : list Family) (a f : Family) :
  total = d ++ a :: r -> In f total -> ~ In f (d ++ [a]) -> In f r.
Proof.
  intros Hsplit Hf Hnot. rewrite Hsplit in Hf.
  apply in_app_iff in Hf as [Hf | [<- | Hf]].
  - exfalso. apply Hnot. apply in_app_iff. now left.
  - exfalso. apply Hnot. apply in_app_iff. right. now left.
  - exact Hf.
Qed.

(** Step 3: the set of every family holds the line of its root, and the
    birth family of a person is the first family whose line it is in. *)
Lemma step3_line (sets0 : JsMap.t JsSet.t)
  (s1 : JsMap.t JsSet.t * JsMap.t string) :
  forEachM
    (fun family '(sets, birth) =>
       members <- getSet sets (id family) ;;
       r <- Patrilineal.assignDescendantsPatrilineal data (rootMemberId family)
              (id family) members birth ;;
       let '(members', birth') := r in
       Returned (JsMap.set (id family) members' sets, birth'))
    total (sets0, []) = Returned s1 ->
  (forall f, In f total -> JsMap.get (id f) sets0 = Some []) ->
  (forall f, In f total ->
     exists s,
       JsMap.get (id f) (fst s1) = Some s /\ NoDup s /\
       forall x, In x s <-> descends data (rootMemberId f) x) /\
  (forall x v,
     JsMap.get x (snd s1) = Some v <->
     exists f,
       first_with (fun g => descends data (rootMemberId g) x) total f /\
       v = id f) /\
  (forall g x, In g total -> descends data (rootMemberId g) x ->
     exists v, JsMap.get x (snd s1) = Some v).
Proof.
  intros Hrun H0.
  pose proof (ResultFacts.forEachM_inv
                (fun d (st : JsMap.t JsSet.t * JsMap.t string) =>
                   (forall f, In f d ->
                      exists s,
                        JsMap.get (id f) (fst st) = Some s /\ NoDup s /\
                        forall x, In x s <-> descends data (rootMemberId f) x) /\
                   (forall f, In f total -> ~ In f d ->
                      JsMap.get (id f) (fst st) = Some []) /\
                   (forall x v,
                      JsMap.get x (snd st) = Some v <->
                      exists f,
                        first_with
                          (fun g => descends data (rootMemberId g) x) d f /\
                        v = id f) /\
                   (forall g x, In g d -> descends data (rootMemberId g) x ->
                      exists v, JsMap.get x (snd st) = Some v))
                _ total [] _ s1 Hrun) as H.
  cbn [app] in H.
  assert (forall A (P : A -> Prop) (a : A), ~ first_with P [] a) as Hnil.
  { intros A P a (l1 & l2 & Heq & _). now destruct l1. }
  destruct H as (H1 & _ & H3 & H4).
  - cbn [fst snd]. split; [intros f [] |].
    split; [intros f Hf _; now apply H0 |]. split.
    + intros x v. split; [discriminate |].
      intros (f & Hf & _). now apply Hnil in Hf.
    + intros g x [].
  - clear Hrun. intros d a r [sets birth] st1 Hsplit (Hd & Hrest & Hb & He) Hbody.
    cbn [fst snd] in *.
    pose proof total_ids as Hids. rewrite Hsplit in Hids.
    assert (~ In a d) as Ha.
    { intros Hin.
      now apply (ResultFacts.split_ids d r a a Hids (or_introl Hin)). }
    assert (In a total) as Hat
      by (rewrite Hsplit; apply in_app_iff; right; now left).
    rewrite (ResultFacts.getSet_get _ _ _ (Hrest a Hat Ha)) in Hbody.
    cbn [bind] in Hbody.
    destruct (assignDescendantsPatrilineal_run data (rootMemberId a) (id a)
                [] birth)
      as (members' & birth' & Hdesc & Hin & Hkept & Hgiven & Hnew & Hnd).
    rewrite Hdesc in Hbody. cbn [bind] in Hbody. injection Hbody as <-.
    cbn [fst snd].
    split; [| split; [| split]].
    + intros f Hf. apply in_app_iff in Hf as [Hf | [<- | []]].
      * rewrite map_get_set_other
          by (apply ResultFacts.eqb_neq_false,
                (ResultFacts.split_ids d r a f Hids); now left).
        now apply Hd.
      * rewrite map_get_set_same. eexists. split; [reflexivity |].
        split; [apply Hnd; constructor |].
        intros x. rewrite Hin. simpl. unfold descends. tauto.
    + intros f Hf Hnot.
      pose proof (rest_of d r a f Hsplit Hf Hnot) as Hr.
      rewrite map_get_set_other
        by (apply ResultFacts.eqb_neq_false,
              (ResultFacts.split_ids d r a f Hids); now right).
      apply Hrest; [exact Hf |].
      intros Hin'. apply Hnot. apply in_app_iff. now left.
    + intros x v. split.
      * intros Hv. destruct (JsMap.get x birth) as [w|] eqn:Ew.
        -- rewrite (Hkept x w Ew) in Hv. injection Hv as <-.
           destruct (proj1 (Hb x w) Ew) as (f & Hf & ->).
           exists f. split; [| reflexivity]. apply first_with_snoc. now left.
        -- destruct (Hnew x v Ew Hv) as [-> Hx]. exists a.
           split; [| reflexivity]. apply first_with_snoc. right.
           split; [| now split]. intros g Hg Hgx.
           destruct (He g x Hg Hgx) as [w Hw]. congruence.
      * intros (f & Hf & ->). apply first_with_snoc in Hf as [Hf | (Hno & -> & Hx)].
        -- apply Hkept. apply Hb. now exists f.
        -- destruct (Hgiven x Hx) as [v Hv].
           destruct (JsMap.get x birth) as [w|] eqn:Ew.
           ++ exfalso. destruct (proj1 (Hb x w) Ew) as (f & Hf & _).
              apply first_with_In in Hf as [Hf Hfx]. exact (Hno f Hf Hfx).
           ++ destruct (Hnew x v Ew Hv) as [-> _]. exact Hv.
    + intros g x Hg Hgx. apply in_app_iff in Hg as [Hg | [<- | []]].
      * destruct (He g x Hg Hgx) as [v Hv]. exists v. now apply Hkept.
      * now apply Hgiven.
  - split; [exact H1 | split; [exact H3 | exact H4]].
Qed.

(** Step 4: the partners join; a person without birth family gets the
    first family it married into; the list of a partner holds its birth
    family and the families it married into. *)
Lemma step4_line (sets1 : JsMap.t JsSet.t) (birth1 : JsMap.t string)
  (s2 : JsMap.t JsSet.t * JsMap.t string * JsMap.t (list string)) :
  forEachM
    (fun family '(sets, birth, memberToFamilies) =>
       members <- getSet sets (id family) ;;
       let '(members', birth', memberToFamilies') :=
         Patrilineal.assignSpousesToFamilies data (id family) members birth
           memberToFamilies in
       Returned (JsMap.set (id family) members' sets, birth',
                 memberToFamilies'))
    total (sets1, birth1, []) = Returned s2 ->
  (forall f, In f total ->
     exists s,
       JsMap.get (id f) sets1 = Some s /\ NoDup s /\
       forall x, In x s <-> descends data (rootMemberId f) x) ->
  (forall x v, JsMap.get x birth1 = Some v -> truthy v = true) ->
  (forall f, In f total ->
     exists s,
       JsMap.get (id f) (fst (fst s2)) = Some s /\ NoDup s /\
       forall x, In x s <->
         descends data (rootMemberId f) x \/
         married_into data (rootMemberId f) x) /\
  (forall x v,
     JsMap.get x (snd (fst s2)) = Some v <->
     JsMap.get x birth1 = Some v \/
     (JsMap.get x birth1 = None /\
      exists f,
        first_with (fun g => married_into data (rootMemberId g) x) total f /\
        v = id f)) /\
  (forall x fid,
     listed (snd s2) x fid <->
     (exists g, In g total /\ married_into data (rootMemberId g) x) /\
     (JsMap.get x (snd (fst s2)) = Some fid \/
      exists f, In f total /\ married_into data (rootMemberId f) x /\
                fid = id f)) /\
  (forall x,
     JsMap.has x (snd s2) = true <->
     exists g, In g total /\ married_into data (rootMemberId g) x) /\
  well_kept (snd (fst s2)) (snd s2).
Proof.
  intros Hrun H1 Htr.
  pose proof (ResultFacts.forEachM_inv
                (fun d (st : JsMap.t JsSet.t * JsMap.t string
                             * JsMap.t (list string)) =>
                   (forall f, In f d ->
                      exists s,
                        JsMap.get (id f) (fst (fst st)) = Some s /\ NoDup s /\
                        forall x, In x s <->
                          descends data (rootMemberId f) x \/
                          married_into data (rootMemberId f) x) /\
                   (forall f, In f total -> ~ In f d ->
                      exists s,
                        JsMap.get (id f) (fst (fst st)) = Some s /\ NoDup s /\
                        forall x, In x s <-> descends data (rootMemberId f) x) /\
                   (forall x v,
                      JsMap.get x (snd (fst st)) = Some v <->
                      JsMap.get x birth1 = Some v \/
                      (JsMap.get x birth1 = None /\
                       exists f,
                         first_with
                           (fun g => married_into data (rootMemberId g) x) d f /\
                         v = id f)) /\
                   (forall x fid,
                      listed (snd st) x fid <->
                      (exists g, In g d /\
                                 married_into data (rootMemberId g) x) /\
                      (JsMap.get x (snd (fst st)) = Some fid \/
                       exists f, In f d /\
                                 married_into data (rootMemberId f) x /\
                                 fid = id f)) /\
                   (forall x,
                      JsMap.has x (snd st) = true <->
                      exists g, In g d /\
                                married_into data (rootMemberId g) x) /\
                   well_kept (snd (fst st)) (snd st))
                _ total [] _ s2 Hrun) as H.
  cbn [app] in H.
  assert (forall A (P : A -> Prop) (a : A), ~ first_with P [] a) as Hnil.
  { intros A P a (l1 & l2 & Heq & _). now destruct l1. }
  destruct H as (G1 & _ & G3 & G4 & G5 & G6).
  - cbn [fst snd]. split; [intros f [] |].
    split; [intros f Hf _; now apply H1 |]. split; [| split; [| split]].
    + intros x v. split; [now left |].
      intros [H | (_ & f & Hf & _)]; [exact H | now apply Hnil in Hf].
    + intros x fid. unfold listed. simpl. split.
      * intros (l & Hl & _). discriminate.
      * intros ((g & [] & _) & _).
    + intros x. unfold JsMap.has. simpl. split; [discriminate |].
      intros (g & [] & _).
    + split; [exact Htr |]. intros x l Hl. discriminate.
  - clear Hrun.
    intros d a r [[sets birth] m2f] st1 Hsplit (Hd & Hrest & Hb & Hl & Hk & Hwk)
      Hbody.
    cbn [fst snd] in *.
    pose proof total_ids as Hids. rewrite Hsplit in Hids.
    assert (~ In a d) as Ha.
    { intros Hin.
      now apply (ResultFacts.split_ids d r a a Hids (or_introl Hin)). }
    assert (In a total) as Hat
      by (rewrite Hsplit; apply in_app_iff; right; now left).
    destruct (Hrest a Hat Ha) as (sa & Hget & Hnd & Hline).
    rewrite (ResultFacts.getSet_get _ _ _ Hget) in Hbody. cbn [bind] in Hbody.
    destruct (Patrilineal.assignSpousesToFamilies data (id a) sa birth m2f)
      as [[ms' b'] t'] eqn:Hsp.
    injection Hbody as <-. cbn [fst snd].
    destruct (assignSpouses_line data (id a) (rootMemberId a) sa birth m2f
                ms' b' t' Hsp Hline Hnd (total_truthy a Hat) Hwk)
      as (A1 & A2 & A3 & A4 & A5 & A6).
    assert (forall g x, In g d -> married_into data (rootMemberId g) x ->
              exists v, JsMap.get x birth = Some v) as Hhas.
    { intros g x Hg Hgx.
      assert (JsMap.has x m2f = true) as Hx by (apply Hk; now exists g).
      unfold JsMap.has in Hx. destruct (JsMap.get x m2f) as [l|] eqn:El;
        [| discriminate].
      destruct Hwk as [_ Hw]. destruct (Hw x l El) as (_ & v & Hv & _).
      now exists v. }
    assert (forall x,
              (exists g, In g (d ++ [a]) /\
                         married_into data (rootMemberId g) x) <->
              (exists g, In g d /\ married_into data (rootMemberId g) x) \/
              married_into data (rootMemberId a) x) as Hsnoc.
    { intros x. split.
      - intros (g & Hg & Hgx). apply in_app_iff in Hg as [Hg | [<- | []]];
          [left; now exists g | now right].
      - intros [(g & Hg & Hgx) | Hax].
        + exists g. split; [apply in_app_iff; now left | exact Hgx].
        + exists a. split; [apply in_app_iff; right; now left | exact Hax]. }
    split; [| split; [| split; [| split; [| split; [| exact A6]]]]].
    + intros f Hf. apply in_app_iff in Hf as [Hf | [<- | []]].
      * rewrite map_get_set_other
          by (apply ResultFacts.eqb_neq_false,
                (ResultFacts.split_ids d r a f Hids); now left).
        now apply Hd.
      * rewrite map_get_set_same. exists ms'.
        split; [reflexivity | split; [exact A1 | exact A2]].
    + intros f Hf Hnot.
      pose proof (rest_of d r a f Hsplit Hf Hnot) as Hr.
      rewrite map_get_set_other
        by (apply ResultFacts.eqb_neq_false,
              (ResultFacts.split_ids d r a f Hids); now right).
      apply Hrest; [exact Hf |].
      intros Hin'. apply Hnot. apply in_app_iff. now left.
    + intros x v. rewrite A3. split.
      * intros [Hv | (Hn & Hm & ->)].
        -- apply Hb in Hv as [Hv | (Hn & f & Hf & ->)]; [now left | right].
           split; [exact Hn |]. exists f. split; [| reflexivity].
           apply first_with_snoc. now left.
        -- right.
           assert (JsMap.get x birth1 = None) as Hn1.
           { destruct (JsMap.get x birth1) as [w|] eqn:Ew; [| reflexivity].
             pose proof (proj2 (Hb x w) (or_introl Ew)). congruence. }
           split; [exact Hn1 |]. exists a. split; [| reflexivity].
           apply first_with_snoc. right. split; [| now split].
           intros g Hg Hgx. destruct (Hhas g x Hg Hgx) as [w Hw]. congruence.
      * intros [Hv | (Hn & f & Hf & ->)].
        -- left. apply Hb. now left.
        -- apply first_with_snoc in Hf as [Hf | (Hno & -> & Hm)].
           ++ left. apply Hb. right. split; [exact Hn |]. now exists f.
           ++ right. split; [| now split].
              destruct (JsMap.get x birth) as [w|] eqn:Ew; [| reflexivity].
              exfalso. apply Hb in Ew as [Ew | (_ & f & Hf & _)];
                [congruence |].
              apply first_with_In in Hf as [Hf Hfx]. exact (Hno f Hf Hfx).
    + intros x fid. rewrite A4, Hl, Hsnoc. split.
      * intros [((g & Hg & Hgx) & [Hv | (f & Hf & Hfx & ->)]) | (Hm & [-> | Hv])].
        -- split; [left; now exists g | left].
           apply A3. now left.
        -- split; [left; now exists g | right].
           exists f. split; [apply in_app_iff; now left | now split].
        -- split; [now right | right].
           exists a. split; [apply in_app_iff; right; now left | now split].
        -- split; [now right | now left].
      * intros [[(g & Hg & Hgx) | Hm] [Hv | (f & Hf & Hfx & ->)]].
        -- left. split; [now exists g | left].
           destruct (Hhas g x Hg Hgx) as [w Hw].
           pose proof (proj2 (A3 x w) (or_introl Hw)). congruence.
        -- apply in_app_iff in Hf as [Hf | [<- | []]].
           ++ left. split; [now exists g | right]. now exists f.
           ++ right. split; [exact Hfx | now left].
        -- right. split; [exact Hm | now right].
        -- apply in_app_iff in Hf as [Hf | [<- | []]].
           ++ left. split; [now exists f | right]. now exists f.
           ++ right. split; [exact Hfx | now left].
    + intros x. rewrite A5, Hk, Hsnoc. reflexivity.
  - split; [exact G1 | split; [exact G3 | split; [exact G4 | split]]];
      assumption.
Qed.

(** Step 5: the member counts, and a list for everybody who has none. *)
Lemma step5_line (sets2 : JsMap.t JsSet.t) (birth2 : JsMap.t string)
  (m2f2 : JsMap.t (list string)) (fams : list Family)
  (m2f : JsMap.t (list string)) :
  forEachM
    (fun family '(done, memberToFamilies) =>
       members <- getSet sets2 (id family) ;;
       Returned (done ++ [with_memberCount family (JsSet.size members)],
                 Patrilineal.completeFamily members birth2 memberToFamilies))
    total ([], m2f2) = Returned (fams, m2f) ->
  (forall f s x, In f total -> JsMap.get (id f) sets2 = Some s -> In x s ->
     exists v, JsMap.get x birth2 = Some v) ->
  well_kept birth2 m2f2 ->
  Forall2
    (fun f g =>
       same_family f g /\
       exists s, JsMap.get (id f) sets2 = Some s /\
         memberCount g = List.length s)
    total fams /\
  (forall x fid,
     listed m2f x fid <->
     listed m2f2 x fid \/
     (JsMap.has x m2f2 = false /\
      (exists f s, In f total /\ JsMap.get (id f) sets2 = Some s /\ In x s) /\
      JsMap.get x birth2 = Some fid)) /\
  well_kept birth2 m2f.
Proof.
  intros Hrun Hbirth Hwk.
  pose proof (ResultFacts.forEachM_inv
                (fun d (st : list Family * JsMap.t (list string)) =>
                   Forall2
                     (fun f g =>
                        same_family f g /\
                        exists s, JsMap.get (id f) sets2 = Some s /\
                          memberCount g = List.length s)
                     d (fst st) /\
                   (forall x fid,
                      listed (snd st) x fid <->
                      listed m2f2 x fid \/
                      (JsMap.has x m2f2 = false /\
                       (exists f s, In f d /\
                          JsMap.get (id f) sets2 = Some s /\ In x s) /\
                       JsMap.get x birth2 = Some fid)) /\
                   (forall x,
                      JsMap.has x (snd st) = true <->
                      JsMap.has x m2f2 = true \/
                      exists f s, In f d /\
                        JsMap.get (id f) sets2 = Some s /\ In x s) /\
                   well_kept birth2 (snd st))
                _ total [] _ _ Hrun) as H.
  cbn [app fst snd] in H.
  destruct H as (G1 & G2 & _ & G4).
  - split; [constructor | split; [| split; [| exact Hwk]]].
    + intros x fid. split; [now left |].
      intros [H | (_ & (f & s & [] & _) & _)]. exact H.
    + intros x. split; [now left |].
      intros [H | (f & s & [] & _)]. exact H.
  - clear Hrun. intros d a r [done m0] st1 Hsplit (Hf & Hl & Hk & Hw) Hbody.
    cbn [fst snd] in *.
    assert (In a total) as Hat
      by (rewrite Hsplit; apply in_app_iff; right; now left).
    unfold getSet in Hbody.
    destruct (JsMap.get (id a) sets2) as [sa|] eqn:Hget;
      cbn [bind] in Hbody; [| discriminate].
    injection Hbody as <-. cbn [fst snd].
    destruct (completeFamily_exact birth2 sa m0 Hw
                (fun x Hx => Hbirth a sa x Hat Hget Hx))
      as (C1 & C2 & C3).
    assert (forall x,
              (exists f s, In f (d ++ [a]) /\
                 JsMap.get (id f) sets2 = Some s /\ In x s) <->
              (exists f s, In f d /\
                 JsMap.get (id f) sets2 = Some s /\ In x s) \/ In x sa)
      as Hsnoc.
    { intros x. split.
      - intros (f & s & Hin & Hg & Hx).
        apply in_app_iff in Hin as [Hin | [<- | []]].
        + left. now exists f, s.
        + right. congruence.
      - intros [(f & s & Hin & Hg & Hx) | Hx].
        + exists f, s. split; [apply in_app_iff; now left | now split].
        + exists a, sa. split; [apply in_app_iff; right; now left | now split]. }
    split; [| split; [| split; [| exact C3]]].
    + apply Forall2_app; [exact Hf |]. constructor; [| constructor].
      split; [now repeat split |]. exists sa. now split.
    + intros x fid. rewrite C1, Hl, Hsnoc. split.
      * intros [[H | (H1 & H2 & H3)] | (H1 & H2 & H3)].
        -- now left.
        -- right. split; [exact H1 | split; [now left | exact H3]].
        -- right. destruct (JsMap.has x m2f2) eqn:E2.
           ++ exfalso. pose proof (proj2 (Hk x) (or_introl E2)). congruence.
           ++ split; [reflexivity | split; [now right | exact H3]].
      * intros [H | (H1 & [H2 | H2] & H3)].
        -- left. now left.
        -- left. right. now repeat split.
        -- destruct (JsMap.has x m0) eqn:E0.
           ++ apply Hk in E0 as [E0 | E0]; [congruence |].
              left. right. now repeat split.
           ++ right. now repeat split.
    + intros x. rewrite C2, Hk, Hsnoc. tauto.
  - split; [exact G1 | split; [exact G2 | exact G4]].
Qed.

End LineSteps.

(** ** The result of the patrilineal revision *)

Lemma Forall2_In_l {A B} (R : A -> B -> Prop) (l : list A) (l' : list B) :
  Forall2 R l l' -> forall a, In a l -> exists b, In b l' /\ R a b.
Proof.
  intros H a Ha.
  destruct (PlacementFacts.Forall2_In_r _ _ _ (Forall2_swap R l l' H) a Ha) as (b & Hb & Hr).
  now exists b.
Qed.

(** What the patrilineal revision returns when the keys of the member
    table are distinct. *)
Lemma detectFamilies_line (data : FamilyData) :
  NoDup (map fst (members data)) ->
  exists r,
    Patrilineal.detectFamilies data = Returned r /\
    Forall2
      (fun (p : nat * string) f =>
         same_family (seedFamily data (fst p) (snd p)) f /\
         exists s,
           NoDup s /\
           (forall x, In x s <->
              descends data (snd p) x \/ married_into data (snd p) x) /\
           memberCount f = List.length s)
      (combine (seq 0 (List.length (findRootNodes data))) (findRootNodes data))
      (Patrilineal.families r) /\
    (forall x v,
       JsMap.get x (Patrilineal.memberBirthFamily r) = Some v <->
       exists f,
         v = id f /\
         (first_with (fun g => descends data (rootMemberId g) x)
            (Patrilineal.families r) f \/
          ((forall g, In g (Patrilineal.families r) ->
              ~ descends data (rootMemberId g) x) /\
           first_with (fun g => married_into data (rootMemberId g) x)
             (Patrilineal.families r) f))) /\
    (forall x fid,
       listed (Patrilineal.memberToFamilies r) x fid <->
       JsMap.get x (Patrilineal.memberBirthFamily r) = Some fid \/
       exists f,
         In f (Patrilineal.families r) /\
         married_into data (rootMemberId f) x /\ fid = id f) /\
    well_kept (Patrilineal.memberBirthFamily r)
      (Patrilineal.memberToFamilies r) /\
    Patrilineal.familyColors r = colorsOf (Patrilineal.families r).
Proof.
  intros Hkeys.
  destruct (DetectionFacts.detectFamilies_patrilineal_returns data) as [r Hr].
  exists r. split; [exact Hr |]. unfold Patrilineal.detectFamilies in Hr.
  assert (forall A (P : A -> Prop) (a : A), ~ first_with P [] a) as Hnil.
  { intros A P a (l1 & l2 & Heq & _). now destruct l1. }
  destruct (List.length (findRootNodes data) =? 0)%nat eqn:E0.
  - injection Hr as <-. apply Nat.eqb_eq in E0.
    destruct (findRootNodes data); [| discriminate]. simpl.
    split; [constructor |]. split; [| split; [| split; [| reflexivity]]].
    + intros x v. split; [discriminate |].
      intros (f & _ & [H | [_ H]]); now apply Hnil in H.
    + intros x fid. unfold listed. simpl. split.
      * intros (l & Hl & _). discriminate.
      * intros [H | (f & [] & _)]. discriminate.
    + split; intros x v H; discriminate.
  - destruct (ResultFacts.createFamilies_seeds data)
      as (sets0 & Hcreate & _ & Hsets0).
    rewrite Hcreate in Hr.
    set (pairs := combine (seq 0 (List.length (findRootNodes data)))
                    (findRootNodes data)) in *.
    set (total := map (fun p => seedFamily data (fst p) (snd p)) pairs) in *.
    assert (map snd pairs = findRootNodes data) as Hsnd
      by apply ResultFacts.combine_seq_snd.
    assert (NoDup (map id total)) as Hids.
    { unfold total. rewrite ResultFacts.seeds_ids, Hsnd.
      now apply ResultFacts.NoDup_family_ids, ResultFacts.findRootNodes_NoDup. }
    assert (forall f, In f total -> truthy (id f) = true) as Htruthy.
    { intros f Hf. unfold total in Hf.
      apply in_map_iff in Hf as (p & <- & _). reflexivity. }
    match type of Hr with
    | context [forEachM ?b total (sets0, ?b0)] =>
        destruct (forEachM b total (sets0, b0)) as [[sets1 birth1]| |] eqn:E1
    end; cbn [bind] in Hr; try discriminate.
    match type of Hr with
    | context [forEachM ?b total (sets1, birth1, ?m0)] =>
        destruct (forEachM b total (sets1, birth1, m0))
          as [[[sets2 birth2] m2f2]| |] eqn:E2
    end; cbn [bind] in Hr; try discriminate.
    match type of Hr with
    | context [forEachM ?b total ?s0] =>
        destruct (forEachM b total s0) as [[fams m2f]| |] eqn:E3
    end; cbn [bind] in Hr; try discriminate.
    injection Hr as <-.
    cbn [Patrilineal.families Patrilineal.memberToFamilies
           Patrilineal.familyColors Patrilineal.memberBirthFamily].
    assert (forall f, In f total -> JsMap.get (id f) sets0 = Some []) as H0.
    { intros f Hf. unfold total in Hf. apply in_map_iff in Hf as (p & <- & Hp).
      simpl. apply Hsets0. rewrite <- Hsnd. apply in_map_iff. now exists p. }
    destruct (step3_line data total Hids sets0 (sets1, birth1) E1 H0)
      as (S1 & B1 & E1').
    cbn [fst snd] in S1, B1, E1'.
    assert (forall x v, JsMap.get x birth1 = Some v -> truthy v = true) as Htr.
    { intros x v Hv. apply B1 in Hv as (f & Hf & ->).
      apply first_with_In in Hf as [Hf _]. now apply Htruthy. }
    destruct (step4_line data total Hids Htruthy sets1 birth1
                (sets2, birth2, m2f2) E2 S1 Htr)
      as (S2 & B2 & M2 & K2 & W2).
    cbn [fst snd] in S2, B2, M2, K2, W2.
    assert (forall g x, In g total -> married_into data (rootMemberId g) x ->
              exists v, JsMap.get x birth2 = Some v) as Hmarried.
    { intros g x Hg Hgx.
      assert (JsMap.has x m2f2 = true) as Hx by (apply K2; now exists g).
      unfold JsMap.has in Hx. destruct (JsMap.get x m2f2) as [l|] eqn:El;
        [| discriminate].
      destruct W2 as [_ Hw]. destruct (Hw x l El) as (_ & v & Hv & _).
      now exists v. }
    assert (forall f s x, In f total -> JsMap.get (id f) sets2 = Some s ->
              In x s -> exists v, JsMap.get x birth2 = Some v) as Hbirth.
    { intros f s x Hf Hg Hx. destruct (S2 f Hf) as (s' & Hg' & _ & Hin).
      assert (s = s') as -> by congruence.
      apply Hin in Hx as [Hx | Hx].
      - destruct (E1' f x Hf Hx) as [v Hv]. exists v. apply B2. now left.
      - now apply (Hmarried f). }
    destruct (step5_line total sets2 birth2 m2f2 fams m2f E3 Hbirth W2)
      as (F5 & M5 & W5).
    assert (Forall2 (fun f g => rootMemberId f = rootMemberId g /\ id f = id g)
              total fams) as Hsame.
    { apply (ResultFacts.Forall2_impl_in _ _ _ _ F5).
      intros f g _ [(Hi & _ & _ & Hroot) _]. now split. }
    assert (forall (P : string -> string -> Prop) x f,
              first_with (fun g => P (rootMemberId g) x) total f ->
              exists g, id f = id g /\
                first_with (fun g => P (rootMemberId g) x) fams g) as Hfwd.
    { intros P x f Hf.
      destruct (first_with_transfer _ _
                  (fun g => P (rootMemberId g) x) total fams Hsame
                  (fun a b '(conj Hroot _) =>
                     eq_ind _ (fun z => P (rootMemberId a) x <-> P z x)
                       (iff_refl _) _ Hroot) f Hf)
        as (g & [_ Hid] & Hg).
      now exists g. }
    assert (forall (P : string -> string -> Prop) x g,
              first_with (fun g => P (rootMemberId g) x) fams g ->
              exists f, id f = id g /\
                first_with (fun g => P (rootMemberId g) x) total f) as Hbwd.
    { intros P x g Hg.
      destruct (first_with_transfer
                  (fun b a => rootMemberId a = rootMemberId b /\ id a = id b)
                  (fun g => P (rootMemberId g) x)
                  (fun g => P (rootMemberId g) x) fams total
                  (Forall2_swap _ _ _ Hsame)
                  (fun b a '(conj Hroot _) =>
                     eq_ind _ (fun z => P (rootMemberId b) x <-> P z x)
                       (iff_refl _) _ (eq_sym Hroot)) g Hg)
        as (f & [_ Hid] & Hf).
      now exists f. }
    assert (forall (P : string -> string -> Prop) x,
              (exists g, In g fams /\ P (rootMemberId g) x) <->
              (exists f, In f total /\ P (rootMemberId f) x)) as Hany.
    { intros P x. split.
      - intros (g & Hg & Hp).
        destruct (PlacementFacts.Forall2_In_r _ _ _ Hsame g Hg) as (f & Hf & Hroot & _).
        exists f. split; [exact Hf | now rewrite Hroot].
      - intros (f & Hf & Hp).
        destruct (Forall2_In_l _ _ _ Hsame f Hf) as (g & Hg & Hroot & _).
        exists g. split; [exact Hg | now rewrite <- Hroot]. }
    split; [| split; [| split; [| split; [exact W5 | reflexivity]]]].
    + unfold total in F5. apply ResultFacts.Forall2_map_l_inv in F5.
      apply (ResultFacts.Forall2_impl_in _ _ _ _ F5).
      intros p g Hp [Hsf (s & Hg & Hc)].
      split; [exact Hsf |].
      destruct (S2 (seedFamily data (fst p) (snd p))) as (s' & Hg' & Hnd & Hin).
      { unfold total. apply in_map_iff. now exists p. }
      assert (s = s') as -> by congruence.
      exists s'. split; [exact Hnd | split; [exact Hin | exact Hc]].
    + intros x v. rewrite B2. split.
      * intros [Hv | (Hn & f & Hf & ->)].
        -- apply B1 in Hv as (f & Hf & ->).
           destruct (Hfwd (descends data) x f Hf) as (g & Hid & Hg).
           exists g. split; [exact Hid | now left].
        -- destruct (Hfwd (married_into data) x f Hf) as (g & Hid & Hg).
           exists g. split; [exact Hid | right]. split; [| exact Hg].
           intros g' Hg' Hd.
           destruct (proj1 (Hany (descends data) x)
                       (ex_intro _ g' (conj Hg' Hd))) as (f' & Hf' & Hd').
           destruct (E1' f' x Hf' Hd') as [w Hw]. congruence.
      * intros (g & -> & [Hg | [Hno Hg]]).
        -- destruct (Hbwd (descends data) x g Hg) as (f & Hid & Hf).
           left. apply B1. exists f. split; [exact Hf | now symmetry].
        -- destruct (Hbwd (married_into data) x g Hg) as (f & Hid & Hf).
           right. split.
           ++ destruct (JsMap.get x birth1) as [w|] eqn:Ew; [| reflexivity].
              exfalso. apply B1 in Ew as (f' & Hf' & _).
              apply first_with_In in Hf' as [Hf' Hd'].
              destruct (proj2 (Hany (descends data) x)
                          (ex_intro _ f' (conj Hf' Hd'))) as (g' & Hg' & Hd).
              exact (Hno g' Hg' Hd).
           ++ exists f. split; [exact Hf | now symmetry].
    + intros x fid. rewrite M5, M2. split.
      * intros [(_ & [Hv | (f & Hf & Hm & ->)]) | (_ & _ & Hv)].
        -- now left.
        -- right.
           destruct (Forall2_In_l _ _ _ Hsame f Hf) as (g & Hg & Hroot & Hid).
           exists g. split; [exact Hg | split; [now rewrite <- Hroot | exact Hid]].
        -- now left.
      * intros [Hv | (g & Hg & Hm & ->)].
        -- destruct (JsMap.has x m2f2) eqn:Ek.
           ++ left. split; [now apply K2 | now left].
           ++ right. split; [reflexivity | split; [| exact Hv]].
              apply B2 in Hv as [Hv | (_ & f & Hf & _)].
              ** apply B1 in Hv as (f & Hf & _).
                 apply first_with_In in Hf as [Hf Hd].
                 destruct (S2 f Hf) as (s & Hs & _ & Hin).
                 exists f, s. split; [exact Hf | split; [exact Hs |]].
                 apply Hin. now left.
              ** apply first_with_In in Hf as [Hf Hm].
                 assert (JsMap.has x m2f2 = true) as Hk
                   by (apply K2; now exists f).
                 congruence.
        -- destruct (PlacementFacts.Forall2_In_r _ _ _ Hsame g Hg) as (f & Hf & Hroot & Hid).
           left. split.
           ++ exists f. split; [exact Hf | now rewrite Hroot].
           ++ right. exists f.
              split; [exact Hf | split; [now rewrite Hroot | now symmetry]].
Qed.

(** The families of the patrilineal revision: when the keys of the
    member table are distinct there is one family per root, in root
    order, with id [family_<root>]; it counts the different persons
    that descend from the root through fathers or are named as partner
    by a union of such a descendant. *)
Theorem patrilineal_families (data : FamilyData) :
  NoDup (map fst (members data)) ->
  exists r,
    Patrilineal.detectFamilies data = Returned r /\
    Forall2
      (fun root f =>
         rootMemberId f = root /\ id f = ("family_" ++ root)%string /\
         exists s,
           NoDup s /\
           (forall x, In x s <->
              descends data root x \/ married_into data root x) /\
           memberCount f = List.length s)
      (findRootNodes data) (Patrilineal.families r).
Proof.
  intros Hkeys.
  destruct (detectFamilies_line data Hkeys) as (r & Hr & Hf & _).
  exists r. split; [exact Hr |].
  rewrite <- (ResultFacts.combine_seq_snd (findRootNodes data) 0) at 1.
  apply ResultFacts.Forall2_map_l. apply (ResultFacts.Forall2_impl_in _ _ _ _ Hf).
  intros p f _ [(Hid & _ & _ & Hroot) Hs].
  split; [now symmetry | split; [now symmetry | exact Hs]].
Qed.

Lemma patrilineal_families_witness :
  exists r,
    Patrilineal.detectFamilies Scenarios.intermarriage = Returned r /\
    Forall2
      (fun root f =>
         rootMemberId f = root /\ id f = ("family_" ++ root)%string /\
         exists s,
           NoDup s /\
           (forall x, In x s <->
              descends Scenarios.intermarriage root x \/
              married_into Scenarios.intermarriage root x) /\
           memberCount f = List.length s)
      (findRootNodes Scenarios.intermarriage) (Patrilineal.families r).
Proof.
  exact (patrilineal_families Scenarios.intermarriage
           ResultFacts.intermarriage_keys).
Defined.

(** The birth family: when the keys of the member table are distinct,
    a person has the birth family [v] exactly when [v] is the id of the
    first family, in the order of the result, from whose root the person
    descends through fathers, or, for a person that descends so from no
    root, of the first family it married into. *)
Theorem memberBirthFamily_first (data : FamilyData) :
  NoDup (map fst (members data)) ->
  exists r,
    Patrilineal.detectFamilies data = Returned r /\
    forall x v,
      JsMap.get x (Patrilineal.memberBirthFamily r) = Some v <->
      exists f,
        v = id f /\
        (first_with (fun g => descends data (rootMemberId g) x)
           (Patrilineal.families r) f \/
         ((forall g, In g (Patrilineal.families r) ->
             ~ descends data (rootMemberId g) x) /\
          first_with (fun g => married_into data (rootMemberId g) x)
            (Patrilineal.families r) f)).
Proof.
  intros Hkeys.
  destruct (detectFamilies_line data Hkeys) as (r & Hr & _ & Hb & _).
  now exists r.
Qed.

Lemma memberBirthFamily_first_witness :
  exists r,
    Patrilineal.detectFamilies Scenarios.intermarriage = Returned r /\
    forall x v,
      JsMap.get x (Patrilineal.memberBirthFamily r) = Some v <->
      exists f,
        v = id f /\
        (first_with
           (fun g => descends Scenarios.intermarriage (rootMemberId g) x)
           (Patrilineal.families r) f \/
         ((forall g, In g (Patrilineal.families r) ->
             ~ descends Scenarios.intermarriage (rootMemberId g) x) /\
          first_with
            (fun g => married_into Scenarios.intermarriage (rootMemberId g) x)
            (Patrilineal.families r) f)).
Proof.
  exact (memberBirthFamily_first Scenarios.intermarriage
           ResultFacts.intermarriage_keys).
Defined.

(** The lists of the patrilineal revision: when the keys of the member
    table are distinct, a family is in the list of a person exactly when
    it is the birth family of the person or a family the person married
    into; every list is free of duplicates and starts with the birth
    family of its person. *)
Theorem patrilineal_lists (data : FamilyData) :
  NoDup (map fst (members data)) ->
  exists r,
    Patrilineal.detectFamilies data = Returned r /\
    (forall x fid,
       listed (Patrilineal.memberToFamilies r) x fid <->
       JsMap.get x (Patrilineal.memberBirthFamily r) = Some fid \/
       exists f,
         In f (Patrilineal.families r) /\
         married_into data (rootMemberId f) x /\ fid = id f) /\
    (forall x l,
       JsMap.get x (Patrilineal.memberToFamilies r) = Some l ->
       NoDup l /\
       exists v,
         JsMap.get x (Patrilineal.memberBirthFamily r) = Some v /\
         hd_error l = Some v).
Proof.
  intros Hkeys.
  destruct (detectFamilies_line data Hkeys) as (r & Hr & _ & _ & Hl & Hw & _).
  exists r. split; [exact Hr | split; [exact Hl |]]. now destruct Hw.
Qed.

Lemma patrilineal_lists_witness :
  exists r,
    Patrilineal.detectFamilies Scenarios.intermarriage = Returned r /\
    (forall x fid,
       listed (Patrilineal.memberToFamilies r) x fid <->
       JsMap.get x (Patrilineal.memberBirthFamily r) = Some fid \/
       exists f,
         In f (Patrilineal.families r) /\
         married_into Scenarios.intermarriage (rootMemberId f) x /\
         fid = id f) /\
    (forall x l,
       JsMap.get x (Patrilineal.memberToFamilies r) = Some l ->
       NoDup l /\
       exists v,
         JsMap.get x (Patrilineal.memberBirthFamily r) = Some v /\
         hd_error l = Some v).
Proof.
  exact (patrilineal_lists Scenarios.intermarriage
           ResultFacts.intermarriage_keys).
Defined.

End PatrilinealFacts.

(* ------------------------------------------------------------------ *)
(** * The family filter of the store *)

Module StoreFacts.
Import Graph Families Descent CollectionFacts Store.

Lemma has_of_list (x : string) (l : list string) :
  JsSet.has x (JsSet.of_list l) = JsSet.has x l.
Proof.
  apply eq_true_iff_eq. rewrite !has_In. apply MembershipFacts.of_list_In.
Qed.

Lemma has_delete (x z : string) (s : JsSet.t) :
  JsSet.has x (JsSet.delete z s) = JsSet.has x s && negb (String.eqb x z).
Proof.
  apply eq_true_iff_eq. rewrite andb_true_iff, !has_In.
  unfold JsSet.delete. now rewrite filter_In.
Qed.

Lemma has_add (x z : string) (s : JsSet.t) :
  JsSet.has x (JsSet.add z s) = JsSet.has x s || String.eqb x z.
Proof.
  apply eq_true_iff_eq.
  now rewrite orb_true_iff, !has_In, add_In, String.eqb_eq.
Qed.

Lemma existsb_has (l : list string) (s : JsSet.t) :
  existsb (fun f => JsSet.has f s) l = true <-> exists f, In f l /\ In f s.
Proof.
  rewrite existsb_exists. split; intros (f & Hf & H); exists f;
    (split; [exact Hf | now apply has_In]).
Qed.

(** Toggling a family flips the activity of that family and of no other;
    toggling it twice gives every family the activity it had; the
    families, lists and colours of the state are not touched. *)
Theorem toggleFamily_flips (st : AppState) (f : string) :
  (forall g,
     isFamilyActive (toggleFamily st f) g
     = if String.eqb g f then negb (isFamilyActive st f)
       else isFamilyActive st g) /\
  (forall g,
     isFamilyActive (toggleFamily (toggleFamily st f) f) g
     = isFamilyActive st g) /\
  families (toggleFamily st f) = families st /\
  memberToFamilies (toggleFamily st f) = memberToFamilies st /\
  familyColors (toggleFamily st f) = familyColors st.
Proof.
  assert (forall st g,
            isFamilyActive (toggleFamily st f) g
            = if String.eqb g f then negb (isFamilyActive st f)
              else isFamilyActive st g) as Hflip.
  { intros s g. unfold isFamilyActive, toggleFamily, setActiveFamilies.
    cbn [activeFamilyIds]. rewrite has_of_list.
    destruct (JsSet.has f (activeFamilyIds s)) eqn:Ef.
    - rewrite has_delete, has_of_list.
      destruct (String.eqb g f) eqn:E; simpl.
      + now rewrite andb_false_r.
      + now rewrite andb_true_r.
    - rewrite has_add, has_of_list.
      destruct (String.eqb g f) eqn:E; simpl.
      + now rewrite orb_true_r.
      + now rewrite orb_false_r. }
  split; [apply Hflip |].
  split; [| now repeat split].
  intros g. rewrite (Hflip (toggleFamily st f) g).
  destruct (String.eqb g f) eqn:E.
  - apply String.eqb_eq in E. subst g.
    now rewrite (Hflip st f), String.eqb_refl, negb_involutive.
  - now rewrite (Hflip st g), E.
Qed.

(** What [setFamilies] leaves active: only ids of the new families; at
    least one of them when there is a family; the saved ids that are
    still ids of families, and only those, when there is one; all the
    families when no saved id is one. *)
Theorem setFamilies_active (st : AppState) (fams : list Family)
  (m2f : JsMap.t (list string)) (cols : JsMap.t string) :
  (forall i, isFamilyActive (setFamilies st fams m2f cols) i = true ->
     In i (map id fams)) /\
  (fams <> [] -> activeFamilyIds (setFamilies st fams m2f cols) <> []) /\
  ((exists i, isFamilyActive st i = true /\ In i (map id fams)) ->
   forall i, isFamilyActive (setFamilies st fams m2f cols) i = true <->
     isFamilyActive st i = true /\ In i (map id fams)) /\
  ((forall i, isFamilyActive st i = true -> ~ In i (map id fams)) ->
   forall i, isFamilyActive (setFamilies st fams m2f cols) i = true <->
     In i (map id fams)).
Proof.
  set (V := JsSet.of_list (map id fams)).
  set (F := JsSet.of_list
              (filter (fun i => JsSet.has i V) (activeFamilyIds st))).
  assert (forall i, In i V <-> In i (map id fams)) as HV
    by (intros i; apply MembershipFacts.of_list_In).
  assert (forall i, In i F <->
            isFamilyActive st i = true /\ In i (map id fams)) as HF.
  { intros i. unfold F, isFamilyActive.
    now rewrite MembershipFacts.of_list_In, filter_In, !has_In, HV. }
  assert (activeFamilyIds (setFamilies st fams m2f cols)
          = if (0 <? JsSet.size (activeFamilyIds st))%nat
            then if (JsSet.size F =? 0)%nat then V else F
            else V) as Hact by reflexivity.
  assert ((JsSet.size F =? 0)%nat = true <-> forall i, ~ In i F) as Hempty.
  { rewrite Nat.eqb_eq. unfold JsSet.size. destruct F as [|a r]; simpl.
    - split; [intros _ i [] | reflexivity].
    - split; [discriminate | intros H; exfalso; apply (H a); now left]. }
  assert (forall i, isFamilyActive (setFamilies st fams m2f cols) i = true <->
            In i (activeFamilyIds (setFamilies st fams m2f cols))) as Hin
    by (intros i; apply has_In).
  assert (activeFamilyIds st = [] -> forall i, isFamilyActive st i = false)
    as Hnone by (intros H i; unfold isFamilyActive; now rewrite H).
  split; [| split; [| split]].
  - intros i Hi. apply Hin in Hi. rewrite Hact in Hi.
    destruct (0 <? JsSet.size (activeFamilyIds st))%nat;
      [destruct (JsSet.size F =? 0)%nat |].
    + now apply HV.
    + now apply HF in Hi.
    + now apply HV.
  - intros Hne Habs. rewrite Hact in Habs.
    assert (V <> []) as HVne.
    { destruct fams as [|a r]; [congruence |]. intros HVe.
      assert (In (id a) V) as H by (apply HV; now left).
      rewrite HVe in H. destruct H. }
    destruct (0 <? JsSet.size (activeFamilyIds st))%nat; [| congruence].
    destruct (JsSet.size F =? 0)%nat eqn:E; [congruence |].
    rewrite Habs in E. discriminate.
  - intros (j & Hj & Hjf) i. rewrite Hin, Hact.
    destruct (0 <? JsSet.size (activeFamilyIds st))%nat eqn:E0.
    + destruct (JsSet.size F =? 0)%nat eqn:E.
      * exfalso. apply (proj1 Hempty eq_refl j). now apply HF.
      * apply HF.
    + exfalso. apply Nat.ltb_ge in E0. unfold JsSet.size in E0.
      destruct (activeFamilyIds st) eqn:Ea; [| simpl in E0; lia].
      rewrite (Hnone eq_refl j) in Hj. discriminate.
  - intros Hno i. rewrite Hin, Hact.
    destruct (0 <? JsSet.size (activeFamilyIds st))%nat; [| apply HV].
    destruct (JsSet.size F =? 0)%nat eqn:E; [apply HV |].
    exfalso. destruct F as [|a r] eqn:EF; [discriminate |].
    assert (In a (a :: r)) as Ha by now left.
    apply HF in Ha as [Ha1 Ha2]. exact (Hno a Ha1 Ha2).
Qed.

(** Which nodes the filter shows: a node is shown when it has no family
    (no list, or an empty one) or one of its families is active; so
    after [deactivateAllFamilies] exactly the nodes without family are
    shown, and after [activateAllFamilies] exactly those and the nodes
    that have a family of the state in their list. *)
Theorem isNodeInActiveFamily_shown (st : AppState) (n : string) :
  (isNodeInActiveFamily st n = true <->
   (forall f, ~ listed (memberToFamilies st) n f) \/
   exists f, listed (memberToFamilies st) n f /\ isFamilyActive st f = true) /\
  (isNodeInActiveFamily (deactivateAllFamilies st) n = true <->
   forall f, ~ listed (memberToFamilies st) n f) /\
  (isNodeInActiveFamily (activateAllFamilies st) n = true <->
   (forall f, ~ listed (memberToFamilies st) n f) \/
   exists f, listed (memberToFamilies st) n f /\ In f (map id (families st))).
Proof.
  assert (forall s,
            isNodeInActiveFamily s n = true <->
            (forall f, ~ listed (memberToFamilies s) n f) \/
            exists f, listed (memberToFamilies s) n f /\
                      isFamilyActive s f = true) as Hgen.
  { intros s. unfold isNodeInActiveFamily, listed, isFamilyActive.
    destruct (JsMap.get n (memberToFamilies s)) as [l|] eqn:Hl.
    - destruct l as [|a r]; simpl Nat.eqb; cbv iota.
      + split; [intros _ | reflexivity]. left.
        intros f (l & Hl' & Hin). injection Hl' as <-. destruct Hin.
      + rewrite existsb_exists. split.
        * intros (f & Hf & Ha). right. exists f. split; [| exact Ha].
          now exists (a :: r).
        * intros [Hno | (f & (l & Hl' & Hf) & Ha)].
          -- exfalso. apply (Hno a). exists (a :: r). split; [easy | now left].
          -- injection Hl' as <-. now exists f.
    - split; [intros _ | reflexivity]. left.
      intros f (l & Hl' & _). discriminate. }
  split; [apply Hgen | split].
  - rewrite Hgen. cbn [deactivateAllFamilies setActiveFamilies memberToFamilies].
    split; [| now left].
    intros [H | (f & _ & Hf)]; [exact H |].
    unfold isFamilyActive in Hf. simpl in Hf. discriminate.
  - rewrite Hgen. cbn [activateAllFamilies setActiveFamilies memberToFamilies].
    unfold isFamilyActive. cbn [activeFamilyIds].
    split; (intros [H | (f & Hl & Hf)]; [now left | right]); exists f;
      (split; [exact Hl |]).
    + apply has_In in Hf.
      exact (proj1 (MembershipFacts.of_list_In _ _) Hf).
    + apply has_In.
      exact (proj2 (MembershipFacts.of_list_In _ _) Hf).
Qed.

(** Detection, handed to a store without saved filter, shows every node:
    each list of the result names a family of the result, and all of
    these start active. *)
Theorem detected_families_all_shown (data : FamilyData) (st : AppState) :
  NoDup (map fst (members data)) ->
  activeFamilyIds st = [] ->
  exists r,
    FamilyDetection.detectFamilies data = Returned r /\
    forall n,
      isNodeInActiveFamily
        (setFamilies st (FamilyDetection.families r)
           (FamilyDetection.memberToFamilies r)
           (FamilyDetection.familyColors r)) n = true.
Proof.
  intros Hkeys Hnone.
  destruct (ResultFacts.detectFamilies_structure data Hkeys)
    as (r & Hr & Hf & Hl & _).
  exists r. split; [exact Hr |]. intros n.
  destruct (ResultFacts.seeded_fields _ _ _ _ Hf) as (_ & Hids & _).
  rewrite ResultFacts.combine_seq_snd in Hids.
  unfold isNodeInActiveFamily, setFamilies. cbn [memberToFamilies activeFamilyIds].
  rewrite Hnone. cbn [JsSet.size List.length Nat.ltb Nat.leb].
  destruct (JsMap.get n (FamilyDetection.memberToFamilies r)) as [l|] eqn:Hn;
    [| reflexivity].
  destruct l as [|a t]; [reflexivity |].
  simpl Nat.eqb. cbv iota. apply existsb_exists. exists a.
  split; [now left |]. apply has_In, MembershipFacts.of_list_In.
  rewrite Hids.
  destruct (proj1 (Hl n a)) as (root & Hroot & -> & _).
  { exists (a :: t). split; [exact Hn | now left]. }
  apply in_map_iff. now exists root.
Qed.

Lemma detected_families_all_shown_witness :
  exists r,
    FamilyDetection.detectFamilies Scenarios.intermarriage = Returned r /\
    forall n,
      isNodeInActiveFamily
        (setFamilies
           {| families := []; memberToFamilies := []; familyColors := [];
              activeFamilyIds := [] |}
           (FamilyDetection.families r)
           (FamilyDetection.memberToFamilies r)
           (FamilyDetection.familyColors r)) n = true.
Proof.
  exact (detected_families_all_shown Scenarios.intermarriage
           {| families := []; memberToFamilies := []; familyColors := [];
              activeFamilyIds := [] |}
           ResultFacts.intermarriage_keys eq_refl).
Defined.

(** The same for the patrilineal revision: its lists name birth
    families and families married into, all of them families of the
    result. *)
Theorem patrilineal_all_shown (data : FamilyData) (st : AppState) :
  NoDup (map fst (members data)) ->
  activeFamilyIds st = [] ->
  exists r,
    Patrilineal.detectFamilies data = Returned r /\
    forall n,
      isNodeInActiveFamily
        (setFamilies st (Patrilineal.families r)
           (Patrilineal.memberToFamilies r)
           (Patrilineal.familyColors r)) n = true.
Proof.
  intros Hkeys Hnone.
  destruct (PatrilinealFacts.detectFamilies_line data Hkeys)
    as (r & Hr & _ & Hb & Hl & _).
  exists r. split; [exact Hr |]. intros n.
  unfold isNodeInActiveFamily, setFamilies. cbn [memberToFamilies activeFamilyIds].
  rewrite Hnone. cbn [JsSet.size List.length Nat.ltb Nat.leb].
  destruct (JsMap.get n (Patrilineal.memberToFamilies r)) as [l|] eqn:Hn;
    [| reflexivity].
  destruct l as [|a t]; [reflexivity |].
  simpl Nat.eqb. cbv iota. apply existsb_exists. exists a.
  split; [now left |]. apply has_In, MembershipFacts.of_list_In.
  assert (listed (Patrilineal.memberToFamilies r) n a) as Hla
    by (exists (a :: t); split; [exact Hn | now left]).
  apply Hl in Hla as [Hv | (f & Hf & _ & ->)].
  - apply Hb in Hv as (f & -> & [Hf | [_ Hf]]);
      apply PatrilinealFacts.first_with_In in Hf as [Hf _]; now apply in_map.
  - now apply in_map.
Qed.

Lemma patrilineal_all_shown_witness :
  exists r,
    Patrilineal.detectFamilies Scenarios.intermarriage = Returned r /\
    forall n,
      isNodeInActiveFamily
        (setFamilies
           {| families := []; memberToFamilies := []; familyColors := [];
              activeFamilyIds := [] |}
           (Patrilineal.families r)
           (Patrilineal.memberToFamilies r)
           (Patrilineal.familyColors r)) n = true.
Proof.
  exact (patrilineal_all_shown Scenarios.intermarriage
           {| families := []; memberToFamilies := []; familyColors := [];
              activeFamilyIds := [] |}
           ResultFacts.intermarriage_keys eq_refl).
Defined.

(** The default filter shows the current person: with the result of the
    patrilineal revision in the store and the families of
    [getDefaultActiveFamilies] for a current person active, that person
    is shown, since its list starts with its birth family. *)
Theorem current_node_shown (data : FamilyData) (st : AppState) (x : string) :
  NoDup (map fst (members data)) ->
  x <> ""%string ->
  exists r,
    Patrilineal.detectFamilies data = Returned r /\
    isNodeInActiveFamily
      (setActiveFamilies
         (setFamilies st (Patrilineal.families r)
            (Patrilineal.memberToFamilies r) (Patrilineal.familyColors r))
         (Patrilineal.getDefaultActiveFamilies (Patrilineal.families r)
            (Patrilineal.memberBirthFamily r) (Some x))) x = true.
Proof.
  intros Hkeys Hx.
  destruct (PatrilinealFacts.detectFamilies_line data Hkeys)
    as (r & Hr & _ & _ & _ & [Htr Hw] & _).
  exists r. split; [exact Hr |].
  unfold isNodeInActiveFamily, setActiveFamilies, setFamilies.
  cbn [memberToFamilies activeFamilyIds].
  destruct (JsMap.get x (Patrilineal.memberToFamilies r)) as [l|] eqn:Hl;
    [| reflexivity].
  destruct (Hw x l Hl) as (_ & v & Hv & Hhd).
  destruct l as [|a t]; [discriminate |]. injection Hhd as ->.
  simpl Nat.eqb. cbv iota. apply existsb_exists. exists v.
  split; [now left |].
  unfold Patrilineal.getDefaultActiveFamilies.
  assert (truthy x = true) as ->
    by (unfold truthy; apply negb_true_iff; now apply String.eqb_neq).
  rewrite Hv, (Htr x v Hv). apply has_In. now left.
Qed.

Lemma current_node_shown_witness :
  exists r,
    Patrilineal.detectFamilies Scenarios.intermarriage = Returned r /\
    isNodeInActiveFamily
      (setActiveFamilies
         (setFamilies
            {| families := []; memberToFamilies := []; familyColors := [];
               activeFamilyIds := [] |}
            (Patrilineal.families r)
            (Patrilineal.memberToFamilies r) (Patrilineal.familyColors r))
         (Patrilineal.getDefaultActiveFamilies (Patrilineal.families r)
            (Patrilineal.memberBirthFamily r) (Some "mem_4"%string)))
      "mem_4"%string = true.
Proof.
  apply (current_node_shown Scenarios.intermarriage
           {| families := []; memberToFamilies := []; familyColors := [];
              activeFamilyIds := [] |} "mem_4"%string
           ResultFacts.intermarriage_keys).
  discriminate.
Defined.

End StoreFacts.

(* ------------------------------------------------------------------ *)
(** * Fill and opacity of a node *)

Module NodeFillFacts.
Import Graph Descent CollectionFacts NodeHelpers.

Lemma remove_gradient_In (g : string) (d : defs) (e : string * list stop) :
  In e (remove_gradient g d) -> In e d.
Proof.
  induction d as [|[k s] r IH]; simpl; [tauto |].
  destruct (String.eqb k g); [now right |].
  intros [H | H]; [now left | right; now apply IH].
Qed.

Lemma remove_gradient_other (g k : string) (d : defs) :
  k <> g -> JsMap.get k (remove_gradient g d) = JsMap.get k d.
Proof.
  intros Hne. induction d as [|[k' s] r IH]; simpl; [reflexivity |].
  destruct (String.eqb k' g) eqn:E; simpl.
  - apply String.eqb_eq in E. subst k'.
    now rewrite (ResultFacts.eqb_neq_false k g Hne).
  - now rewrite IH.
Qed.

Lemma remove_gradient_NoDup (g : string) (d : defs) :
  NoDup (map fst d) ->
  NoDup (map fst (remove_gradient g d)) /\
  ~ In g (map fst (remove_gradient g d)).
Proof.
  induction d as [|[k s] r IH]; simpl; intros Hnd.
  - split; [constructor | tauto].
  - inversion Hnd as [|? ? Hk Hr]; subst.
    destruct (String.eqb k g) eqn:E.
    + apply String.eqb_eq in E. subst k. now split.
    + destruct (IH Hr) as [IH1 IH2]. apply String.eqb_neq in E. simpl. split.
      * constructor; [| exact IH1]. intros Hin. apply Hk.
        apply in_map_iff in Hin as (e & <- & He).
        apply in_map. now apply (remove_gradient_In g).
      * intros [H | H]; [now apply E | now apply IH2].
Qed.

Lemma remove_gradient_length (g : string) (d : defs) :
  List.length (remove_gradient g d)
  = (if JsMap.has g d then List.length d - 1 else List.length d)%nat.
Proof.
  unfold JsMap.has. induction d as [|[k s] r IH]; simpl; [reflexivity |].
  rewrite String.eqb_sym. destruct (String.eqb g k); simpl; [lia |].
  rewrite IH. destruct (JsMap.get g r) eqn:Hg; [| reflexivity].
  destruct r; [discriminate | simpl; lia].
Qed.

Lemma get_snoc {V} (k g : string) (v : V) (m : JsMap.t V) :
  JsMap.get k (m ++ [(g, v)])
  = match JsMap.get k m with
    | Some x => Some x
    | None => if String.eqb k g then Some v else None
    end.
Proof.
  induction m as [|[k' v'] r IH]; simpl; [reflexivity |].
  now destruct (String.eqb k k').
Qed.

Lemma get_absent {V} (k : string) (m : JsMap.t V) :
  ~ In k (map fst m) -> JsMap.get k m = None.
Proof.
  induction m as [|[k' v'] r IH]; simpl; [reflexivity |].
  intros H. destruct (String.eqb k k') eqn:E.
  - apply String.eqb_eq in E. subst. exfalso. apply H. now left.
  - apply IH. intros Hin. apply H. now right.
Qed.

Lemma map_snd_combine {A B} (l : list A) (l' : list B) :
  List.length l = List.length l' -> map snd (combine l l') = l'.
Proof.
  revert l'. induction l as [|a r IH]; intros [|b r'] H; simpl in *;
    try reflexivity; try discriminate.
  now rewrite IH by lia.
Qed.

(** The stops that [createLinearGradient] makes carry the colours, in
    order. *)
Lemma stops_colors (colors : list string) (f : nat -> JsNumber.number) :
  map snd
    (map (fun '(i, color) => (f i, color))
       (combine (seq 0 (List.length colors)) colors))
  = colors.
Proof.
  rewrite map_map.
  transitivity (map snd (combine (seq 0 (List.length colors)) colors)).
  - apply map_ext. now intros [i c].
  - apply map_snd_combine, length_seq.
Qed.

Lemma createLinearGradient_run (d : defs) (g : string)
  (colors : list string) :
  exists stops,
    map snd stops = colors /\
    In (g, stops) (createLinearGradient d g colors) /\
    (forall k, k <> g ->
       JsMap.get k (createLinearGradient d g colors) = JsMap.get k d) /\
    List.length (createLinearGradient d g colors)
    = (if JsMap.has g d then List.length d else S (List.length d))%nat /\
    (NoDup (map fst d) ->
     NoDup (map fst (createLinearGradient d g colors)) /\
     JsMap.get g (createLinearGradient d g colors) = Some stops).
Proof.
  unfold createLinearGradient.
  set (stops := map _ (combine _ colors)). exists stops.
  split; [apply stops_colors |].
  split; [apply in_app_iff; right; now left |].
  split.
  { intros k Hk. rewrite get_snoc, remove_gradient_other by exact Hk.
    rewrite (ResultFacts.eqb_neq_false k g Hk). now destruct (JsMap.get k d). }
  split.
  { rewrite length_app, remove_gradient_length. simpl.
    unfold JsMap.has. destruct (JsMap.get g d) eqn:Hg; [| lia].
    destruct d; [discriminate | simpl; lia]. }
  intros Hnd. destruct (remove_gradient_NoDup g d Hnd) as [H1 H2]. split.
  - rewrite map_app. simpl.
    apply NoDup_rev in H1.
    rewrite <- (rev_involutive (_ ++ [g])). apply NoDup_rev.
    rewrite rev_app_distr. simpl. constructor; [| exact H1].
    intros Hin. apply H2. now apply in_rev.
  - rewrite get_snoc, (get_absent g _ H2). now rewrite String.eqb_refl.
Qed.

(** [createLinearGradient] creates or updates: afterwards the gradient of
    that id with one stop per colour, in order, is among the definitions;
    no other id is touched; the number of definitions grows by one when
    the id is new and stays when it is not; and when the ids were
    distinct they still are, so that the id selects the new gradient. *)
Theorem createLinearGradient_spec (d : defs) (g : string)
  (colors : list string) :
  exists stops,
    map snd stops = colors /\
    In (g, stops) (createLinearGradient d g colors) /\
    (forall k, k <> g ->
       JsMap.get k (createLinearGradient d g colors) = JsMap.get k d) /\
    List.length (createLinearGradient d g colors)
    = (if JsMap.has g d then List.length d else S (List.length d))%nat /\
    (NoDup (map fst d) ->
     NoDup (map fst (createLinearGradient d g colors)) /\
     JsMap.get g (createLinearGradient d g colors) = Some stops).
Proof. exact (createLinearGradient_run d g colors). Qed.

Lemma underscores_length (n : nat) : String.length (underscores n) = n.
Proof. induction n as [|k IH]; simpl; [reflexivity | now rewrite IH]. Qed.

Lemma underscores_id_char (n : nat) (r : string) :
  all_chars id_char (underscores n ++ r) = all_chars id_char r.
Proof. induction n as [|k IH]; simpl; [reflexivity | exact IH]. Qed.

Lemma is_alnum_unit (c : ascii) : is_alnum c = true -> units_at c = 1%nat.
Proof.
  unfold is_alnum, units_at. intros H.
  destruct (Nat.ltb_spec (nat_of_ascii c) 128) as [_ | Hge]; [reflexivity |].
  exfalso.
  repeat (apply orb_true_iff in H as [H | H]);
    apply andb_true_iff in H as [_ H]; apply Nat.leb_le in H; lia.
Qed.

Lemma sanitize_id_chars (s : string) : all_chars id_char (sanitize s) = true.
Proof.
  induction s as [|c r IH]; [reflexivity |]. cbn [sanitize].
  destruct (is_alnum c) eqn:E.
  - cbn [all_chars]. unfold id_char at 1. now rewrite E, IH.
  - now rewrite underscores_id_char.
Qed.

Lemma sanitize_fixed (s : string) :
  all_chars id_char s = true -> sanitize s = s.
Proof.
  induction s as [|c r IH]; [reflexivity |]. cbn [all_chars sanitize].
  intros H. apply andb_true_iff in H as [Hc Hr]. rewrite (IH Hr).
  unfold id_char in Hc. destruct (is_alnum c); [reflexivity |].
  simpl in Hc. apply Ascii.eqb_eq in Hc. now subst.
Qed.

(** The id of a gradient is made of letters, digits and underscores
    after [gradient-]: replacing keeps the number of code units, one
    underscore for each code unit that is no letter and no digit (so one
    for a dotless i, which is two bytes, and two for an emoji, which is
    four); it leaves an id of such characters as it is, and is not
    injective, so that the nodes [a-b] and [a_b] share one gradient
    id. *)
Theorem sanitize_spec :
  (forall s, String.length (sanitize s) = code_units s) /\
  (forall s, all_chars id_char (sanitize s) = true) /\
  (forall s, all_chars id_char s = true -> sanitize s = s) /\
  (forall s, sanitize (sanitize s) = sanitize s) /\
  ("a-b" <> "a_b" /\ sanitize "a-b" = sanitize "a_b")%string /\
  (sanitize ("mem_" ++ String "196" (String "177" "")) = "mem__" /\
   sanitize (String "240" (String "159" (String "152" (String "128" ""))))
   = "__")%string.
Proof.
  split; [| split; [exact sanitize_id_chars | split; [exact sanitize_fixed
                                                    | split; [| split]]]].
  - induction s as [|c r IH]; [reflexivity |]. cbn [sanitize code_units].
    destruct (is_alnum c) eqn:E.
    + cbn [String.length]. now rewrite IH, (is_alnum_unit c E).
    + now rewrite UnionIdFacts.length_append, underscores_length, IH.
  - intros s. apply sanitize_fixed, sanitize_id_chars.
  - split; [discriminate | reflexivity].
  - split; reflexivity.
Qed.

Section Fill.

Variable is_member : DagRelaxation.D3Node -> bool.

(** What [getNodeFill] returns and does to the definitions: the default
    colour or the colour of a family of the node, the definitions
    untouched; or the reference [url(#gradient-<id>)], and then the
    definitions hold a gradient of that id whose stops are colours of
    the families of the node, at least one, every other id is as it was,
    and distinct ids stay distinct, the id selecting that gradient. *)
Theorem getNodeFill_result (node : DagRelaxation.D3Node)
  (m2f : JsMap.t (list string)) (cols : JsMap.t string) (d : defs) :
  (fst (getNodeFill is_member node m2f cols d) = DEFAULT_NODE_COLOR /\
   snd (getNodeFill is_member node m2f cols d) = d) \/
  (snd (getNodeFill is_member node m2f cols d) = d /\
   exists f,
     listed m2f (node_id node) f /\
     JsMap.get f cols = Some (fst (getNodeFill is_member node m2f cols d))) \/
  (fst (getNodeFill is_member node m2f cols d)
   = ("url(#gradient-" ++ sanitize (node_id node) ++ ")")%string /\
   exists stops,
     stops <> [] /\
     In (("gradient-" ++ sanitize (node_id node))%string, stops)
       (snd (getNodeFill is_member node m2f cols d)) /\
     (forall s, In s stops ->
        exists f, listed m2f (node_id node) f /\
                  JsMap.get f cols = Some (snd s)) /\
     (forall k, k <> ("gradient-" ++ sanitize (node_id node))%string ->
        JsMap.get k (snd (getNodeFill is_member node m2f cols d))
        = JsMap.get k d) /\
     (NoDup (map fst d) ->
      NoDup (map fst (snd (getNodeFill is_member node m2f cols d))) /\
      JsMap.get ("gradient-" ++ sanitize (node_id node))%string
        (snd (getNodeFill is_member node m2f cols d)) = Some stops)).
Proof.
  unfold getNodeFill.
  destruct (is_member node); cbn [negb]; [| now left].
  unfold listed.
  destruct (JsMap.get (node_id node) m2f) as [l|] eqn:Hl; [| now left].
  destruct l as [|a [|b r]]; [now left | |].
  - destruct (JsMap.get a cols) as [c|] eqn:Hc; [| now left].
    destruct (truthy c); [| now left].
    right. left. split; [reflexivity |]. exists a. split; [| exact Hc].
    exists [a]. split; [reflexivity | now left].
  - set (fams := a :: b :: r) in *.
    set (colors := flat_map _ fams).
    destruct (List.length colors =? 0)%nat eqn:E; [now left |].
    right. right. cbn [fst snd]. split; [reflexivity |].
    destruct (createLinearGradient_run d
                ("gradient-" ++ sanitize (node_id node))%string colors)
      as (stops & Hs & Hin & Hother & _ & Hnd).
    exists stops. split.
    { intros ->. simpl in Hs. rewrite <- Hs in E. discriminate. }
    split; [exact Hin |]. split; [| split; [exact Hother | exact Hnd]].
    intros s Hsin.
    assert (In (snd s) colors) as Hcol by (rewrite <- Hs; now apply in_map).
    unfold colors in Hcol. apply in_flat_map in Hcol as (f & Hf & Hc).
    exists f. split; [now exists fams |].
    destruct (JsMap.get f cols) as [c|]; [| destruct Hc].
    destruct Hc as [-> | []]. reflexivity.
Qed.

(** [getNodeOpacity] and the store's [isNodeInActiveFamily] are one
    rule: handed the lists and the active families of the store, the
    opacity is a quarter exactly for the member nodes the store does not
    show, and 1 for every other node. *)
Theorem getNodeOpacity_agrees (st : Store.AppState)
  (node : DagRelaxation.D3Node) :
  getNodeOpacity is_member node (Store.memberToFamilies st)
    (Store.activeFamilyIds st)
  = if is_member node && negb (Store.isNodeInActiveFamily st (node_id node))
    then 0.25%float else 1%float.
Proof.
  unfold getNodeOpacity, Store.isNodeInActiveFamily.
  destruct (is_member node); cbn [negb andb]; [| reflexivity].
  destruct (JsMap.get (node_id node) (Store.memberToFamilies st)) as [l|];
    [| reflexivity].
  destruct (List.length l =? 0)%nat; [reflexivity |].
  now destruct (existsb _ l).
Qed.

End Fill.

End NodeFillFacts.

(* ------------------------------------------------------------------ *)
(** * Lists of colours and names of families *)

Module PaletteFacts.
Import JsNumber JsString ColorGenerator Graph Descent Notions.

Lemma firstn_seq_le (n : nat) :
  forall start len, (n <= len)%nat -> firstn n (seq start len) = seq start n.
Proof.
  induction n as [|n IH]; intros start [|len] H; simpl; try reflexivity;
    [lia |].
  now rewrite IH by lia.
Qed.

Lemma generateFamilyColors_prefix (n m : nat) :
  (n <= m)%nat ->
  generateFamilyColors n = firstn n (generateFamilyColors m).
Proof.
  intros H. unfold generateFamilyColors.
  now rewrite firstn_map, firstn_seq_le.
Qed.

Lemma first_154_distinct : NoDup (generateFamilyColors 154).
Proof. apply ColorFacts.distinctb_NoDup. vm_compute. reflexivity. Qed.

Lemma colors_10_154 : generateFamilyColor 10 = generateFamilyColor 154.
Proof. vm_compute. reflexivity. Qed.

(** [generateFamilyColors(count)] has [count] entries, entry [i] being
    the colour of index [i]; a shorter list is the front of a longer
    one; up to ten entries it is the front of [getAllFamilyColors()]. *)
Theorem generateFamilyColors_spec :
  (forall n, List.length (generateFamilyColors n) = n) /\
  (forall n i, (i < n)%nat ->
     nth_error (generateFamilyColors n) i = Some (generateFamilyColor i)) /\
  (forall n m, (n <= m)%nat ->
     generateFamilyColors n = firstn n (generateFamilyColors m)) /\
  (forall n, (n <= 10)%nat ->
     generateFamilyColors n = firstn n getAllFamilyColors).
Proof.
  split; [| split; [| split; [exact generateFamilyColors_prefix |]]].
  - intros n. unfold generateFamilyColors. now rewrite length_map, length_seq.
  - intros n i Hi. unfold generateFamilyColors.
    rewrite nth_error_map.
    rewrite (nth_error_nth' _ 0%nat) by now rewrite length_seq.
    now rewrite seq_nth.
  - intros n Hn. now rewrite (generateFamilyColors_prefix n 10 Hn).
Qed.

(** The colours of [generateFamilyColors(n)] are pairwise different
    exactly up to [n = 154]: index 154 repeats the colour of index 10. *)
Theorem generateFamilyColors_distinct_iff (n : nat) :
  NoDup (generateFamilyColors n) <-> (n <= 154)%nat.
Proof.
  split.
  - intros Hnd. destruct (Nat.le_gt_cases n 154) as [H | H]; [exact H |].
    exfalso.
    assert (List.length (generateFamilyColors n) = n) as Hlen
      by (unfold generateFamilyColors; now rewrite length_map, length_seq).
    assert (10 = 154)%nat as Habs; [| discriminate].
    apply (proj1 (NoDup_nth (generateFamilyColors n) ""%string) Hnd);
      [lia | lia |].
    rewrite !ColorFacts.generateFamilyColors_nth by lia.
    exact colors_10_154.
  - intros H. rewrite (generateFamilyColors_prefix n 154 H).
    pose proof first_154_distinct as Hnd.
    rewrite <- (firstn_skipn n (generateFamilyColors 154)) in Hnd.
    now apply NoDup_app_remove_r in Hnd.
Qed.

(** The colour of every index below 1000 is [#] and six upper-case hex
    digits, and from index 10 on the colours of these indices repeat
    every 144. *)
Theorem generateFamilyColor_format (i : nat) :
  (i < 1000)%nat ->
  is_hex_color (generateFamilyColor i) = true /\
  ((10 <= i)%nat -> generateFamilyColor (i + 144) = generateFamilyColor i).
Proof.
  intros Hi.
  assert (forallb
            (fun k =>
               is_hex_color (generateFamilyColor k)
               && ((k <? 10)%nat
                   || String.eqb (generateFamilyColor (k + 144))
                        (generateFamilyColor k)))
            (seq 0 1000) = true) as Hall by (vm_compute; reflexivity).
  rewrite forallb_forall in Hall.
  assert (In i (seq 0 1000)) as Hin by (apply in_seq; lia).
  apply Hall, andb_true_iff in Hin as [H1 H2].
  split; [exact H1 |]. intros H10.
  apply orb_true_iff in H2 as [H2 | H2].
  - apply Nat.ltb_lt in H2. lia.
  - now apply String.eqb_eq.
Qed.

Lemma generateFamilyColor_format_witness :
  is_hex_color (generateFamilyColor 600) = true /\
  ((10 <= 600)%nat -> generateFamilyColor (600 + 144) = generateFamilyColor 600).
Proof. apply (generateFamilyColor_format 600). lia. Defined.

(** The name of a family is [Family of ] and a non-empty rest: the last
    name of the root when it has one that is not blank, else its name
    when that is not empty, else its first name when that is not empty,
    else [Unknown].  Blank is what [trim] empties: spaces, a no-break
    space (two bytes), an ideographic space or a line separator (three
    bytes) are; a lone byte 160 or a name between spaces is not. *)
Theorem getFamilyName_spec (m : Member) :
  (exists s, s <> ""%string /\ getFamilyName m = ("Family of " ++ s)%string) /\
  (forall ln, last_name m = Some ln -> blank ln = false ->
     getFamilyName m = ("Family of " ++ ln)%string) /\
  ((forall ln, last_name m = Some ln -> blank ln = true) ->
   (forall n, name m = Some n -> n <> ""%string ->
      getFamilyName m = ("Family of " ++ n)%string) /\
   ((forall n, name m = Some n -> n = ""%string) ->
    (forall f, first_name m = Some f -> f <> ""%string ->
       getFamilyName m = ("Family of " ++ f)%string) /\
    ((forall f, first_name m = Some f -> f = ""%string) ->
     getFamilyName m = "Family of Unknown"%string))) /\
  (blank "  " = true /\
   blank (String "194" (String "160" " ")) = true /\
   blank (String "227" (String "128" (String "128" ""))) = true /\
   blank (String "226" (String "128" (String "168" ""))) = true /\
   blank (String "160" "") = false /\
   blank " Y " = false)%string.
Proof.
  assert ((exists s, s <> ""%string /\ getFamilyName m = ("Family of " ++ s)%string) /\
  (forall ln, last_name m = Some ln -> blank ln = false ->
     getFamilyName m = ("Family of " ++ ln)%string) /\
  ((forall ln, last_name m = Some ln -> blank ln = true) ->
   (forall n, name m = Some n -> n <> ""%string ->
      getFamilyName m = ("Family of " ++ n)%string) /\
   ((forall n, name m = Some n -> n = ""%string) ->
    (forall f, first_name m = Some f -> f <> ""%string ->
       getFamilyName m = ("Family of " ++ f)%string) /\
    ((forall f, first_name m = Some f -> f = ""%string) ->
     getFamilyName m = "Family of Unknown"%string)))) as Hold.
  {
    assert (forall s, truthy s = true <-> s <> ""%string) as Ht.
    { intros s. unfold truthy. rewrite negb_true_iff. apply String.eqb_neq. }
    assert (forall s, blank s = false -> truthy s = true) as Hb.
    { intros s H. apply Ht. intros ->. discriminate. }
    unfold getFamilyName.
    set (fallback :=
           match name m with
           | Some n => if truthy n then n else
               match first_name m with
               | Some f => if truthy f then f else "Unknown"%string
               | None => "Unknown"%string
               end
           | None =>
               match first_name m with
               | Some f => if truthy f then f else "Unknown"%string
               | None => "Unknown"%string
               end
           end).
    assert (fallback <> ""%string) as Hfb.
    { unfold fallback.
      destruct (name m) as [n|]; [destruct (truthy n) eqn:En; [now apply Ht |] |];
        (destruct (first_name m) as [f|];
         [destruct (truthy f) eqn:Ef; [now apply Ht | discriminate]
         | discriminate]). }
    split; [| split].
    - destruct (last_name m) as [ln|]; [| now exists fallback].
      destruct (truthy ln && negb (blank ln)) eqn:E; [| now exists fallback].
      exists ln. split; [| reflexivity].
      apply andb_true_iff in E as [E _]. now apply Ht.
    - intros ln -> Hblank. now rewrite Hblank, (Hb ln Hblank).
    - intros Hln.
      assert (match last_name m with
              | Some ln =>
                  if truthy ln && negb (blank ln)
                  then ("Family of " ++ ln)%string
                  else ("Family of " ++ fallback)%string
              | None => ("Family of " ++ fallback)%string
              end = ("Family of " ++ fallback)%string) as ->.
      { destruct (last_name m) as [ln|]; [| reflexivity].
        rewrite (Hln ln eq_refl). now rewrite andb_false_r. }
      unfold fallback. split.
      + intros n -> Hn. apply Ht in Hn. now rewrite Hn.
      + intros Hname.
        assert (match name m with
                | Some n => if truthy n then n else
                    match first_name m with
                    | Some f => if truthy f then f else "Unknown"%string
                    | None => "Unknown"%string
                    end
                | None =>
                    match first_name m with
                    | Some f => if truthy f then f else "Unknown"%string
                    | None => "Unknown"%string
                    end
                end
                = match first_name m with
                  | Some f => if truthy f then f else "Unknown"%string
                  | None => "Unknown"%string
                  end) as ->.
        { destruct (name m) as [n|]; [| reflexivity].
          now rewrite (Hname n eq_refl). }
        split.
        * intros f -> Hf. apply Ht in Hf. now rewrite Hf.
        * intros Hfirst. destruct (first_name m) as [f|]; [| reflexivity].
          now rewrite (Hfirst f eq_refl).
  }
  destruct Hold as (H1 & H2 & H3).
  split; [exact H1 | split; [exact H2 | split; [exact H3 | repeat split]]].
Qed.

End PaletteFacts.
